(** * Navigation orchestration of [nav_sdk_ros2/autonomous.py]

    A shallow embedding of [GraphNavInterface] and of the action server
    [NavROS2SDK] that drives it.  The robot is reached through remote
    clients only; those are modelled as a scripted environment ([Remote]),
    and every call to them is recorded in a trace, so that properties of
    the form "which commands were issued, in which order, with which
    arguments" become properties of a list. *)

From Stdlib Require Import List String ZArith QArith Bool Arith Lia.
Import ListNotations.
Open Scope string_scope.
Open Scope list_scope.

Set Implicit Arguments.

(** ** Data model *)

Module Data.

(** [map_pb2.Edge.Id(from_waypoint=..., to_waypoint=...)]. *)
Record EdgeId := mkEdgeId { from_waypoint : string; to_waypoint : string }.

(** The fields of [map_pb2.Waypoint] and [map_pb2.Edge] the client reads. *)
Record Waypoint := mkWaypoint
  { wp_id : string; wp_annotation_name : string; wp_snapshot_id : string }.

Record Edge := mkEdge { edge_id : EdgeId; edge_snapshot_id : string }.

(** [map_pb2.Graph]; the anchoring is kept as the list of anchored
    waypoint ids. *)
Record Graph := mkGraph
  { waypoints : list Waypoint; edges : list Edge; anchors : list string }.

(** [self._current_edges]: a dict from [to_waypoint] to the list of its
    [from_waypoint]s.  Python dicts iterate in insertion order, and
    [_match_edge] returns at the first hit, so the order is kept. *)
Definition EdgeMap := list (string * list string).

(** [bosdyn.client.math_helpers.Quat], kept symbolic in the three ways the
    client builds one. *)
Inductive Quat :=
| Quat_identity
| Quat_from_yaw (yaw : Q)
| Quat_wxyz (w x y z : Q).

(** [SE3Pose(x, y, z, rot)]. *)
Record SE3Pose := mkSE3Pose { px : Q; py : Q; pz : Q; rot : Quat }.

(** The part of [get_localization_state()] the client reads:
    [localization.waypoint_id] and [localization.seed_tform_body]. *)
Record LocalizationState := mkLoc
  { loc_waypoint_id : string;
    seed_x : Q; seed_y : Q; seed_z : Q;
    seed_rot : Q * Q * Q * Q  (* x, y, z, w *) }.

(** [robot_state_pb2.PowerState.MotorPowerState]. *)
Inductive MotorPowerState :=
| STATE_UNKNOWN | STATE_OFF | STATE_ON
| STATE_POWERING_ON | STATE_POWERING_OFF | STATE_ERROR.

Definition is_STATE_ON (m : MotorPowerState) : bool :=
  match m with STATE_ON => true | _ => false end.

(** [graph_nav_pb2.NavigationFeedbackResponse.Status]. *)
Inductive NavStatus :=
| STATUS_UNKNOWN
| STATUS_FOLLOWING_ROUTE
| STATUS_REACHED_GOAL
| STATUS_NO_ROUTE
| STATUS_NO_LOCALIZATION
| STATUS_LOST
| STATUS_NOT_LOCALIZED_TO_END
| STATUS_COMMAND_OVERRIDDEN
| STATUS_ROBOT_IMPAIRED
| STATUS_CONSTRAINT_FAULT
| STATUS_COMMAND_TIMED_OUT
| STATUS_STUCK.

(** The exceptions the code names, and one constructor for the rest. *)
Inductive PyExn :=
| ResponseError
| ResourceAlreadyClaimedError
| TimeoutError
| AttributeError
| OtherException.

Definition is_ResponseError (e : PyExn) : bool :=
  match e with ResponseError => true | _ => false end.

Definition is_ResourceAlreadyClaimedError (e : PyExn) : bool :=
  match e with ResourceAlreadyClaimedError => true | _ => false end.

(** What a remote call answers: a value, or an exception raised in the
    caller. *)
Inductive Reply (A : Type) :=
| Answer (a : A)
| Raises (e : PyExn).
Arguments Raises {A} e.

(** [Navigation.Result]. *)
Record NavigationResult := mkResult { success : bool }.

End Data.
Import Data.

(** ** Route matching *)

(** The inner [for edge_from_id in current_edges[edge_to_id]] of
    [_match_edge]. *)
Fixpoint _match_edge_from (edge_to_id : string) (froms : list string)
    (waypoint1 waypoint2 : string) : option EdgeId :=
  match froms with
  | [] => None
  | edge_from_id :: rest =>
      if (waypoint1 =? edge_to_id) && (waypoint2 =? edge_from_id) then
        Some (mkEdgeId waypoint2 waypoint1)
      else if (waypoint2 =? edge_to_id) && (waypoint1 =? edge_from_id) then
        Some (mkEdgeId waypoint1 waypoint2)
      else _match_edge_from edge_to_id rest waypoint1 waypoint2
  end.

(** [GraphNavInterface._match_edge]. *)
Fixpoint _match_edge (current_edges : EdgeMap) (waypoint1 waypoint2 : string)
    : option EdgeId :=
  match current_edges with
  | [] => None
  | (edge_to_id, froms) :: rest =>
      match _match_edge_from edge_to_id froms waypoint1 waypoint2 with
      | Some e => Some e
      | None => _match_edge rest waypoint1 waypoint2
      end
  end.

(** ** The environment: remote services, trace and console *)

Module Env.

(** [graph_nav_client.build_route(waypoint_ids, edge_ids)]: a local
    constructor of the route message, no remote call. *)
Record Route := mkRoute
  { route_waypoint_id : list string; route_edge_id : list EdgeId }.

(** One entry per call that leaves the process (or reads the host
    framework), in the order the calls are made.  The three navigation
    commands of the client take a [command_id] keyword whose default is
    [None]; the entry records what the call passes. *)
Inductive Event :=
| EvGetRobotState
| EvPowerOnMotors
| EvSafePowerOffMotors
| EvSafePowerOffCommand
| EvGetLocalizationState
| EvNavigateTo (destination : string) (cmd_duration : Q) (command_id : option Z)
| EvNavigateToAnchor (seed_T_goal : SE3Pose) (cmd_duration : Q)
    (command_id : option Z)
| EvNavigateRoute (route : Route) (cmd_duration : Q) (command_id : option Z)
| EvNavigationFeedback (command_id : option Z)
| EvClearGraph
| EvSleep (secs : Q)
| EvLeaseAcquire
| EvLeaseReturn
| EvRclpyOk
| EvIsCancelRequested
| EvGoalCanceled
| EvGoalSucceed
| EvPublishFeedback (x y yaw : Q).

(** The services that answer; calls of one kind are answered from one
    script, by the number of earlier calls of that kind. *)
Inductive Kind :=
| KRobotState | KPowerOn | KPowerOff | KLocalization | KNavigate
| KFeedback | KClearGraph | KLease | KOk | KCancel | KNone.

Definition kind_of (e : Event) : Kind :=
  match e with
  | EvGetRobotState => KRobotState
  | EvPowerOnMotors => KPowerOn
  | EvSafePowerOffMotors | EvSafePowerOffCommand => KPowerOff
  | EvGetLocalizationState => KLocalization
  | EvNavigateTo _ _ _ | EvNavigateToAnchor _ _ _ | EvNavigateRoute _ _ _ =>
      KNavigate
  | EvNavigationFeedback _ => KFeedback
  | EvClearGraph => KClearGraph
  | EvLeaseAcquire => KLease
  | EvRclpyOk => KOk
  | EvIsCancelRequested => KCancel
  | EvSleep _ | EvLeaseReturn | EvGoalCanceled | EvGoalSucceed
  | EvPublishFeedback _ _ _ => KNone
  end.

Definition Kind_eqb (a b : Kind) : bool :=
  match a, b with
  | KRobotState, KRobotState | KPowerOn, KPowerOn | KPowerOff, KPowerOff
  | KLocalization, KLocalization | KNavigate, KNavigate
  | KFeedback, KFeedback | KClearGraph, KClearGraph | KLease, KLease
  | KOk, KOk | KCancel, KCancel | KNone, KNone => true
  | _, _ => false
  end.

Definition is_kind (k : Kind) (e : Event) : bool := Kind_eqb k (kind_of e).

(** Number of calls of kind [k] made so far. *)
Definition calls (k : Kind) (trace : list Event) : nat :=
  List.length (filter (is_kind k) trace).
Arguments calls : simpl never.

(** The scripted robot and host: the [n]-th call of a kind gets the
    [n]-th answer of its script. *)
Record Remote := mkRemote
  { robot_state_script : nat -> Reply MotorPowerState;
    power_on_script : nat -> Reply unit;
    power_off_script : nat -> Reply unit;
    localization_script : nat -> Reply LocalizationState;
    navigate_script : nat -> Reply Z;
    feedback_script : nat -> Reply NavStatus;
    clear_graph_script : nat -> Reply unit;
    lease_script : nat -> Reply unit;
    ok_script : nat -> bool;
    cancel_script : nat -> bool }.

(** What the code prints or logs. *)
Inductive Msg :=
| MsgInvalidArguments
| MsgRobotNotLocalized
| MsgFailedPowerOnNavigateTo
| MsgFailedPowerOnNavigateRoute
| MsgIsFinished (is_finished : bool)
| MsgPose (x y yaw : Q)
| MsgErrorWhileNavigating (e : PyExn)
| MsgNoWaypointProvided
| MsgNoWaypointsProvided
| MsgGotLocalization (l : LocalizationState)
| MsgFailedToFindEdge (start_wp end_wp : string)
| MsgListTheGraph
| MsgRobotGotLost
| MsgRobotGotStuck
| MsgRobotImpaired
| MsgExecutingGoal
| MsgReceivedGoal
| MsgReceivedCancel
| MsgGoalCanceled
| MsgIsItCompleted (result : option bool)
| MsgException (e : PyExn)
| MsgClientThrewError
| MsgLeaseInUse.

End Env.
Import Env.

(** ** Object state *)

(** The fields of [GraphNavInterface] that the navigation code reads or
    writes.  [_seed_T_goal] exists only once the single-step navigation has
    assigned it. *)
Record GraphNavInterface := mkGraphNavInterface
  { _robot_state_x : Q;
    _robot_state_y : Q;
    _robot_state_yaw : Q;
    _flag_nav : bool;
    _started_powered_on : bool;
    _powered_on : bool;
    _max_attempts_to_wait : Z;
    _current_graph : option Graph;
    _current_edges : EdgeMap;
    _current_waypoint_snapshots : list (string * string);
    _current_edge_snapshots : list (string * string);
    _current_annotation_name_to_wp_id : list (string * string);
    _seed_T_goal : option SE3Pose }.

(** The goal fields of the [NavROS2SDK] node. *)
Record NavROS2SDK := mkNavROS2SDK { goal_x : Q; goal_y : Q; goal_yaw : Q }.

(** Everything a run can change: the two objects, the trace of calls and
    the console. *)
Record World := mkWorld
  { gni : GraphNavInterface;
    node : NavROS2SDK;
    trace : list Event;
    stdout : list Msg }.

(** ** A state, exception and fuel monad *)

Module Run.

(** A run returns, raises, or is cut while still looping.  The world is
    kept in all three cases: Python keeps the assignments made before an
    exception. *)
Inductive Outcome (A : Type) :=
| Returns (a : A) (w : World)
| Throws (e : PyExn) (w : World)
| OutOfFuel (w : World).
Arguments Throws {A} e w.
Arguments OutOfFuel {A} w.

Definition M (A : Type) := World -> Outcome A.

Definition ret {A} (a : A) : M A := fun w => Returns a w.

Definition bind {A B} (c : M A) (k : A -> M B) : M B :=
  fun w =>
    match c w with
    | Returns a w' => k a w'
    | Throws e w' => Throws e w'
    | OutOfFuel w' => OutOfFuel w'
    end.

Definition raise {A} (e : PyExn) : M A := fun w => Throws e w.

Definition out_of_fuel {A} : M A := fun w => OutOfFuel w.

(** [try: c  except <exceptions accepted by handles> as e: h e]. *)
Definition try_except {A} (c : M A) (handles : PyExn -> bool)
    (h : PyExn -> M A) : M A :=
  fun w =>
    match c w with
    | Throws e w' => if handles e then h e w' else Throws e w'
    | r => r
    end.

Definition final_world {A} (r : Outcome A) : World :=
  match r with Returns _ w | Throws _ w | OutOfFuel w => w end.

Definition returned {A} (r : Outcome A) : option A :=
  match r with Returns a _ => Some a | _ => None end.

End Run.
Import Run.

Notation "x <- c ;; k" := (bind c (fun x => k))
  (at level 61, c at next level, right associativity).
Notation "c ;; k" := (bind c (fun _ => k))
  (at level 61, right associativity).

(** Field updates of [self]. *)
Definition update_gni (f : GraphNavInterface -> GraphNavInterface) : M unit :=
  fun w => Returns tt (mkWorld (f (gni w)) (node w) (trace w) (stdout w)).

Definition read_gni {A} (f : GraphNavInterface -> A) : M A :=
  fun w => Returns (f (gni w)) w.

Definition read_node {A} (f : NavROS2SDK -> A) : M A :=
  fun w => Returns (f (node w)) w.

Definition print (m : Msg) : M unit :=
  fun w => Returns tt (mkWorld (gni w) (node w) (trace w) (stdout w ++ [m])).

Definition emit (e : Event) : M unit :=
  fun w => Returns tt (mkWorld (gni w) (node w) (trace w ++ [e]) (stdout w)).

(** A call answered from a script: the call is recorded, then the answer
    at the index of this call is returned or raised. *)
Definition call {A} (script : nat -> Reply A) (e : Event) : M A :=
  fun w =>
    let w' := mkWorld (gni w) (node w) (trace w ++ [e]) (stdout w) in
    match script (calls (kind_of e) (trace w)) with
    | Answer a => Returns a w'
    | Raises x => Throws x w'
    end.

Definition observe (script : nat -> bool) (e : Event) : M bool :=
  fun w =>
    Returns (script (calls (kind_of e) (trace w)))
            (mkWorld (gni w) (node w) (trace w ++ [e]) (stdout w)).

Definition set__powered_on (b : bool) (s : GraphNavInterface) :=
  mkGraphNavInterface (_robot_state_x s) (_robot_state_y s)
    (_robot_state_yaw s) (_flag_nav s) (_started_powered_on s) b
    (_max_attempts_to_wait s) (_current_graph s) (_current_edges s)
    (_current_waypoint_snapshots s) (_current_edge_snapshots s)
    (_current_annotation_name_to_wp_id s) (_seed_T_goal s).

Definition set__flag_nav (b : bool) (s : GraphNavInterface) :=
  mkGraphNavInterface (_robot_state_x s) (_robot_state_y s)
    (_robot_state_yaw s) b (_started_powered_on s) (_powered_on s)
    (_max_attempts_to_wait s) (_current_graph s) (_current_edges s)
    (_current_waypoint_snapshots s) (_current_edge_snapshots s)
    (_current_annotation_name_to_wp_id s) (_seed_T_goal s).

Definition set__seed_T_goal (p : SE3Pose) (s : GraphNavInterface) :=
  mkGraphNavInterface (_robot_state_x s) (_robot_state_y s)
    (_robot_state_yaw s) (_flag_nav s) (_started_powered_on s) (_powered_on s)
    (_max_attempts_to_wait s) (_current_graph s) (_current_edges s)
    (_current_waypoint_snapshots s) (_current_edge_snapshots s)
    (_current_annotation_name_to_wp_id s) (Some p).

Definition set__robot_state (x y yaw : Q) (s : GraphNavInterface) :=
  mkGraphNavInterface x y yaw (_flag_nav s) (_started_powered_on s)
    (_powered_on s) (_max_attempts_to_wait s) (_current_graph s)
    (_current_edges s) (_current_waypoint_snapshots s)
    (_current_edge_snapshots s) (_current_annotation_name_to_wp_id s)
    (_seed_T_goal s).

(** ** The controller: [GraphNavInterface] *)

Section Controller.

(** The robot and host the code talks to. *)
Variable remote : Remote.

(** [graph_nav_util.find_unique_waypoint_id(token, graph, name_to_id)],
    imported from the helper module: the id found, [None], or an
    exception. *)
Variable find_unique_waypoint_id :
  string -> option Graph -> list (string * string) -> Reply (option string).

(** [tf_transformations.euler_from_quaternion([x, y, z, w])]. *)
Variable euler_from_quaternion : Q * Q * Q * Q -> Q * Q * Q.

(** Python truth value of a returned id: [None] and the empty string are
    false. *)
Definition truthy_id (r : option string) : bool :=
  match r with
  | None => false
  | Some s => negb (s =? "")
  end.

(** Truth value of a step result: only [True] is true. *)
Definition truthy_result (r : option bool) : bool :=
  match r with Some true => true | _ => false end.

Definition sleep (secs : Q) : M unit := emit (EvSleep secs).

(** [GraphNavInterface.__init__]: the power state observed at construction
    is stored twice, as the start state and as the current state. *)
Definition GraphNavInterface__init__ : M unit :=
  power_state <- call (robot_state_script remote) EvGetRobotState ;;
  update_gni (fun _ =>
    mkGraphNavInterface 0 0 0 false
      (is_STATE_ON power_state) (is_STATE_ON power_state)
      50 None [] [] [] [] None).

(** [check_is_powered_on]. *)
Definition check_is_powered_on : M bool :=
  power_state <- call (robot_state_script remote) EvGetRobotState ;;
  update_gni (set__powered_on (is_STATE_ON power_state)) ;;
  read_gni _powered_on.

(** The [while not motors_on] loop of [toggle_power]. *)
Fixpoint toggle_power_wait (fuel : nat) : M unit :=
  match fuel with
  | O => out_of_fuel
  | S fuel' =>
      state_response <- call (robot_state_script remote) EvGetRobotState ;;
      if is_STATE_ON state_response then ret tt
      else sleep (1 # 4) ;; toggle_power_wait fuel'
  end.

(** [toggle_power]. *)
Definition toggle_power (fuel : nat) (should_power_on : bool) : M bool :=
  is_powered_on <- check_is_powered_on ;;
  if negb is_powered_on && should_power_on then
    call (power_on_script remote) EvPowerOnMotors ;;
    toggle_power_wait fuel ;;
    check_is_powered_on ;;
    read_gni _powered_on
  else if is_powered_on && negb should_power_on then
    call (power_off_script remote) EvSafePowerOffMotors ;;
    check_is_powered_on ;;
    read_gni _powered_on
  else ret is_powered_on.

(** [_check_success]; the parameter defaults to [-1], and a caller may
    pass [None]. *)
Definition _check_success (command_id : option Z) : M bool :=
  if (match command_id with Some c => (c =? -1)%Z | None => false end) then
    ret false
  else
    status <- call (feedback_script remote) (EvNavigationFeedback command_id) ;;
    match status with
    | STATUS_REACHED_GOAL => ret true
    | STATUS_LOST => print MsgRobotGotLost ;; ret true
    | STATUS_STUCK => print MsgRobotGotStuck ;; ret true
    | STATUS_ROBOT_IMPAIRED => print MsgRobotImpaired ;; ret true
    | _ => ret false
    end.

(** The [while not is_finished] loop of [_navigate_to]. *)
Fixpoint _navigate_to_loop (fuel : nat) (destination_waypoint : string)
    (nav_to_cmd_id : option Z) : M unit :=
  match fuel with
  | O => out_of_fuel
  | S fuel' =>
      issued <-
        try_except
          (state <- call (localization_script remote) EvGetLocalizationState ;;
           print (MsgGotLocalization state) ;;
           c <- call (navigate_script remote)
                  (EvNavigateTo destination_waypoint 1 nav_to_cmd_id) ;;
           ret (Some c))
          is_ResponseError
          (fun e => print (MsgErrorWhileNavigating e) ;; ret None) ;;
      match issued with
      | None => ret tt
      | Some c =>
          sleep (1 # 2) ;;
          is_finished <- _check_success (Some c) ;;
          if is_finished then ret tt
          else _navigate_to_loop fuel' destination_waypoint (Some c)
      end
  end.

(** [_navigate_to]; [args] is the tuple of positional arguments. *)
Definition _navigate_to (fuel : nat) (args : list (list string)) : M unit :=
  match args with
  | [] => print MsgNoWaypointProvided
  | [] :: _ => raise OtherException
  | (token :: _) :: _ =>
      g <- read_gni _current_graph ;;
      names <- read_gni _current_annotation_name_to_wp_id ;;
      match find_unique_waypoint_id token g names with
      | Raises e => raise e
      | Answer destination_waypoint =>
          if negb (truthy_id destination_waypoint) then ret tt
          else
            powered <- toggle_power fuel true ;;
            if negb powered then print MsgFailedPowerOnNavigateTo
            else
              _navigate_to_loop fuel
                (match destination_waypoint with Some s => s | None => "" end)
                None
      end
  end.

(** [len(args[0]) in [2, 3, 4, 7]]. *)
Definition valid_anchor_args (a : list Q) : bool :=
  existsb (Nat.eqb (List.length a)) [2; 3; 4; 7]%nat.

(** The orientation chosen from the argument list. *)
Definition anchor_rot (a : list Q) (current : Quat) : Quat :=
  if Nat.eqb (List.length a) 3 then Quat_from_yaw (nth 2 a 0)
  else if Nat.eqb (List.length a) 4 then Quat_from_yaw (nth 3 a 0)
  else if Nat.eqb (List.length a) 7 then
    Quat_wxyz (nth 3 a 0) (nth 4 a 0) (nth 5 a 0) (nth 6 a 0)
  else current.

(** [len(args[0]) in [4, 7]]. *)
Definition has_z (a : list Q) : bool :=
  existsb (Nat.eqb (List.length a)) [4; 7]%nat.

(** Reads the pose for the outward feedback into [self]. *)
Definition read_robot_state : M unit :=
  state <- call (localization_script remote) EvGetLocalizationState ;;
  update_gni (set__robot_state (seed_x state) (seed_y state)
                (snd (euler_from_quaternion (seed_rot state)))).

(** The [while not is_finished] loop of [_navigate_to_anchor]. *)
Fixpoint _navigate_to_anchor_loop (fuel : nat) (seed_T_goal : SE3Pose)
    (nav_to_cmd_id : option Z) : M unit :=
  match fuel with
  | O => out_of_fuel
  | S fuel' =>
      issued <-
        try_except
          (read_robot_state ;;
           x <- read_gni _robot_state_x ;;
           y <- read_gni _robot_state_y ;;
           yaw <- read_gni _robot_state_yaw ;;
           print (MsgPose x y yaw) ;;
           c <- call (navigate_script remote)
                  (EvNavigateToAnchor seed_T_goal 1 nav_to_cmd_id) ;;
           ret (Some c))
          is_ResponseError
          (fun e => print (MsgErrorWhileNavigating e) ;; ret None) ;;
      match issued with
      | None => ret tt
      | Some c =>
          sleep (1 # 2) ;;
          is_finished <- _check_success (Some c) ;;
          if is_finished then ret tt
          else _navigate_to_anchor_loop fuel' seed_T_goal (Some c)
      end
  end.

(** [_navigate_to_anchor], the continuous variant. *)
Definition _navigate_to_anchor (fuel : nat) (args : list (list Q)) : M unit :=
  match args with
  | [] => print MsgInvalidArguments
  | a :: _ =>
      if negb (valid_anchor_args a) then print MsgInvalidArguments
      else
        z <-
          (if has_z a then ret (Some (nth 2 a 0))
           else
             localization_state <-
               call (localization_script remote) EvGetLocalizationState ;;
             if loc_waypoint_id localization_state =? "" then ret None
             else ret (Some (seed_z localization_state))) ;;
        match z with
        | None => print MsgRobotNotLocalized
        | Some z =>
            let seed_T_goal :=
              mkSE3Pose (nth 0 a 0) (nth 1 a 0) z (anchor_rot a Quat_identity) in
            powered <- toggle_power fuel true ;;
            if negb powered then print MsgFailedPowerOnNavigateTo
            else _navigate_to_anchor_loop fuel seed_T_goal None
        end
  end.

(** In-place update of the pose stored in [self._seed_T_goal]. *)
Definition modify__seed_T_goal (f : SE3Pose -> SE3Pose) : M unit :=
  g <- read_gni _seed_T_goal ;;
  match g with
  | None => raise AttributeError
  | Some p => update_gni (set__seed_T_goal (f p))
  end.

(** The [if self._flag_nav == False:] block of [_navigate_to_anchor_once].
    The result is [false] where the source returns from the function. *)
Definition _navigate_to_anchor_once_prepare (fuel : nat)
    (args : list (list Q)) : M bool :=
  match args with
  | [] => print MsgInvalidArguments ;; ret false
  | a :: _ =>
      if negb (valid_anchor_args a) then print MsgInvalidArguments ;; ret false
      else
        update_gni
          (set__seed_T_goal (mkSE3Pose (nth 0 a 0) (nth 1 a 0) 0 Quat_identity)) ;;
        localized <-
          (if has_z a then
             modify__seed_T_goal
               (fun p => mkSE3Pose (px p) (py p) (nth 2 a 0) (rot p)) ;;
             ret true
           else
             localization_state <-
               call (localization_script remote) EvGetLocalizationState ;;
             if loc_waypoint_id localization_state =? "" then
               print MsgRobotNotLocalized ;; ret false
             else
               modify__seed_T_goal
                 (fun p => mkSE3Pose (px p) (py p) (seed_z localization_state)
                             (rot p)) ;;
               ret true) ;;
        if negb localized then ret false
        else
          modify__seed_T_goal
            (fun p => mkSE3Pose (px p) (py p) (pz p) (anchor_rot a (rot p))) ;;
          powered <- toggle_power fuel true ;;
          if negb powered then print MsgFailedPowerOnNavigateTo ;; ret false
          else ret true
  end.

(** [_navigate_to_anchor_once], the single-step variant: [None] where the
    source returns nothing, else [is_finished]. *)
Definition _navigate_to_anchor_once (fuel : nat) (args : list (list Q))
    : M (option bool) :=
  flag <- read_gni _flag_nav ;;
  go <- (if negb flag then _navigate_to_anchor_once_prepare fuel args
         else ret true) ;;
  if negb go then ret None
  else
    let nav_to_cmd_id : option Z := None in
    update_gni (set__flag_nav true) ;;
    read_robot_state ;;
    g <- read_gni _seed_T_goal ;;
    match g with
    | None => raise AttributeError
    | Some goal =>
        c <- call (navigate_script remote)
               (EvNavigateToAnchor goal 1 nav_to_cmd_id) ;;
        sleep (1 # 2) ;;
        is_finished <- _check_success (Some c) ;;
        print (MsgIsFinished is_finished) ;;
        (if is_finished then update_gni (set__flag_nav false) else ret tt) ;;
        ret (Some is_finished)
    end.

(** The first loop of [_navigate_route]: every token is replaced by its
    waypoint id; [None] where the source returns. *)
Fixpoint _navigate_route_resolve (tokens : list string)
    : M (option (list string)) :=
  match tokens with
  | [] => ret (Some [])
  | token :: rest =>
      g <- read_gni _current_graph ;;
      names <- read_gni _current_annotation_name_to_wp_id ;;
      match find_unique_waypoint_id token g names with
      | Raises e => raise e
      | Answer r =>
          match r with
          | Some id =>
              if id =? "" then ret None
              else
                ids <- _navigate_route_resolve rest ;;
                ret (option_map (cons id) ids)
          | None => ret None
          end
      end
  end.

(** The second loop of [_navigate_route]: the edges of the consecutive
    pairs, up to the first pair without one.  The second component is that
    pair, or [None] when [all_edges_found] stays [True]. *)
Fixpoint _navigate_route_edges (current_edges : EdgeMap)
    (waypoint_ids : list string) (edge_ids_list : list EdgeId)
    : list EdgeId * option (string * string) :=
  match waypoint_ids with
  | start_wp :: rest =>
      match rest with
      | end_wp :: _ =>
          match _match_edge current_edges start_wp end_wp with
          | Some edge_id =>
              _navigate_route_edges current_edges rest
                (edge_ids_list ++ [edge_id])
          | None => (edge_ids_list, Some (start_wp, end_wp))
          end
      | [] => (edge_ids_list, None)
      end
  | [] => (edge_ids_list, None)
  end.

(** The [while not is_finished] loop of [_navigate_route]. *)
Fixpoint _navigate_route_loop (fuel : nat) (route : Route) : M unit :=
  match fuel with
  | O => out_of_fuel
  | S fuel' =>
      nav_route_command_id <-
        call (navigate_script remote) (EvNavigateRoute route 1 None) ;;
      sleep (1 # 2) ;;
      is_finished <- _check_success (Some nav_route_command_id) ;;
      if is_finished then ret tt else _navigate_route_loop fuel' route
  end.

(** The conditional power-off that ends [_navigate_route]. *)
Definition power_off_if_appropriate (fuel : nat) : M unit :=
  powered_on <- read_gni _powered_on ;;
  started_powered_on <- read_gni _started_powered_on ;;
  if powered_on && negb started_powered_on then
    toggle_power fuel false ;; ret tt
  else ret tt.

(** [_navigate_route] from the point where the waypoint ids are known. *)
Definition _navigate_route_ids (fuel : nat) (waypoint_ids : list string)
    : M unit :=
  current_edges <- read_gni _current_edges ;;
  match _navigate_route_edges current_edges waypoint_ids [] with
  | (_, Some (start_wp, end_wp)) =>
      print (MsgFailedToFindEdge start_wp end_wp) ;;
      print MsgListTheGraph
  | (edge_ids_list, None) =>
      powered <- toggle_power fuel true ;;
      if negb powered then print MsgFailedPowerOnNavigateRoute
      else
        _navigate_route_loop fuel (mkRoute waypoint_ids edge_ids_list) ;;
        power_off_if_appropriate fuel
  end.

(** [_navigate_route]. *)
Definition _navigate_route (fuel : nat) (args : list (list string)) : M unit :=
  match args with
  | [] => print MsgNoWaypointsProvided
  | [] :: _ => print MsgNoWaypointsProvided
  | tokens :: _ =>
      resolved <- _navigate_route_resolve tokens ;;
      match resolved with
      | None => ret tt
      | Some waypoint_ids => _navigate_route_ids fuel waypoint_ids
      end
  end.

(** [_clear_graph]. *)
Definition _clear_graph : M unit :=
  call (clear_graph_script remote) EvClearGraph.

(** [_on_quit]. *)
Definition _on_quit : M unit :=
  powered_on <- read_gni _powered_on ;;
  started_powered_on <- read_gni _started_powered_on ;;
  if powered_on && negb started_powered_on then
    call (power_off_script remote) EvSafePowerOffCommand
  else ret tt.

(** [run_next_position_once]. *)
Definition run_next_position_once (fuel : nat) (x y yaw : Q)
    : M (option bool) :=
  _navigate_to_anchor_once fuel [[x; y; yaw]].

(** ** The action server: [NavROS2SDK] *)

(** [goal_callback]: stores the requested pose, always accepts. *)
Definition goal_callback (x y yaw : Q) : M bool :=
  print MsgReceivedGoal ;;
  (fun w => Returns true (mkWorld (gni w) (mkNavROS2SDK x y yaw) (trace w)
                            (stdout w))).

(** [cancel_callback]: always accepts. *)
Definition cancel_callback : M bool :=
  print MsgReceivedCancel ;; ret true.

(** [with LeaseKeepAlive(lease_client, must_acquire=True,
    return_at_exit=True):] the lease is taken on entry, which may raise,
    and is returned when the block is left, by a return or an exception. *)
Definition with_LeaseKeepAlive {A} (body : M A) : M A :=
  fun w =>
    match call (lease_script remote) EvLeaseAcquire w with
    | Returns _ w1 =>
        match body w1 with
        | Returns a w2 => (emit EvLeaseReturn ;; ret a) w2
        | Throws e w2 => (emit EvLeaseReturn ;; raise e) w2
        | OutOfFuel w2 => OutOfFuel w2
        end
    | Throws e w1 => Throws e w1
    | OutOfFuel w1 => OutOfFuel w1
    end.

(** One pass of the body of [while rclpy.ok():] after the cancel check:
    [Some r] where the source returns [r], [None] where it loops. *)
Definition execute_callback_step (fuel : nat)
    : M (option NavigationResult) :=
  try_except
    (x <- read_node goal_x ;;
     y <- read_node goal_y ;;
     yaw <- read_node goal_yaw ;;
     result <- run_next_position_once fuel x y yaw ;;
     print (MsgIsItCompleted result) ;;
     fx <- read_gni _robot_state_x ;;
     fy <- read_gni _robot_state_y ;;
     fyaw <- read_gni _robot_state_yaw ;;
     print (MsgPose fx fy fyaw) ;;
     emit (EvPublishFeedback fx fy fyaw) ;;
     if truthy_result result then
       emit EvGoalSucceed ;; ret (Some (mkResult true))
     else ret None)
    (fun _ => true)
    (fun exc =>
       print (MsgException exc) ;;
       print MsgClientThrewError ;;
       ret (Some (mkResult false))).

(** The [while rclpy.ok():] loop of [execute_callback]; the outer [None]
    is the fall-through when [rclpy.ok()] turns false.
    [Navigation.Result()] has [success] false. *)
Fixpoint execute_callback_loop (fuel : nat) (budget : nat)
    : M (option NavigationResult) :=
  match budget with
  | O => out_of_fuel
  | S budget' =>
      ok <- observe (ok_script remote) EvRclpyOk ;;
      if negb ok then ret None
      else
        cancel <- observe (cancel_script remote) EvIsCancelRequested ;;
        if cancel then
          emit EvGoalCanceled ;;
          print MsgGoalCanceled ;;
          ret (Some (mkResult false))
        else
          r <- execute_callback_step fuel ;;
          match r with
          | Some result => ret (Some result)
          | None => execute_callback_loop fuel budget'
          end
  end.

(** [execute_callback]. *)
Definition execute_callback (fuel : nat) : M (option NavigationResult) :=
  print MsgExecutingGoal ;;
  try_except
    (with_LeaseKeepAlive (execute_callback_loop fuel fuel))
    is_ResourceAlreadyClaimedError
    (fun _ => print MsgLeaseInUse ;; ret (Some (mkResult false))).

End Controller.

(** ** Vocabulary of the statements *)

(** The consecutive pairs [(w_i, w_i+1)] of a waypoint list. *)
Fixpoint consecutive_pairs (l : list string) : list (string * string) :=
  match l with
  | a :: rest =>
      match rest with
      | b :: _ => (a, b) :: consecutive_pairs rest
      | [] => []
      end
  | [] => []
  end.

(** A pair of waypoints has a matching edge. *)
Definition has_edge (current_edges : EdgeMap) (p : string * string) : Prop :=
  _match_edge current_edges (fst p) (snd p) <> None.

(** The edge [to <- from] is recorded in the adjacency mapping. *)
Definition recorded (current_edges : EdgeMap) (e : EdgeId) : Prop :=
  exists froms,
    In (to_waypoint e, froms) current_edges /\ In (from_waypoint e) froms.

(** The unordered pair of the edge's endpoints is the pair asked for. *)
Definition joins (e : EdgeId) (a b : string) : Prop :=
  (to_waypoint e = a /\ from_waypoint e = b) \/
  (to_waypoint e = b /\ from_waypoint e = a).

(** The statuses on which [_check_success] answers [True]. *)
Definition terminal (s : NavStatus) : bool :=
  match s with
  | STATUS_REACHED_GOAL | STATUS_LOST | STATUS_STUCK | STATUS_ROBOT_IMPAIRED =>
      true
  | _ => false
  end.

(** The handles passed by the navigation commands of a trace, in
    order. *)
Fixpoint passed_handles (t : list Event) : list (option Z) :=
  match t with
  | [] => []
  | EvNavigateTo _ _ c :: rest => c :: passed_handles rest
  | EvNavigateToAnchor _ _ c :: rest => c :: passed_handles rest
  | EvNavigateRoute _ _ c :: rest => c :: passed_handles rest
  | _ :: rest => passed_handles rest
  end.

(** The goal poses of the anchored navigation commands of a trace. *)
Fixpoint commanded_poses (t : list Event) : list SE3Pose :=
  match t with
  | [] => []
  | EvNavigateToAnchor p _ _ :: rest => p :: commanded_poses rest
  | _ :: rest => commanded_poses rest
  end.

(** The marks set on the goal handle, in order. *)
Definition goal_marks (t : list Event) : list Event :=
  filter (fun e => match e with
                   | EvGoalSucceed | EvGoalCanceled => true
                   | _ => false
                   end) t.

(** Number of power-off commands, of either form, in a trace. *)
Definition power_offs (t : list Event) : nat := calls KPowerOff t.

(** Number of power-on commands in a trace. *)
Definition power_ons (t : list Event) : nat := calls KPowerOn t.


(** The world after more calls and more output. *)
Definition after (w : World) (evs : list Event) (msgs : list Msg) : World :=
  mkWorld (gni w) (node w) (trace w ++ evs) (stdout w ++ msgs).
Arguments after : simpl never.




(** The operations a client of the controller and of the node can
    start. *)
Inductive Operation :=
| Op_navigate_to (args : list (list string))
| Op_navigate_route (args : list (list string))
| Op_navigate_to_anchor (args : list (list Q))
| Op_navigate_to_anchor_once (args : list (list Q))
| Op_clear_graph
| Op_on_quit
| Op_goal_callback (x y yaw : Q)
| Op_cancel_callback
| Op_execute_callback.

Section Executions.

Variable remote : Remote.
Variable find_unique_waypoint_id :
  string -> option Graph -> list (string * string) -> Reply (option string).
Variable euler_from_quaternion : Q * Q * Q * Q -> Q * Q * Q.

(** One operation, run with the given fuel for its loops. *)
Definition perform (fuel : nat) (op : Operation) : M unit :=
  match op with
  | Op_navigate_to args => _navigate_to remote find_unique_waypoint_id fuel args
  | Op_navigate_route args =>
      _navigate_route remote find_unique_waypoint_id fuel args
  | Op_navigate_to_anchor args =>
      _navigate_to_anchor remote euler_from_quaternion fuel args
  | Op_navigate_to_anchor_once args =>
      _navigate_to_anchor_once remote euler_from_quaternion fuel args ;; ret tt
  | Op_clear_graph => _clear_graph remote
  | Op_on_quit => _on_quit remote
  | Op_goal_callback x y yaw => goal_callback x y yaw ;; ret tt
  | Op_cancel_callback => cancel_callback ;; ret tt
  | Op_execute_callback =>
      execute_callback remote euler_from_quaternion fuel ;; ret tt
  end.

(** An execution: operations one after the other, each on the world the
    previous one left, whether it returned, raised or was cut short. *)
Fixpoint execution (ops : list (nat * Operation)) (w : World) : World :=
  match ops with
  | [] => w
  | (fuel, op) :: rest => execution rest (final_world (perform fuel op w))
  end.

End Executions.

(** A computation that, on a controller that started powered on, leaves
    that record alone and sends no power-off command. *)
Definition keeps_power {A} (c : M A) : Prop :=
  forall w, _started_powered_on (gni w) = true ->
    _started_powered_on (gni (final_world (c w))) = true /\
    power_offs (trace (final_world (c w))) = power_offs (trace w).

(** The handles of successive issuances are threaded: the first is [h],
    and each later one is the id the remote answered to the issuance
    before it ([j] is the index of the first issuance among the navigation
    commands). *)
Fixpoint threaded (remote : Remote) (j : nat) (h : option Z)
    (handles : list (option Z)) : Prop :=
  match handles with
  | [] => True
  | x :: rest =>
      x = h /\
      match navigate_script remote j with
      | Answer c => threaded remote (S j) (Some c) rest
      | Raises _ => rest = []
      end
  end.

(** ** Scripted robots for the examples *)

Module Scenario.

Definition answers {A} (l : list A) (rest : A) : nat -> Reply A :=
  fun n => Answer (nth n l rest).

Definition always {A} (a : A) : nat -> Reply A := fun _ => Answer a.

(** The robot is localized at waypoint [wp0], at the origin. *)
Definition here : LocalizationState := mkLoc "wp0" 0 0 0 (0, 0, 0, 1).

(** A robot whose motor state is observed as [power] says, whose
    navigation commands get the ids [ids] says, whose feedback follows
    [feedback] and then stays in progress, and whose task is cancelled when
    [cancel] says; every other call succeeds. *)
Definition robot (power : nat -> Reply MotorPowerState)
    (ids : nat -> Reply Z) (feedback : list NavStatus)
    (cancel : nat -> bool) : Remote :=
  mkRemote power (always tt) (always tt) (always here) ids
    (answers feedback STATUS_FOLLOWING_ROUTE) (always tt) (always tt)
    (fun _ => true) cancel.

(** Command ids 100, 101, ... *)
Definition fresh_ids : nat -> Reply Z := fun n => Answer (Z.of_nat n + 100)%Z.

Definition never : nat -> bool := fun _ => false.

(** The controller as [__init__] leaves it for a robot observed on or
    off. *)
Definition controller (started_on : bool) : GraphNavInterface :=
  mkGraphNavInterface 0 0 0 false started_on started_on 50 None [] [] [] []
    None.

Definition start (s : GraphNavInterface) (x y yaw : Q) : World :=
  mkWorld s (mkNavROS2SDK x y yaw) [] [].

(** Stand-ins for the two imported helpers. *)
Definition flat (q : Q * Q * Q * Q) : Q * Q * Q := (0, 0, 0).

Definition literal_id (token : string) (g : option Graph)
    (names : list (string * string)) : Reply (option string) :=
  Answer (Some token).

(** A robot that never comes on. *)
Definition robot_stays_off : Remote :=
  robot (always STATE_OFF) fresh_ids [] never.

(** A robot that comes on at its sixty-first observation. *)
Definition robot_slow_to_power : Remote :=
  robot (answers (repeat STATE_OFF 60) STATE_ON) fresh_ids [] never.

(** A robot found off by [__init__] and switched on by someone else
    before the next observation. *)
Definition robot_switched_on_by_operator : Remote :=
  robot (answers [STATE_OFF] STATE_ON) fresh_ids [STATUS_REACHED_GOAL] never.

(** A robot that is on and reports the given feedback. *)
Definition robot_on (feedback : list NavStatus) (cancel : nat -> bool)
    : Remote :=
  robot (always STATE_ON) fresh_ids feedback cancel.

(** A graph with three waypoints in a row. *)
Definition corridor : Graph :=
  mkGraph
    [mkWaypoint "a" "start" "sa"; mkWaypoint "b" "middle" "sb";
     mkWaypoint "c" "end" "sc"]
    [mkEdge (mkEdgeId "a" "b") ""; mkEdge (mkEdgeId "b" "c") ""]
    [].

(** Its adjacency mapping, from [to_waypoint] to [from_waypoint]s. *)
Definition corridor_edges : EdgeMap := [("b", ["a"]); ("c", ["b"])].

Definition controller_with_corridor : GraphNavInterface :=
  mkGraphNavInterface 0 0 0 false true true 50 (Some corridor) corridor_edges
    [("sa", "a"); ("sb", "b"); ("sc", "c")] []
    [("start", "a"); ("middle", "b"); ("end", "c")] None.

Definition world_with_corridor : World :=
  start controller_with_corridor 0 0 0.

(** A robot that is on and answers every navigation command with [-1]. *)
Definition robot_without_command_ids : Remote :=
  robot (always STATE_ON) (always (-1)%Z) [] never.

(** The action server, goal at (1, 2) with yaw 3, against a robot that
    reports a feedback script. *)
Definition task_run (feedback : list NavStatus) :=
  execute_callback (robot_on feedback never) flat 5
    (start (controller true) 1 2 3).

(** The to-waypoint loop against the same robot. *)
Definition waypoint_run (feedback : list NavStatus) :=
  _navigate_to_loop (robot_on feedback never) 5 "a" None
    (start (controller true) 0 0 0).

(** The route loop over one edge, the goal reached at the second poll. *)
Definition route_run :=
  _navigate_route_loop
    (robot_on [STATUS_FOLLOWING_ROUTE; STATUS_REACHED_GOAL] never) 5
    (mkRoute ["a"; "b"] [mkEdgeId "a" "b"])
    (start (controller true) 0 0 0).

(** Two single steps in a row, the goal not yet reached. *)
Definition two_steps : World :=
  execution (robot_on [] never) literal_id flat
    [(5%nat, Op_navigate_to_anchor_once [[1; 2; 3]]);
     (5%nat, Op_navigate_to_anchor_once [[1; 2; 3]])]
    (start (controller true) 0 0 0).

(** Construction with the robot off, the operator switches it on, then a
    one-waypoint route is navigated. *)
Definition operator_run : World :=
  execution robot_switched_on_by_operator literal_id flat
    [(5%nat, Op_navigate_route [["a"]])]
    (final_world
       (GraphNavInterface__init__ robot_switched_on_by_operator
          (start (controller false) 0 0 0))).

(** A first goal at (1, 2, yaw 3) is cancelled after one step; a second
    goal at (7, 8, yaw 9) then runs one step. *)
Definition cancelled_then_new_goal : World :=
  execution (robot_on [] (fun n => Nat.eqb n 1)) literal_id flat
    [(0%nat, Op_goal_callback 1 2 3); (5%nat, Op_execute_callback);
     (0%nat, Op_goal_callback 7 8 9); (1%nat, Op_execute_callback)]
    (start (controller true) 0 0 0).


End Scenario.

(** ** Graph upload, listing and initial localization

    The operations that load a recorded map from disk, hand it to the
    robot and localize on it.  They use the file system and four more
    remote calls; these are kept in a second log, beside the world of the
    navigation code, in the order the calls are made. *)

Module Maps.

(** The exceptions of this layer: those of the navigation code, and the
    ones raised by [open], by [ParseFromString] and by a dict lookup. *)
Inductive Failure :=
| Navigation_error (e : PyExn)
| FileNotFoundError (path : string)
| DecodeError
| KeyError (key : string)
| IndexError.

(** [except ResourceAlreadyClaimedError]. *)
Definition is_claimed (f : Failure) : bool :=
  match f with
  | Navigation_error e => is_ResourceAlreadyClaimedError e
  | _ => false
  end.

(** What [ParseFromString] makes of the bytes of a graph file: the graph,
    or an exception that leaves some partly filled message behind. *)
Inductive ParsedGraph :=
| Parsed (g : Graph)
| Malformed (partial : Graph).

(** [UploadGraphResponse]. *)
Record UploadGraphResponse := mkUploadGraphResponse
  { unknown_waypoint_snapshot_ids : list string;
    unknown_edge_snapshot_ids : list string }.

(** [SetLocalizationRequest.FiducialInit], as far as it is named. *)
Inductive FiducialInit := FIDUCIAL_INIT_NO_FIDUCIAL.

(** An angle given in degrees; the source passes it in radians, as
    [degrees * math.pi / 180.0]. *)
Inductive Angle := Degrees (d : Q).

(** File reads and the calls to the map services, with what is passed.
    A snapshot message is identified with the bytes it was parsed from;
    keywords left out of a call are [None]. *)
Inductive MapCall :=
| ReadFile (path : string)
| UploadGraph (graph : Graph) (generate_new_anchoring : bool)
| UploadWaypointSnapshot (snapshot : string)
| UploadEdgeSnapshot (snapshot : string)
| DownloadGraph
| SetLocalization (waypoint_id : string) (rotation_w : Q)
    (max_distance : option Q) (max_yaw : option Angle)
    (fiducial_init : option FiducialInit) (ko_tform_body : SE3Pose).

Inductive MapKind :=
| KRead | KUploadGraph | KUploadWaypointSnapshot | KUploadEdgeSnapshot
| KDownloadGraph | KSetLocalization.

Definition map_kind_of (c : MapCall) : MapKind :=
  match c with
  | ReadFile _ => KRead
  | UploadGraph _ _ => KUploadGraph
  | UploadWaypointSnapshot _ => KUploadWaypointSnapshot
  | UploadEdgeSnapshot _ => KUploadEdgeSnapshot
  | DownloadGraph => KDownloadGraph
  | SetLocalization _ _ _ _ _ _ => KSetLocalization
  end.

Definition MapKind_eqb (a b : MapKind) : bool :=
  match a, b with
  | KRead, KRead | KUploadGraph, KUploadGraph
  | KUploadWaypointSnapshot, KUploadWaypointSnapshot
  | KUploadEdgeSnapshot, KUploadEdgeSnapshot
  | KDownloadGraph, KDownloadGraph | KSetLocalization, KSetLocalization => true
  | _, _ => false
  end.

Definition is_map_kind (k : MapKind) (c : MapCall) : bool :=
  MapKind_eqb k (map_kind_of c).

(** Number of calls of a kind made so far. *)
Definition map_calls (k : MapKind) (log : list MapCall) : nat :=
  List.length (filter (is_map_kind k) log).
Arguments map_calls : simpl never.

(** What these operations print. *)
Inductive Line :=
| LineLoadingGraph
| LineLoadedGraph (waypoints : nat) (edges : list Edge)
| LineUploadingGraph
| LineUploaded (snapshot_id : string)
| LineBlank
| LineUploadCompleteNotLocalized
| LineEmptyGraph
| LineNoWaypointSpecified
| LineException (f : Failure)
| LineClientThrewError
| LineLeaseInUse
| LineReady.

(** The disk, the decoders of the message library, the map services and
    the helper that derives the name and edge tables from a graph. *)
Record Services := mkServices
  { disk : string -> option string;
    parse_graph : string -> ParsedGraph;
    parse_waypoint_snapshot : string -> option string;
    parse_edge_snapshot : string -> option string;
    upload_graph_script : nat -> Reply UploadGraphResponse;
    upload_waypoint_snapshot_script : nat -> Reply unit;
    upload_edge_snapshot_script : nat -> Reply unit;
    download_graph_script : nat -> Reply (option Graph);
    set_localization_script : nat -> Reply unit;
    odom_tform_body_script : nat -> SE3Pose;
    update_waypoints_and_edges :
      Graph -> string -> list (string * string) * EdgeMap }.

(** The world of the navigation code together with the upload path of the
    controller, the log of map calls and what these operations printed. *)
Record Session := mkSession
  { world : World;
    _upload_filepath : string;
    map_log : list MapCall;
    lines : list Line }.

Inductive Result (A : Type) :=
| Done (a : A) (s : Session)
| Failed (f : Failure) (s : Session)
| Unfinished (s : Session).
Arguments Failed {A} f s.
Arguments Unfinished {A} s.

Definition Act (A : Type) := Session -> Result A.

Definition done {A} (a : A) : Act A := fun s => Done a s.

Definition fail {A} (f : Failure) : Act A := fun s => Failed f s.

Definition and_then {A B} (c : Act A) (k : A -> Act B) : Act B :=
  fun s =>
    match c s with
    | Done a s' => k a s'
    | Failed f s' => Failed f s'
    | Unfinished s' => Unfinished s'
    end.

(** [try: c  except <handles> as e: h e]. *)
Definition try_catch {A} (c : Act A) (handles : Failure -> bool)
    (h : Failure -> Act A) : Act A :=
  fun s =>
    match c s with
    | Failed f s' => if handles f then h f s' else Failed f s'
    | r => r
    end.

Definition last_session {A} (r : Result A) : Session :=
  match r with Done _ s | Failed _ s | Unfinished s => s end.

Definition answer_of {A} (r : Result A) : option A :=
  match r with Done a _ => Some a | _ => None end.

(** A computation of the navigation code, run on the world of the
    session. *)
Definition lift {A} (c : M A) : Act A :=
  fun s =>
    match c (world s) with
    | Returns a w =>
        Done a (mkSession w (_upload_filepath s) (map_log s) (lines s))
    | Throws e w =>
        Failed (Navigation_error e)
          (mkSession w (_upload_filepath s) (map_log s) (lines s))
    | OutOfFuel w =>
        Unfinished (mkSession w (_upload_filepath s) (map_log s) (lines s))
    end.

Definition say (l : Line) : Act unit :=
  fun s =>
    Done tt (mkSession (world s) (_upload_filepath s) (map_log s)
               (lines s ++ [l])).

Definition record (c : MapCall) : Act unit :=
  fun s =>
    Done tt (mkSession (world s) (_upload_filepath s) (map_log s ++ [c])
               (lines s)).

(** A map service call answered from its script. *)
Definition map_call {A} (script : nat -> Reply A) (c : MapCall) : Act A :=
  fun s =>
    let s' :=
      mkSession (world s) (_upload_filepath s) (map_log s ++ [c]) (lines s) in
    match script (map_calls (map_kind_of c) (map_log s)) with
    | Answer a => Done a s'
    | Raises e => Failed (Navigation_error e) s'
    end.

(** [with open(path, 'rb') as f: f.read()]. *)
Definition read_file (disk : string -> option string) (path : string)
    : Act string :=
  fun s =>
    let s' :=
      mkSession (world s) (_upload_filepath s) (map_log s ++ [ReadFile path])
        (lines s) in
    match disk path with
    | Some data => Done data s'
    | None => Failed (FileNotFoundError path) s'
    end.

Definition update_self (f : GraphNavInterface -> GraphNavInterface) : Act unit :=
  lift (update_gni f).

Definition read_self {A} (f : GraphNavInterface -> A) : Act A :=
  lift (read_gni f).

(** Python dicts with string keys, in insertion order. *)
Fixpoint dict_get {V} (d : list (string * V)) (k : string) : option V :=
  match d with
  | [] => None
  | (k', v) :: rest => if k' =? k then Some v else dict_get rest k
  end.

Fixpoint dict_set {V} (d : list (string * V)) (k : string) (v : V)
    : list (string * V) :=
  match d with
  | [] => [(k, v)]
  | (k', v') :: rest =>
      if k' =? k then (k, v) :: rest else (k', v') :: dict_set rest k v
  end.

Definition set__current_graph (g : option Graph) (s : GraphNavInterface) :=
  mkGraphNavInterface (_robot_state_x s) (_robot_state_y s)
    (_robot_state_yaw s) (_flag_nav s) (_started_powered_on s) (_powered_on s)
    (_max_attempts_to_wait s) g (_current_edges s)
    (_current_waypoint_snapshots s) (_current_edge_snapshots s)
    (_current_annotation_name_to_wp_id s) (_seed_T_goal s).

Definition set__current_waypoint_snapshots (d : list (string * string))
    (s : GraphNavInterface) :=
  mkGraphNavInterface (_robot_state_x s) (_robot_state_y s)
    (_robot_state_yaw s) (_flag_nav s) (_started_powered_on s) (_powered_on s)
    (_max_attempts_to_wait s) (_current_graph s) (_current_edges s)
    d (_current_edge_snapshots s)
    (_current_annotation_name_to_wp_id s) (_seed_T_goal s).

Definition set__current_edge_snapshots (d : list (string * string))
    (s : GraphNavInterface) :=
  mkGraphNavInterface (_robot_state_x s) (_robot_state_y s)
    (_robot_state_yaw s) (_flag_nav s) (_started_powered_on s) (_powered_on s)
    (_max_attempts_to_wait s) (_current_graph s) (_current_edges s)
    (_current_waypoint_snapshots s) d
    (_current_annotation_name_to_wp_id s) (_seed_T_goal s).

Definition set__tables (names : list (string * string)) (edges : EdgeMap)
    (s : GraphNavInterface) :=
  mkGraphNavInterface (_robot_state_x s) (_robot_state_y s)
    (_robot_state_yaw s) (_flag_nav s) (_started_powered_on s) (_powered_on s)
    (_max_attempts_to_wait s) (_current_graph s) edges
    (_current_waypoint_snapshots s) (_current_edge_snapshots s)
    names (_seed_T_goal s).

End Maps.
Import Maps.

Notation "x <~ c ;;; k" := (and_then c (fun x => k))
  (at level 61, c at next level, right associativity).
Notation "c ;;; k" := (and_then c (fun _ => k))
  (at level 61, right associativity).

(** [len(edge.snapshot_id) == 0]. *)
Definition edge_snapshot_id_is_empty (edge : Edge) : bool :=
  Data.edge_snapshot_id edge =? "".

Section MapOperations.

Variable services : Services.
Variable remote : Remote.
Variable find_unique_waypoint_id :
  string -> option Graph -> list (string * string) -> Reply (option string).
Variable euler_from_quaternion : Q * Q * Q * Q -> Q * Q * Q.

Definition read_path : Act string := fun s => Done (_upload_filepath s) s.

(** [s[-1]]: the last character, if there is one. *)
Fixpoint last_char (s : string) : option string :=
  match s with
  | EmptyString => None
  | String c EmptyString => Some (String c EmptyString)
  | String _ rest => last_char rest
  end.

(** [s[:-1]]. *)
Fixpoint all_but_last (s : string) : string :=
  match s with
  | EmptyString => EmptyString
  | String c EmptyString => EmptyString
  | String c rest => String c (all_but_last rest)
  end.

(** The upload path as [__init__] stores it: one trailing slash is
    dropped; indexing the empty string raises. *)
Definition stored_upload_path (upload_path : string) : option string :=
  match last_char upload_path with
  | None => None
  | Some c =>
      if c =? "/" then Some (all_but_last upload_path)
      else Some upload_path
  end.

(** [GraphNavInterface.__init__] with its path argument. *)
Definition GraphNavInterface__init__path (upload_path : string) : Act unit :=
  lift (GraphNavInterface__init__ remote) ;;;
  match stored_upload_path upload_path with
  | None => fail IndexError
  | Some p =>
      fun s => Done tt (mkSession (world s) p (map_log s) (lines s))
  end.

(** The id a stored snapshot message carries. *)
Definition waypoint_snapshot_id (snapshot : string) : string :=
  match parse_waypoint_snapshot services snapshot with
  | Some id => id
  | None => ""
  end.

Definition edge_snapshot_id (snapshot : string) : string :=
  match parse_edge_snapshot services snapshot with
  | Some id => id
  | None => ""
  end.

(** [for waypoint in self._current_graph.waypoints:] of
    [_upload_graph_and_snapshots]. *)
Fixpoint load_waypoint_snapshots (waypoints : list Waypoint) : Act unit :=
  match waypoints with
  | [] => done tt
  | waypoint :: rest =>
      path <~ read_path ;;;
      data <~ read_file (disk services)
                (path ++ "/waypoint_snapshots/" ++ wp_snapshot_id waypoint)%string ;;;
      match parse_waypoint_snapshot services data with
      | None => fail DecodeError
      | Some id =>
          d <~ read_self _current_waypoint_snapshots ;;;
          update_self (set__current_waypoint_snapshots (dict_set d id data)) ;;;
          load_waypoint_snapshots rest
      end
  end.

(** [for edge in self._current_graph.edges:]; an edge without a snapshot
    id is passed over. *)
Fixpoint load_edge_snapshots (edges : list Edge) : Act unit :=
  match edges with
  | [] => done tt
  | edge :: rest =>
      if edge_snapshot_id_is_empty edge then load_edge_snapshots rest
      else
        path <~ read_path ;;;
        data <~ read_file (disk services)
                  (path ++ "/edge_snapshots/" ++ Data.edge_snapshot_id edge)%string ;;;
        match parse_edge_snapshot services data with
        | None => fail DecodeError
        | Some id =>
            d <~ read_self _current_edge_snapshots ;;;
            update_self (set__current_edge_snapshots (dict_set d id data)) ;;;
            load_edge_snapshots rest
        end
  end.

(** [for snapshot_id in response.unknown_waypoint_snapshot_ids:]. *)
Fixpoint upload_waypoint_snapshots (ids : list string) : Act unit :=
  match ids with
  | [] => done tt
  | snapshot_id :: rest =>
      d <~ read_self _current_waypoint_snapshots ;;;
      match dict_get d snapshot_id with
      | None => fail (KeyError snapshot_id)
      | Some waypoint_snapshot =>
          map_call (upload_waypoint_snapshot_script services)
            (UploadWaypointSnapshot waypoint_snapshot) ;;;
          say (LineUploaded (waypoint_snapshot_id waypoint_snapshot)) ;;;
          upload_waypoint_snapshots rest
      end
  end.

(** [for snapshot_id in response.unknown_edge_snapshot_ids:]. *)
Fixpoint upload_edge_snapshots (ids : list string) : Act unit :=
  match ids with
  | [] => done tt
  | snapshot_id :: rest =>
      d <~ read_self _current_edge_snapshots ;;;
      match dict_get d snapshot_id with
      | None => fail (KeyError snapshot_id)
      | Some edge_snapshot =>
          map_call (upload_edge_snapshot_script services)
            (UploadEdgeSnapshot edge_snapshot) ;;;
          say (LineUploaded (edge_snapshot_id edge_snapshot)) ;;;
          upload_edge_snapshots rest
      end
  end.

(** [not len(self._current_graph.anchoring.anchors)]. *)
Definition true_if_empty (g : Graph) : bool :=
  match anchors g with
  | [] => true
  | _ :: _ => false
  end.

(** [_upload_graph_and_snapshots]. *)
Definition _upload_graph_and_snapshots : Act unit :=
  say LineLoadingGraph ;;;
  path <~ read_path ;;;
  data <~ read_file (disk services) (path ++ "/graph")%string ;;;
  update_self (set__current_graph (Some (mkGraph [] [] []))) ;;;
  match parse_graph services data with
  | Malformed partial =>
      update_self (set__current_graph (Some partial)) ;;;
      fail DecodeError
  | Parsed g =>
      update_self (set__current_graph (Some g)) ;;;
      say (LineLoadedGraph (List.length (waypoints g)) (edges g)) ;;;
      load_waypoint_snapshots (waypoints g) ;;;
      load_edge_snapshots (edges g) ;;;
      say LineUploadingGraph ;;;
      response <~ map_call (upload_graph_script services)
                    (UploadGraph g (true_if_empty g)) ;;;
      upload_waypoint_snapshots (unknown_waypoint_snapshot_ids response) ;;;
      upload_edge_snapshots (unknown_edge_snapshot_ids response) ;;;
      localization_state <~
        lift (call (localization_script remote) EvGetLocalizationState) ;;;
      if loc_waypoint_id localization_state =? "" then
        say LineBlank ;;; say LineUploadCompleteNotLocalized
      else done tt
  end.

(** [_list_graph_waypoint_and_edge_ids]. *)
Definition _list_graph_waypoint_and_edge_ids : Act unit :=
  graph <~ map_call (download_graph_script services) DownloadGraph ;;;
  match graph with
  | None => say LineEmptyGraph
  | Some g =>
      update_self (set__current_graph (Some g)) ;;;
      localization_state <~
        lift (call (localization_script remote) EvGetLocalizationState) ;;;
      update_self
        (set__tables
           (fst (update_waypoints_and_edges services g
                   (loc_waypoint_id localization_state)))
           (snd (update_waypoints_and_edges services g
                   (loc_waypoint_id localization_state))))
  end.

(** [get_robot_state()] read for its kinematic part:
    [get_odom_tform_body(...).to_proto()]. *)
Definition current_odom_tform_body : Act SE3Pose :=
  fun s =>
    (lift (call (robot_state_script remote) EvGetRobotState) ;;;
     done (odom_tform_body_script services
             (calls KRobotState (trace (world s))))) s.

(** [_set_initial_localization_fiducial]: the guess is an empty
    localization message. *)
Definition _set_initial_localization_fiducial : Act unit :=
  odom <~ current_odom_tform_body ;;;
  map_call (set_localization_script services)
    (SetLocalization "" 0 None None None odom).

(** [_set_initial_localization_waypoint]. *)
Definition _set_initial_localization_waypoint (args : list (list string))
    : Act unit :=
  match args with
  | [] => say LineNoWaypointSpecified
  | [] :: _ => fail IndexError
  | (token :: _) :: _ =>
      g <~ read_self _current_graph ;;;
      names <~ read_self _current_annotation_name_to_wp_id ;;;
      match find_unique_waypoint_id token g names with
      | Raises e => fail (Navigation_error e)
      | Answer destination_waypoint =>
          if negb (truthy_id destination_waypoint) then done tt
          else
            odom <~ current_odom_tform_body ;;;
            map_call (set_localization_script services)
              (SetLocalization
                 (match destination_waypoint with Some id => id | None => "" end)
                 1 (Some (1 # 5)) (Some (Degrees 20))
                 (Some FIDUCIAL_INIT_NO_FIDUCIAL) odom)
      end
  end.

(** [run_next_position]: the upload may fail, the navigation goes on. *)
Definition run_next_position (fuel : nat) (x y yaw : Q) : Act unit :=
  try_catch _upload_graph_and_snapshots (fun _ => true)
    (fun e => say (LineException e)) ;;;
  lift (_navigate_to_anchor remote euler_from_quaternion fuel [[x; y; yaw]]).

(** [with LeaseKeepAlive(...)] around operations of this layer. *)
Definition with_lease {A} (body : Act A) : Act A :=
  fun s =>
    match lift (call (lease_script remote) EvLeaseAcquire) s with
    | Done _ s1 =>
        match body s1 with
        | Done a s2 => (lift (emit EvLeaseReturn) ;;; done a) s2
        | Failed f s2 => (lift (emit EvLeaseReturn) ;;; fail f) s2
        | Unfinished s2 => Unfinished s2
        end
    | Failed f s1 => Failed f s1
    | Unfinished s1 => Unfinished s1
    end.

(** [try: c  except Exception as e: print(e); return False], followed by
    the rest of the block when [c] went through. *)
Definition or_give_up (c : Act unit) (rest : Act bool) : Act bool :=
  went_through <~
    try_catch (c ;;; done true) (fun _ => true)
      (fun e => say (LineException e) ;;; done false) ;;;
  if went_through then rest else done false.

(** [NavROS2SDK.run] up to the line that prints "Ready!", after which it
    hands over to the scheduler: [False] where the source returns [False],
    [True] where it goes on to spin. *)
Definition NavROS2SDK_run_until_ready : Act bool :=
  ready <~
    try_catch
      (with_lease
         (or_give_up _upload_graph_and_snapshots
            (or_give_up _list_graph_waypoint_and_edge_ids
               (or_give_up (_set_initial_localization_waypoint [["rp"]])
                  (done true)))))
      is_claimed
      (fun _ => say LineLeaseInUse ;;; done false) ;;;
  if ready then say LineReady ;;; done true else done false.

(** [NavROS2SDK.run_path]. *)
Definition run_path (fuel : nat) : Act bool :=
  try_catch
    (with_lease
       (try_catch
          (run_next_position fuel (167 # 100) 0 (31 # 10) ;;;
           run_next_position fuel 2 (-2) 0 ;;;
           run_next_position fuel (167 # 100) 0 (31 # 10) ;;;
           done true)
          (fun _ => true)
          (fun exc =>
             say (LineException exc) ;;; say LineClientThrewError ;;;
             done false)))
    is_claimed
    (fun _ => say LineLeaseInUse ;;; done false).

End MapOperations.

(** ** Further vocabulary and scenarios *)

(** A computation that adds no call selected by [P] to the trace, however
    it ends. *)
Definition never_emits (P : Event -> bool) {A} (c : M A) : Prop :=
  forall w,
    filter P (trace (final_world (c w))) = filter P (trace w).

Definition is_power_off (e : Event) : bool := is_kind KPowerOff e.

Definition is_power_on (e : Event) : bool := is_kind KPowerOn e.

Definition is_navigation (e : Event) : bool := is_kind KNavigate e.

Definition is_goal_mark (e : Event) : bool :=
  match e with
  | EvGoalSucceed | EvGoalCanceled => true
  | _ => false
  end.

Definition is_publish (e : Event) : bool :=
  match e with
  | EvPublishFeedback _ _ _ => true
  | _ => false
  end.

Definition is_lease (e : Event) : bool :=
  match e with
  | EvLeaseAcquire | EvLeaseReturn => true
  | _ => false
  end.

(** A computation that leaves the world as it found it when it returns or
    raises. *)
Definition pure_in_world {A} (c : M A) : Prop :=
  forall w, final_world (c w) = w.

(** The id a token resolves to, where the helper finds one that is not
    empty. *)
Definition resolves_to
    (find :
       string -> option Graph -> list (string * string) -> Reply (option string))
    (s : GraphNavInterface) (token id : string) : Prop :=
  find token (_current_graph s) (_current_annotation_name_to_wp_id s) =
    Answer (Some id) /\ id <> "".

(** The calls and marks of the host side: lease, scheduler, goal handle. *)
Definition is_host (e : Event) : bool :=
  match e with
  | EvLeaseAcquire | EvLeaseReturn | EvRclpyOk | EvIsCancelRequested
  | EvGoalCanceled | EvGoalSucceed | EvPublishFeedback _ _ _ => true
  | _ => false
  end.

(** How a run of the action server relates its mark on the goal handle to
    what it returns: at most one mark is added to those of [before], and the
    successful result goes with the mark "succeeded" and with no other. *)
Definition marks_agree (before : list Event)
    (r : Outcome (option NavigationResult)) : Prop :=
  exists marks,
    goal_marks (trace (final_world r)) = goal_marks before ++ marks /\
    (marks = [] \/ marks = [EvGoalCanceled] \/ marks = [EvGoalSucceed]) /\
    (marks = [EvGoalSucceed] <-> returned r = Some (Some (mkResult true))).

Definition is_sleep (e : Event) : bool :=
  match e with
  | EvSleep _ => true
  | _ => false
  end.

(** The remote never reports the robot as localized. *)
Definition never_localized (remote : Remote) : Prop :=
  forall n, exists l,
    localization_script remote n = Answer l /\ loc_waypoint_id l = "".

Module Scenario2.

Import Scenario.


(** A robot that is on and refuses every navigation command. *)
Definition robot_refusing : Remote :=
  robot (always STATE_ON) (fun _ => Raises ResponseError) [] never.

(** A robot that is on but not localized. *)
Definition robot_not_localized : Remote :=
  mkRemote (always STATE_ON) (always tt) (always tt)
    (always (mkLoc "" 0 0 0 (0, 0, 0, 1))) fresh_ids
    (answers [] STATUS_FOLLOWING_ROUTE) (always tt) (always tt)
    (fun _ => true) never.

(** A robot whose lease is held by someone else. *)
Definition robot_leased_elsewhere : Remote :=
  mkRemote (always STATE_ON) (always tt) (always tt) (always here) fresh_ids
    (answers [] STATUS_FOLLOWING_ROUTE) (always tt)
    (fun _ => Raises ResourceAlreadyClaimedError) (fun _ => true) never.

(** A helper that knows no waypoint. *)
Definition knows_nothing (token : string) (g : option Graph)
    (names : list (string * string)) : Reply (option string) :=
  Answer None.

(** A helper that knows the waypoints of the corridor by id. *)
Definition knows_corridor (token : string) (g : option Graph)
    (names : list (string * string)) : Reply (option string) :=
  if existsb (String.eqb token) ["a"; "b"; "c"] then Answer (Some token)
  else Answer None.

End Scenario2.

(** ** Vocabulary of the map operations *)

(** The bytes stored under an id. *)
Definition stored_bytes (d : list (string * string)) (id : string) : string :=
  match dict_get d id with
  | Some b => b
  | None => ""
  end.

(** The session after more map calls and more printed lines. *)
Definition logged (s : Session) (calls : list MapCall) (ls : list Line)
    : Session :=
  mkSession (world s) (_upload_filepath s) (map_log s ++ calls) (lines s ++ ls).
Arguments logged : simpl never.

(** The snapshot file of a waypoint is on the disk and decodes. *)
Definition waypoint_file_ok (services : Services) (path : string)
    (w : Waypoint) : Prop :=
  exists data id,
    disk services (path ++ "/waypoint_snapshots/" ++ wp_snapshot_id w)%string =
      Some data /\
    parse_waypoint_snapshot services data = Some id.

(** The file a waypoint snapshot is read from. *)
Definition waypoint_snapshot_path (path : string) (w : Waypoint) : string :=
  (path ++ "/waypoint_snapshots/" ++ wp_snapshot_id w)%string.

(** What a load of waypoint snapshots leaves, seen from the session [s] it
    started in: only the snapshot store of the controller and the log of
    map calls have changed, the log by the reads [reads]. *)
Definition loaded_from (s s' : Session) (reads : list MapCall) : Prop :=
  map_log s' = map_log s ++ reads /\
  lines s' = lines s /\
  _upload_filepath s' = _upload_filepath s /\
  trace (world s') = trace (world s) /\
  gni (world s') =
    set__current_waypoint_snapshots
      (_current_waypoint_snapshots (gni (world s'))) (gni (world s)) /\
  (forall id,
     dict_get (_current_waypoint_snapshots (gni (world s))) id <> None ->
     dict_get (_current_waypoint_snapshots (gni (world s'))) id <> None).

(** Every stored waypoint snapshot is filed under the id it carries. *)
Definition filed_under_own_id (services : Services)
    (d : list (string * string)) : Prop :=
  forall id data,
    dict_get d id = Some data ->
    parse_waypoint_snapshot services data = Some id.

(** The reads a load of the snapshots of [ws] makes. *)
Definition snapshot_reads (path : string) (ws : list Waypoint) : list MapCall :=
  map (fun w => ReadFile (waypoint_snapshot_path path w)) ws.

(** The snapshot of a waypoint is in the store of the session. *)
Definition snapshot_held (services : Services) (path : string) (s : Session)
    (w : Waypoint) : Prop :=
  exists data id,
    disk services (waypoint_snapshot_path path w) = Some data /\
    parse_waypoint_snapshot services data = Some id /\
    dict_get (_current_waypoint_snapshots (gni (world s))) id <> None.

Definition is_read (c : MapCall) : bool := is_map_kind KRead c.

Definition is_snapshot_upload (c : MapCall) : bool :=
  is_map_kind KUploadWaypointSnapshot c || is_map_kind KUploadEdgeSnapshot c.

(** A computation that, however it ends, adds only calls selected by [P]
    to the log of map calls and leaves the cached graph as it found it. *)
Definition snapshot_phase (P : MapCall -> bool) {A} (c : Act A) : Prop :=
  forall s, exists calls,
    map_log (last_session (c s)) = map_log s ++ calls /\
    forallb P calls = true /\
    _current_graph (gni (world (last_session (c s)))) =
      _current_graph (gni (world s)).

(** The map calls between the sessions [s] and [s']: file reads, then at
    most one upload of a graph, then uploads of snapshots.  The graph
    uploaded is the one decoded from the graph file, it is the cached graph
    of [s'], and a new anchoring is asked for exactly when it has no
    anchors. *)
Definition reads_then_upload (services : Services) (s s' : Session) : Prop :=
  exists reads,
    forallb is_read reads = true /\
    (map_log s' = map_log s ++ reads \/
     exists data g sent,
       disk services (_upload_filepath s ++ "/graph")%string = Some data /\
       parse_graph services data = Parsed g /\
       _current_graph (gni (world s')) = Some g /\
       map_log s' =
         map_log s ++ reads ++ UploadGraph g (true_if_empty g) :: sent /\
       forallb is_snapshot_upload sent = true).

(** [after] is [before] with more entries at its end, all selected by [P]. *)
Definition grows_by {X} (P : X -> bool) (before after : list X) : Prop :=
  exists added, after = before ++ added /\ forallb P added = true.

(** A computation that always comes to an end and, however it ends, adds
    only map calls selected by [P], printed lines selected by [Q] and
    events selected by [R]. *)
Definition confined (P : MapCall -> bool) (Q : Line -> bool)
    (R : Event -> bool) {A} (c : Act A) : Prop :=
  forall s,
    grows_by P (map_log s) (map_log (last_session (c s))) /\
    grows_by Q (lines s) (lines (last_session (c s))) /\
    grows_by R (trace (world s)) (trace (world (last_session (c s)))) /\
    (forall s', c s <> Unfinished s').

(** A computation that returns, whatever the session. *)
Definition always_done {A} (c : Act A) : Prop :=
  forall s, exists a s', c s = Done a s'.

Definition not_set_localization (c : MapCall) : bool :=
  negb (is_map_kind KSetLocalization c).

Definition not_ready (l : Line) : bool :=
  match l with
  | LineReady => false
  | _ => true
  end.

Definition not_lease (e : Event) : bool := negb (is_lease e).

Definition any {X} (x : X) : bool := true.

(** The helper does not resolve the token to a waypoint id, whatever the
    graph and the names. *)
Definition unresolved
    (find :
       string -> option Graph -> list (string * string) -> Reply (option string))
    (token : string) : Prop :=
  forall g names,
    match find token g names with
    | Answer id => truthy_id id = false
    | Raises _ => True
    end.

(** The session after one more event of the navigation layer. *)
Definition with_event (s : Session) (e : Event) : Session :=
  mkSession
    (mkWorld (gni (world s)) (node (world s)) (trace (world s) ++ [e])
       (stdout (world s)))
    (_upload_filepath s) (map_log s) (lines s).

(** The session with its controller changed by [f]. *)
Definition with_self (s : Session)
    (f : GraphNavInterface -> GraphNavInterface) : Session :=
  mkSession
    (mkWorld (f (gni (world s))) (node (world s)) (trace (world s))
       (stdout (world s)))
    (_upload_filepath s) (map_log s) (lines s).

(** The localization request [_set_initial_localization_waypoint] makes
    for a waypoint id: identity rotation, search within 0.2 m and 20
    degrees, no fiducial, from the body pose [odom]. *)
Definition waypoint_localization_request (id : string) (odom : SE3Pose)
    : MapCall :=
  SetLocalization id 1 (Some (1 # 5)) (Some (Degrees 20))
    (Some FIDUCIAL_INIT_NO_FIDUCIAL) odom.

(** The file an edge snapshot is read from. *)
Definition edge_snapshot_path (path : string) (e : Edge) : string :=
  (path ++ "/edge_snapshots/" ++ Data.edge_snapshot_id e)%string.

(** The snapshot file of an edge is on the disk and decodes. *)
Definition edge_file_ok (services : Services) (path : string) (e : Edge)
    : Prop :=
  exists data id,
    disk services (edge_snapshot_path path e) = Some data /\
    parse_edge_snapshot services data = Some id.

(** The edges that have a snapshot. *)
Definition edges_with_snapshot (es : list Edge) : list Edge :=
  filter (fun e => negb (edge_snapshot_id_is_empty e)) es.

(** What a load of edge snapshots leaves, seen from the session [s] it
    started in: only the edge snapshot store of the controller and the log
    of map calls have changed, the log by the reads [reads]. *)
Definition edges_loaded_from (s s' : Session) (reads : list MapCall) : Prop :=
  map_log s' = map_log s ++ reads /\
  lines s' = lines s /\
  _upload_filepath s' = _upload_filepath s /\
  trace (world s') = trace (world s) /\
  gni (world s') =
    set__current_edge_snapshots
      (_current_edge_snapshots (gni (world s'))) (gni (world s)).

(** The session a position command starts from after the upload attempt
    that ended as [r]: the one the upload left, with the exception printed
    if it raised. *)
Definition after_upload_attempt (r : Result unit) : Session :=
  match r with
  | Failed f s1 =>
      mkSession (world s1) (_upload_filepath s1) (map_log s1)
        (lines s1 ++ [LineException f])
  | Done _ s1 | Unfinished s1 => s1
  end.

Module Scenario3.

Import Scenario.

(** A recorded map of the corridor a - b - c: three waypoint snapshots,
    one edge snapshot (the edge b - c has none), no anchors. *)
Definition recorded_corridor : Graph :=
  mkGraph
    [mkWaypoint "a" "start" "sa"; mkWaypoint "b" "middle" "sb";
     mkWaypoint "c" "end" "sc"]
    [mkEdge (mkEdgeId "a" "b") "eab"; mkEdge (mkEdgeId "b" "c") ""]
    [].

(** The files under [/maps], by path. *)
Definition map_files : list (string * string) :=
  [("/maps/graph", "graph-bytes");
   ("/maps/waypoint_snapshots/sa", "bytes-sa");
   ("/maps/waypoint_snapshots/sb", "bytes-sb");
   ("/maps/waypoint_snapshots/sc", "bytes-sc");
   ("/maps/edge_snapshots/eab", "bytes-eab")].

(** The id each snapshot file decodes to. *)
Definition snapshot_ids : list (string * string) :=
  [("bytes-sa", "sa"); ("bytes-sb", "sb"); ("bytes-sc", "sc");
   ("bytes-eab", "eab")].

Definition decode_graph (data : string) : ParsedGraph :=
  if data =? "graph-bytes" then Parsed recorded_corridor
  else Malformed (mkGraph [] [] []).

Definition tables_of (g : Graph) (localization_id : string)
    : list (string * string) * EdgeMap :=
  (map (fun w => (wp_annotation_name w, wp_id w)) (waypoints g),
   map (fun e => (to_waypoint (edge_id e), [from_waypoint (edge_id e)]))
     (edges g)).

(** Services over a disk, with a robot that misses the given snapshots
    and holds the given graph. *)
Definition services_with (files : list (string * string))
    (missing_waypoints missing_edges : list string) (held : option Graph)
    : Services :=
  mkServices (dict_get files) decode_graph (dict_get snapshot_ids)
    (dict_get snapshot_ids)
    (always (mkUploadGraphResponse missing_waypoints missing_edges))
    (always tt) (always tt) (always held) (always tt)
    (fun _ => mkSE3Pose 0 0 0 Quat_identity) tables_of.

(** The robot lacks the snapshots of b and of the edge a - b. *)
Definition map_services : Services :=
  services_with map_files ["sb"] ["eab"] (Some recorded_corridor).

(** A fresh controller with upload path [/maps], before any upload. *)
Definition fresh_session : Session :=
  mkSession (start (controller true) 0 0 0) "/maps" [] [].

(** The session after the snapshots of the map have been loaded. *)
Definition loaded_session : Session :=
  mkSession
    (start
       (mkGraphNavInterface 0 0 0 false true true 50 (Some recorded_corridor)
          [] [("sa", "bytes-sa"); ("sb", "bytes-sb"); ("sc", "bytes-sc")]
          [("eab", "bytes-eab")] [] None)
       0 0 0)
    "/maps" [] [].

(** The disk without the snapshot of waypoint b. *)
Definition services_missing_b : Services :=
  services_with
    [("/maps/graph", "graph-bytes");
     ("/maps/waypoint_snapshots/sa", "bytes-sa");
     ("/maps/waypoint_snapshots/sc", "bytes-sc");
     ("/maps/edge_snapshots/eab", "bytes-eab")]
    ["sb"] ["eab"] (Some recorded_corridor).

(** No map on the disk, and none on the robot. *)
Definition services_without_map : Services :=
  services_with [] [] [] None.

End Scenario3.

(** ** Properties of route matching *)

Lemma _match_edge_from_sym : forall edge_to_id froms a b,
  _match_edge_from edge_to_id froms a b = _match_edge_from edge_to_id froms b a.
Proof.
  intros t froms a b; induction froms as [|f froms IH]; simpl; [reflexivity|].
  destruct (String.eqb_spec a t), (String.eqb_spec b f),
    (String.eqb_spec b t), (String.eqb_spec a f);
    simpl; subst; auto.
Qed.

Lemma _match_edge_from_sound : forall t froms a b e,
  _match_edge_from t froms a b = Some e ->
  to_waypoint e = t /\ In (from_waypoint e) froms /\ joins e a b.
Proof.
  intros t froms a b e; induction froms as [|f froms IH]; simpl; [discriminate|].
  destruct (String.eqb_spec a t), (String.eqb_spec b f); simpl.
  1: { intros H; inversion H; subst; simpl; unfold joins; simpl; auto. }
  all: destruct (String.eqb_spec b t), (String.eqb_spec a f); simpl;
    try (intros H; inversion H; subst; simpl; unfold joins; simpl; now auto);
    intros H; destruct (IH H) as (H1 & H2 & H3); auto.
Qed.

Lemma _match_edge_from_complete : forall t froms a b f,
  In f froms -> (a = t /\ b = f) \/ (b = t /\ a = f) ->
  _match_edge_from t froms a b <> None.
Proof.
  intros t froms a b f; induction froms as [|f' froms IH]; simpl; [tauto|].
  intros [->|Hin] Hab.
  - destruct Hab as [[-> ->]|[-> ->]].
    + rewrite !String.eqb_refl; simpl; discriminate.
    + rewrite !String.eqb_refl; simpl.
      destruct ((f =? t) && (t =? f)); discriminate.
  - destruct ((a =? t) && (b =? f')); [discriminate|].
    destruct ((b =? t) && (a =? f')); [discriminate|]. auto.
Qed.

Lemma _match_edge_sym : forall current_edges a b,
  _match_edge current_edges a b = _match_edge current_edges b a.
Proof.
  intros E a b; induction E as [|[t froms] E IH]; simpl; [reflexivity|].
  rewrite (_match_edge_from_sym t froms a b), IH; reflexivity.
Qed.

Lemma _match_edge_sound : forall current_edges a b e,
  _match_edge current_edges a b = Some e ->
  recorded current_edges e /\ joins e a b.
Proof.
  intros E a b e; induction E as [|[t froms] E IH]; simpl; [discriminate|].
  destruct (_match_edge_from t froms a b) as [e'|] eqn:Hf.
  - intros H; inversion H; subst e'.
    destruct (_match_edge_from_sound _ _ _ _ Hf) as (H1 & H2 & H3).
    split; [exists froms; rewrite H1; simpl; auto | exact H3].
  - intros H; destruct (IH H) as [[froms' [H1 H2]] H3].
    split; [exists froms'; simpl; auto | exact H3].
Qed.

Lemma _match_edge_complete : forall current_edges a b e,
  recorded current_edges e -> joins e a b ->
  _match_edge current_edges a b <> None.
Proof.
  intros E a b e [froms [Hin Hf]] Hj; induction E as [|[t fs] E IH];
    simpl in *; [tauto|].
  destruct (_match_edge_from t fs a b) eqn:Hm; [discriminate|].
  destruct Hin as [Heq|Hin]; [|auto].
  inversion Heq; subst t fs. exfalso.
  apply (@_match_edge_from_complete (to_waypoint e) froms a b (from_waypoint e));
    auto.
  destruct Hj as [[<- <-]|[<- <-]]; auto.
Qed.

(** C9. findEdge is symmetric in its waypoint arguments: for every
    adjacency mapping and every two waypoint ids the answer for (A, B) is
    the answer for (B, A).  An answer is an edge recorded in the mapping,
    with the direction it was recorded in, whose endpoints are the two ids
    in either order; and whenever such a recorded edge exists, an answer is
    given. *)
Theorem findEdge_symmetric : forall (adj : EdgeMap) (A B : string),
  _match_edge adj A B = _match_edge adj B A /\
  (forall e, _match_edge adj A B = Some e -> recorded adj e /\ joins e A B) /\
  (forall e, recorded adj e -> joins e A B -> _match_edge adj A B <> None).
Proof.
  intros adj A B; split; [apply _match_edge_sym|split].
  - intros e; apply _match_edge_sound.
  - intros e; apply _match_edge_complete.
Qed.

Lemma _navigate_route_edges_all : forall E wps acc,
  snd (_navigate_route_edges E wps acc) = None <->
  Forall (has_edge E) (consecutive_pairs wps).
Proof.
  intros E wps; induction wps as [|a rest IH]; intros acc; simpl.
  - split; auto.
  - destruct rest as [|b rest'].
    + simpl; split; auto.
    + destruct (_match_edge E a b) as [e|] eqn:Hm.
      * rewrite IH. split; intros H.
        -- constructor; [unfold has_edge; simpl; congruence | exact H].
        -- inversion H; assumption.
      * simpl; split; [discriminate|].
        intros H; inversion H as [|? ? Hab _]; subst.
        unfold has_edge in Hab; simpl in Hab; congruence.
Qed.

Lemma _navigate_route_edges_found : forall E wps acc,
  snd (_navigate_route_edges E wps acc) = None ->
  map Some (fst (_navigate_route_edges E wps acc)) =
  map Some acc ++
  map (fun p => _match_edge E (fst p) (snd p)) (consecutive_pairs wps).
Proof.
  intros E wps; induction wps as [|a rest IH]; intros acc; simpl.
  - rewrite app_nil_r; reflexivity.
  - destruct rest as [|b rest'].
    + simpl; rewrite app_nil_r; reflexivity.
    + destruct (_match_edge E a b) as [e|] eqn:Hm.
      * intros H; rewrite (IH _ H), map_app, <- app_assoc; simpl.
        rewrite Hm; reflexivity.
      * simpl; discriminate.
Qed.

Lemma _navigate_route_edges_first : forall E wps acc a b,
  snd (_navigate_route_edges E wps acc) = Some (a, b) ->
  exists pre post,
    consecutive_pairs wps = pre ++ (a, b) :: post /\
    Forall (has_edge E) pre /\ ~ has_edge E (a, b).
Proof.
  intros E wps; induction wps as [|x rest IH]; intros acc a b; simpl.
  - discriminate.
  - destruct rest as [|y rest'].
    + simpl; discriminate.
    + destruct (_match_edge E x y) as [e|] eqn:Hm.
      * intros H; destruct (IH _ _ _ H) as (pre & post & Hp & Hall & Hno).
        exists ((x, y) :: pre), post; rewrite Hp.
        split; [reflexivity|split; [|exact Hno]].
        constructor; [unfold has_edge; simpl; congruence | exact Hall].
      * simpl; intros H; inversion H; subst.
        exists [], (consecutive_pairs (b :: rest')).
        split; [reflexivity|split; [constructor|]].
        unfold has_edge; simpl; intros Hc; apply Hc; exact Hm.
Qed.

(** C8. buildRoute over a list of waypoint ids succeeds if and only if
    every consecutive pair has a matching edge, and then carries the edge of
    each of the N-1 pairs, in order.  When it fails, the pair it names is
    the first pair without an edge (every pair before it has one); the
    navigate-route operation then returns with the two messages printed and
    nothing else done: no route, no call in the trace (so no navigation and
    no power command), the object unchanged. *)
Theorem buildRoute_first_unmatched_pair :
  forall (remote : Remote) (fuel : nat) (w : World) (waypoint_ids : list string),
    let E := _current_edges (gni w) in
    let r := _navigate_route_edges E waypoint_ids [] in
    (snd r = None <-> Forall (has_edge E) (consecutive_pairs waypoint_ids)) /\
    (snd r = None ->
       map Some (fst r) =
       map (fun p => _match_edge E (fst p) (snd p))
         (consecutive_pairs waypoint_ids)) /\
    (forall a b, snd r = Some (a, b) ->
       (exists pre post,
          consecutive_pairs waypoint_ids = pre ++ (a, b) :: post /\
          Forall (has_edge E) pre /\ ~ has_edge E (a, b)) /\
       _navigate_route_ids remote fuel waypoint_ids w =
       Returns tt
         (mkWorld (gni w) (node w) (trace w)
            (stdout w ++ [MsgFailedToFindEdge a b; MsgListTheGraph]))).
Proof.
  intros remote fuel w wps E r; split; [|split].
  - apply _navigate_route_edges_all.
  - intros H; apply (_navigate_route_edges_found E wps [] H).
  - intros a b H; split.
    + apply (_navigate_route_edges_first E wps [] H).
    + unfold _navigate_route_ids, bind, read_gni.
      fold E; fold r. destruct r as [l o]; simpl in H; subst o.
      unfold print; simpl. rewrite <- app_assoc; reflexivity.
Qed.

(** ** Properties of the poll loop *)

Lemma calls_app : forall k t1 t2,
  calls k (t1 ++ t2) = (calls k t1 + calls k t2)%nat.
Proof.
  intros; unfold calls; rewrite filter_app, length_app; reflexivity.
Qed.

Lemma calls_nil : forall k, calls k [] = 0%nat.
Proof. reflexivity. Qed.

Lemma calls_cons : forall k e t,
  calls k (e :: t) = ((if is_kind k e then 1 else 0) + calls k t)%nat.
Proof.
  intros; unfold calls; simpl; destruct (is_kind k e); reflexivity.
Qed.

(** Counts the calls of a kind in a trace extended by known events. *)
Ltac count_calls :=
  rewrite ?calls_app, ?calls_cons, ?calls_nil;
  cbn [is_kind Kind_eqb kind_of Nat.add];
  rewrite ?Nat.add_0_r.

Lemma after_nil : forall w, after w [] [] = w.
Proof.
  intros [g n t o]; unfold after; simpl; rewrite !app_nil_r; reflexivity.
Qed.

Lemma after_after : forall w e1 m1 e2 m2,
  after (after w e1 m1) e2 m2 = after w (e1 ++ e2) (m1 ++ m2).
Proof.
  intros; unfold after; simpl; rewrite !app_assoc; reflexivity.
Qed.

Lemma call_answer : forall A (script : nat -> Reply A) e w a,
  script (calls (kind_of e) (trace w)) = Answer a ->
  call script e w = Returns a (after w [e] []).
Proof.
  intros A script e w a H; unfold call, after; rewrite H, app_nil_r.
  reflexivity.
Qed.


Lemma print_after : forall m w, print m w = Returns tt (after w [] [m]).
Proof. intros; unfold print, after; rewrite app_nil_r; reflexivity. Qed.

Lemma emit_after : forall e w, emit e w = Returns tt (after w [e] []).
Proof. intros; unfold emit, after; rewrite app_nil_r; reflexivity. Qed.

(** Rewrites the next scripted call with its answer [H]. *)
Ltac answer H :=
  erewrite call_answer
    by (unfold after; cbn [kind_of trace]; count_calls; exact H).





Lemma goal_marks_app : forall t1 t2,
  goal_marks (t1 ++ t2) = goal_marks t1 ++ goal_marks t2.
Proof. intros; unfold goal_marks; apply filter_app. Qed.



Lemma _navigate_route_loop_no_command : forall remote fuel route w,
  navigate_script remote (calls KNavigate (trace w)) = Answer (-1)%Z ->
  _navigate_route_loop remote (S fuel) route w =
  _navigate_route_loop remote fuel route
    (after w [EvNavigateRoute route 1 None; EvSleep (1 # 2)] []).
Proof.
  intros remote fuel route w H.
  cbn [_navigate_route_loop]. unfold bind at 1. answer H.
  unfold bind at 1. unfold sleep; rewrite emit_after, after_after.
  unfold bind at 1. unfold _check_success; simpl. reflexivity.
Qed.

(** C2 (as the code has it). The status check recognises a missing command
    by the value -1, its default.  For that value it answers False at once:
    not finished, nothing changed, no feedback call made; a loop whose
    command came back as -1 therefore goes on to its next iteration.  The
    handle None, which the loops start from, is not recognised: the feedback
    call is made with it. *)
Theorem check_success_without_command : forall (remote : Remote) (w : World),
  _check_success remote (Some (-1)%Z) w = Returns false w /\
  trace (final_world (_check_success remote None w)) =
    trace w ++ [EvNavigationFeedback None] /\
  (forall fuel route,
     navigate_script remote (calls KNavigate (trace w)) = Answer (-1)%Z ->
     _navigate_route_loop remote (S fuel) route w =
     _navigate_route_loop remote fuel route
       (after w [EvNavigateRoute route 1 None; EvSleep (1 # 2)] [])).
Proof.
  intros remote w; split; [reflexivity|split].
  - unfold _check_success, bind, call; simpl.
    destruct (feedback_script remote (calls KFeedback (trace w))) as [s|e];
      [destruct s|]; reflexivity.
  - intros fuel route H; apply _navigate_route_loop_no_command; exact H.
Qed.

(** ** Properties of the graph cache *)


(** ** Properties of the cancellable task *)



(** ** Properties of the power lifecycle *)

(** While the robot is not observed on, the wait loop polls again: it uses
    up any fuel it is given. *)
Lemma toggle_power_wait_never_on : forall remote,
  (forall n, exists s,
     robot_state_script remote n = Answer s /\ is_STATE_ON s = false) ->
  forall fuel w,
    exists w',
      toggle_power_wait remote fuel w = OutOfFuel w' /\
      calls KRobotState (trace w') = (calls KRobotState (trace w) + fuel)%nat /\
      power_ons (trace w') = power_ons (trace w) /\
      gni w' = gni w.
Proof.
  intros remote Hoff fuel; induction fuel as [|fuel IH]; intros w.
  - exists w; simpl; unfold out_of_fuel; repeat split; lia.
  - destruct (Hoff (calls KRobotState (trace w))) as [s [Hs Hno]].
    cbn [toggle_power_wait]. unfold bind at 1. answer Hs. rewrite Hno.
    unfold bind at 1. unfold sleep; rewrite emit_after, after_after.
    destruct (IH (after w ([EvGetRobotState] ++ [EvSleep (1 # 4)]) ([] ++ [])))
      as (w' & Hr & H1 & H2 & H3).
    exists w'; split; [exact Hr|].
    rewrite H1, H2, H3; unfold power_ons, after; cbn [trace gni app].
    count_calls. repeat split; lia.
Qed.


(** C4 (the code at the failing input). From a robot observed off,
    ensureOn sends one power-on command and then polls the robot state; when
    the robot never comes on, the polling has no end: whatever number of
    iterations is allowed, the loop is still polling after them, having
    made one observation more than that number and sent the one power-on
    command, and it has reported neither success nor a timeout.  The
    stored maximum of 50 attempts is not consulted. *)
Theorem toggle_power_polls_without_bound : forall fuel : nat,
  exists w',
    toggle_power Scenario.robot_stays_off fuel true
      (Scenario.start (Scenario.controller false) 0 0 0) = OutOfFuel w' /\
    calls KRobotState (trace w') = S fuel /\
    power_ons (trace w') = 1%nat /\
    _max_attempts_to_wait (gni w') = 50%Z.
Proof.
  intros fuel.
  unfold toggle_power, check_is_powered_on.
  unfold bind at 1. unfold bind at 1. unfold bind at 1.
  unfold call at 1; cbn. unfold bind at 1. unfold call at 1; cbn.
  match goal with
  | |- context [toggle_power_wait _ _ ?w] =>
      destruct (@toggle_power_wait_never_on Scenario.robot_stays_off
                  (fun n => ex_intro _ STATE_OFF (conj eq_refl eq_refl)) fuel w)
        as (w' & Hr & H1 & H2 & H3)
  end.
  rewrite Hr. exists w'; split; [reflexivity|].
  rewrite H1, H2, H3; cbn; repeat split.
Qed.

(** *** No power-off for a robot that started on *)

Lemma keeps_ret : forall A (a : A), keeps_power (ret a).
Proof. intros A a w H; simpl; auto. Qed.

Lemma keeps_raise : forall A e, keeps_power (@raise A e).
Proof. intros A e w H; simpl; auto. Qed.

Lemma keeps_out_of_fuel : forall A, keeps_power (@out_of_fuel A).
Proof. intros A w H; simpl; auto. Qed.

Lemma keeps_bind : forall A B (c : M A) (k : A -> M B),
  keeps_power c -> (forall a, keeps_power (k a)) -> keeps_power (bind c k).
Proof.
  intros A B c k Hc Hk w H; unfold bind.
  destruct (Hc w H) as [H1 H2].
  destruct (c w) as [a w'|e w'|w']; simpl in *; auto.
  destruct (Hk a w' H1) as [H3 H4]; split; [exact H3 | congruence].
Qed.

Lemma keeps_try_except : forall A (c : M A) handles h,
  keeps_power c -> (forall e, keeps_power (h e)) ->
  keeps_power (try_except c handles h).
Proof.
  intros A c handles h Hc Hh w H; unfold try_except.
  destruct (Hc w H) as [H1 H2].
  destruct (c w) as [a w'|e w'|w']; simpl in *; auto.
  destruct (handles e); simpl; auto.
  destruct (Hh e w' H1) as [H3 H4]; split; [exact H3 | congruence].
Qed.

Lemma power_offs_snoc : forall t e,
  is_kind KPowerOff e = false -> power_offs (t ++ [e]) = power_offs t.
Proof.
  intros t e H; unfold power_offs; rewrite calls_app, calls_cons, H, calls_nil.
  lia.
Qed.

Lemma keeps_call : forall A (script : nat -> Reply A) e,
  is_kind KPowerOff e = false -> keeps_power (call script e).
Proof.
  intros A script e He w H; unfold call.
  destruct (script _); simpl; rewrite power_offs_snoc; auto.
Qed.

Lemma keeps_observe : forall script e,
  is_kind KPowerOff e = false -> keeps_power (observe script e).
Proof. intros script e He w H; simpl; rewrite power_offs_snoc; auto. Qed.

Lemma keeps_emit : forall e,
  is_kind KPowerOff e = false -> keeps_power (emit e).
Proof. intros e He w H; simpl; rewrite power_offs_snoc; auto. Qed.

Lemma keeps_print : forall m, keeps_power (print m).
Proof. intros m w H; simpl; auto. Qed.

Lemma keeps_read_gni : forall A (f : GraphNavInterface -> A),
  keeps_power (read_gni f).
Proof. intros A f w H; simpl; auto. Qed.

Lemma keeps_read_node : forall A (f : NavROS2SDK -> A),
  keeps_power (read_node f).
Proof. intros A f w H; simpl; auto. Qed.

Lemma keeps_update_gni : forall f,
  (forall s, _started_powered_on (f s) = _started_powered_on s) ->
  keeps_power (update_gni f).
Proof. intros f Hf w H; simpl; rewrite Hf; auto. Qed.

(** Decomposes a computation built from the pieces above. *)
Ltac keeps :=
  repeat first
    [ assumption
    | match goal with H : forall _, keeps_power _ |- _ => apply H end
    | apply keeps_ret | apply keeps_raise | apply keeps_out_of_fuel
    | apply keeps_print | apply keeps_read_gni | apply keeps_read_node
    | apply keeps_call; reflexivity
    | apply keeps_observe; reflexivity
    | apply keeps_emit; reflexivity
    | apply keeps_update_gni; intros []; reflexivity
    | apply keeps_bind; [|intros ?]
    | apply keeps_try_except; [|intros ?]
    | match goal with
      | |- keeps_power (if ?b then _ else _) => destruct b
      | |- keeps_power (match ?x with _ => _ end) => destruct x
      end ].

Lemma keeps_check_is_powered_on : forall remote,
  keeps_power (check_is_powered_on remote).
Proof. intros; unfold check_is_powered_on; keeps. Qed.

Lemma keeps_toggle_power_wait : forall remote fuel,
  keeps_power (toggle_power_wait remote fuel).
Proof.
  intros remote fuel; induction fuel as [|fuel IH]; simpl; unfold sleep; keeps.
Qed.

Lemma keeps_toggle_power_on : forall remote fuel,
  keeps_power (toggle_power remote fuel true).
Proof.
  intros; unfold toggle_power.
  apply keeps_bind; [apply keeps_check_is_powered_on|intros []]; simpl.
  - keeps.
  - pose proof (keeps_check_is_powered_on remote).
    pose proof (keeps_toggle_power_wait remote fuel). keeps.
Qed.

Lemma keeps__check_success : forall remote c,
  keeps_power (_check_success remote c).
Proof. intros; unfold _check_success; keeps. Qed.

Lemma keeps__navigate_to_loop : forall remote fuel dest h,
  keeps_power (_navigate_to_loop remote fuel dest h).
Proof.
  intros remote fuel; induction fuel as [|fuel IH]; intros dest h; simpl;
    unfold sleep; keeps; try apply keeps__check_success; auto.
Qed.

Lemma keeps__navigate_to : forall remote find fuel args,
  keeps_power (_navigate_to remote find fuel args).
Proof.
  intros; unfold _navigate_to.
  pose proof (keeps_toggle_power_on remote fuel).
  keeps; apply keeps__navigate_to_loop.
Qed.

Lemma keeps_read_robot_state : forall remote euler,
  keeps_power (read_robot_state remote euler).
Proof. intros; unfold read_robot_state; keeps. Qed.

Lemma keeps__navigate_to_anchor_loop : forall remote euler fuel goal h,
  keeps_power (_navigate_to_anchor_loop remote euler fuel goal h).
Proof.
  intros remote euler fuel; induction fuel as [|fuel IH]; intros goal h; simpl;
    unfold sleep; pose proof (keeps_read_robot_state remote euler);
    keeps; try apply keeps__check_success; auto.
Qed.

Lemma keeps__navigate_to_anchor : forall remote euler fuel args,
  keeps_power (_navigate_to_anchor remote euler fuel args).
Proof.
  intros; unfold _navigate_to_anchor.
  pose proof (keeps_toggle_power_on remote fuel).
  keeps; apply keeps__navigate_to_anchor_loop.
Qed.

Lemma keeps_modify__seed_T_goal : forall f,
  keeps_power (modify__seed_T_goal f).
Proof. intros; unfold modify__seed_T_goal; keeps. Qed.

Lemma keeps__navigate_to_anchor_once : forall remote euler fuel args,
  keeps_power (_navigate_to_anchor_once remote euler fuel args).
Proof.
  intros; unfold _navigate_to_anchor_once, _navigate_to_anchor_once_prepare,
    sleep.
  pose proof (keeps_toggle_power_on remote fuel).
  pose proof (keeps_read_robot_state remote euler).
  keeps; try apply keeps_modify__seed_T_goal; try apply keeps__check_success.
Qed.

Lemma keeps__navigate_route_resolve : forall find tokens,
  keeps_power (_navigate_route_resolve find tokens).
Proof.
  intros find tokens; induction tokens as [|t tokens IH]; simpl; keeps.
Qed.

Lemma keeps__navigate_route_loop : forall remote fuel route,
  keeps_power (_navigate_route_loop remote fuel route).
Proof.
  intros remote fuel route; induction fuel as [|fuel IH]; simpl;
    unfold sleep; keeps; apply keeps__check_success.
Qed.

(** The guard of the cleanup is false for a controller that started on. *)
Lemma keeps_power_off_if_appropriate : forall remote fuel,
  keeps_power (power_off_if_appropriate remote fuel).
Proof.
  intros remote fuel w H; unfold power_off_if_appropriate, bind, read_gni.
  rewrite H, andb_false_r; simpl; auto.
Qed.

Lemma keeps__on_quit : forall remote, keeps_power (_on_quit remote).
Proof.
  intros remote w H; unfold _on_quit, bind, read_gni.
  rewrite H, andb_false_r; simpl; auto.
Qed.

Lemma keeps__navigate_route : forall remote find fuel args,
  keeps_power (_navigate_route remote find fuel args).
Proof.
  intros; unfold _navigate_route.
  destruct args as [|[|t ts] args]; [keeps | keeps |].
  apply keeps_bind; [apply keeps__navigate_route_resolve|].
  intros [ids|]; [|keeps]. unfold _navigate_route_ids.
  pose proof (keeps_toggle_power_on remote fuel).
  pose proof (keeps_power_off_if_appropriate remote fuel).
  keeps; apply keeps__navigate_route_loop.
Qed.

Lemma keeps_with_LeaseKeepAlive : forall remote A (body : M A),
  keeps_power body -> keeps_power (with_LeaseKeepAlive remote body).
Proof.
  intros remote A body Hb w H; unfold with_LeaseKeepAlive.
  destruct (keeps_call (lease_script remote) EvLeaseAcquire eq_refl w H)
    as [H1 H2].
  destruct (call (lease_script remote) EvLeaseAcquire w) as [u w1|e w1|w1];
    simpl in *; auto.
  destruct (Hb w1 H1) as [H3 H4].
  destruct (body w1) as [a w2|e w2|w2]; simpl in *;
    rewrite ?power_offs_snoc by reflexivity; split; congruence.
Qed.

Lemma keeps_execute_callback_step : forall remote euler fuel,
  keeps_power (execute_callback_step remote euler fuel).
Proof.
  intros; unfold execute_callback_step, run_next_position_once.
  pose proof (keeps__navigate_to_anchor_once remote euler fuel).
  keeps.
Qed.

Lemma keeps_execute_callback_loop : forall remote euler fuel budget,
  keeps_power (execute_callback_loop remote euler fuel budget).
Proof.
  intros remote euler fuel budget; induction budget as [|budget IH]; simpl;
    pose proof (keeps_execute_callback_step remote euler fuel); keeps.
Qed.

Lemma keeps_execute_callback : forall remote euler fuel,
  keeps_power (execute_callback remote euler fuel).
Proof.
  intros; unfold execute_callback.
  pose proof (keeps_with_LeaseKeepAlive remote
                (keeps_execute_callback_loop remote euler fuel fuel)).
  keeps.
Qed.

Lemma keeps_goal_callback : forall x y yaw, keeps_power (goal_callback x y yaw).
Proof. intros x y yaw w H; simpl; auto. Qed.

Lemma keeps_perform : forall remote find euler fuel op,
  keeps_power (perform remote find euler fuel op).
Proof.
  intros remote find euler fuel op; destruct op; simpl.
  - apply keeps__navigate_to.
  - apply keeps__navigate_route.
  - apply keeps__navigate_to_anchor.
  - pose proof (keeps__navigate_to_anchor_once remote euler fuel args); keeps.
  - unfold _clear_graph; keeps.
  - apply keeps__on_quit.
  - pose proof (keeps_goal_callback x y yaw); keeps.
  - unfold cancel_callback; keeps.
  - pose proof (keeps_execute_callback remote euler fuel); keeps.
Qed.

Lemma keeps_execution : forall remote find euler ops w,
  _started_powered_on (gni w) = true ->
  power_offs (trace (execution remote find euler ops w)) = power_offs (trace w).
Proof.
  intros remote find euler ops; induction ops as [|[fuel op] ops IH];
    intros w H; simpl; [reflexivity|].
  destruct (@keeps_perform remote find euler fuel op w H) as [H1 H2].
  rewrite (IH _ H1); exact H2.
Qed.

(** C5 (as the code has it). The controller records the power state it
    observed when it was constructed, and its cleanup is guarded by that
    record.  On a controller that started powered on, no operation sends a
    power-off command, however it ends (return, exception, or still
    looping); so the cleanup sends one only if the robot was not observed
    on at construction.  And a robot observed on at construction is never
    powered off in any execution, that is, any sequence of operations. *)
Theorem cleanup_spares_robot_started_on :
  forall (remote : Remote) find euler,
    (forall fuel op w,
       _started_powered_on (gni w) = true ->
       power_offs (trace (final_world (perform remote find euler fuel op w))) =
       power_offs (trace w)) /\
    (forall ops w0,
       robot_state_script remote (calls KRobotState (trace w0)) =
         Answer STATE_ON ->
       power_offs
         (trace
            (execution remote find euler ops
               (final_world (GraphNavInterface__init__ remote w0)))) =
       power_offs (trace w0)).
Proof.
  intros remote find euler; split.
  - intros fuel op w H; apply (@keeps_perform remote find euler fuel op w H).
  - intros ops w0 H. rewrite keeps_execution.
    + unfold GraphNavInterface__init__, bind, call; cbn [kind_of].
      rewrite H; simpl. apply power_offs_snoc; reflexivity.
    + unfold GraphNavInterface__init__, bind, call; cbn [kind_of].
      rewrite H; reflexivity.
Qed.

(** ** Properties of the command handle *)

Lemma passed_handles_app : forall t1 t2,
  passed_handles (t1 ++ t2) = passed_handles t1 ++ passed_handles t2.
Proof.
  intros t1 t2; induction t1 as [|e t1 IH]; simpl; [reflexivity|].
  destruct e; simpl; rewrite ?IH; reflexivity.
Qed.

(** Closes a branch of a poll loop that stops in this iteration. *)
Ltac loop_stops Hn :=
  eexists; split;
  [ cbn [final_world trace]; rewrite <- ?app_assoc; reflexivity
  | cbn [app passed_handles threaded]; rewrite ?Hn; auto ].

(** Closes a branch that goes round again, by the induction hypothesis
    [IH] at the world [w1] the iteration leaves. *)
Ltac loop_goes_on IH Hn w1 c :=
  let new := fresh "new" in
  let Ht := fresh "Ht" in
  let Hth := fresh "Hth" in
  destruct (IH (Some c) w1) as (new & Ht & Hth);
  rewrite Ht; cbn [trace] in Hth |- *;
  revert Hth; count_calls; rewrite Nat.add_1_r; intros Hth;
  eexists; split;
  [ rewrite <- ?app_assoc; reflexivity
  | cbn [app passed_handles threaded]; rewrite Hn; auto ].

(** Simplifies the world after a call has been resolved. *)
Ltac tidy :=
  cbv beta iota delta [bind try_except call print sleep emit ret];
  cbn [trace kind_of gni node stdout final_world]; count_calls.

Lemma _navigate_to_loop_threaded : forall remote fuel dest h w,
  exists new,
    trace (final_world (_navigate_to_loop remote fuel dest h w)) =
      trace w ++ new /\
    threaded remote (calls KNavigate (trace w)) h (passed_handles new).
Proof.
  intros remote fuel dest; induction fuel as [|fuel IH]; intros h w.
  - exists []; simpl; rewrite app_nil_r; auto.
  - cbn [_navigate_to_loop].
    unfold _check_success. tidy.
    destruct (localization_script remote _) as [l|e];
      [|destruct (is_ResponseError e); exists [EvGetLocalizationState];
        cbn; auto].
    tidy.
    destruct (navigate_script remote (calls KNavigate (trace w)))
      as [c|e] eqn:Hn;
      [|destruct (is_ResponseError e); loop_stops Hn].
    tidy.
    destruct (c =? -1)%Z.
    + match goal with
      | |- context [_navigate_to_loop remote fuel dest (Some c) ?w1] =>
          loop_goes_on IH Hn w1 c
      end.
    + tidy.
      destruct (feedback_script remote _) as [s|e]; [|loop_stops Hn].
      destruct s; tidy;
        first
          [ match goal with
            | |- context [_navigate_to_loop remote fuel dest (Some c) ?w1] =>
                loop_goes_on IH Hn w1 c
            end
          | loop_stops Hn ].
Qed.

Lemma _navigate_to_anchor_loop_threaded : forall remote euler fuel goal h w,
  exists new,
    trace (final_world (_navigate_to_anchor_loop remote euler fuel goal h w)) =
      trace w ++ new /\
    threaded remote (calls KNavigate (trace w)) h (passed_handles new).
Proof.
  intros remote euler fuel goal; induction fuel as [|fuel IH]; intros h w.
  - exists []; simpl; rewrite app_nil_r; auto.
  - cbn [_navigate_to_anchor_loop].
    unfold _check_success, read_robot_state, update_gni, read_gni. tidy.
    destruct (localization_script remote _) as [l|e];
      [|destruct (is_ResponseError e); exists [EvGetLocalizationState];
        cbn; auto].
    tidy.
    destruct (navigate_script remote (calls KNavigate (trace w)))
      as [c|e] eqn:Hn;
      [|destruct (is_ResponseError e); loop_stops Hn].
    tidy.
    destruct (c =? -1)%Z.
    + match goal with
      | |- context [_navigate_to_anchor_loop remote euler fuel goal (Some c)
                      ?w1] =>
          loop_goes_on IH Hn w1 c
      end.
    + tidy.
      destruct (feedback_script remote _) as [s|e]; [|loop_stops Hn].
      destruct s; tidy;
        first
          [ match goal with
            | |- context [_navigate_to_anchor_loop remote euler fuel goal
                            (Some c) ?w1] =>
                loop_goes_on IH Hn w1 c
            end
          | loop_stops Hn ].
Qed.

(** Every route command is sent without a handle. *)
Lemma _navigate_route_loop_handles : forall remote fuel route w,
  exists new,
    trace (final_world (_navigate_route_loop remote fuel route w)) =
      trace w ++ new /\
    Forall (eq None) (passed_handles new).
Proof.
  intros remote fuel route; induction fuel as [|fuel IH]; intros w.
  - exists []; simpl; rewrite app_nil_r; auto.
  - cbn [_navigate_route_loop]. unfold _check_success. tidy.
    assert (Hstop : forall evs,
              Forall (eq None) (passed_handles evs) ->
              exists new,
                trace w ++ evs = trace w ++ new /\
                Forall (eq None) (passed_handles new))
      by (intros evs H; exists evs; auto).
    assert (Hon : forall evs w1,
              trace w1 = trace w ++ evs ->
              Forall (eq None) (passed_handles evs) ->
              exists new,
                trace (final_world (_navigate_route_loop remote fuel route w1)) =
                  trace w ++ new /\
                Forall (eq None) (passed_handles new)).
    { intros evs w1 Hw1 Hevs. destruct (IH w1) as (new & Ht & Hall).
      exists (evs ++ new); rewrite Ht, Hw1, app_assoc; split; auto.
      rewrite passed_handles_app; apply Forall_app; auto. }
    destruct (navigate_script remote _) as [c|e];
      [|apply Hstop; cbn; auto].
    tidy.
    destruct (c =? -1)%Z.
    + apply Hon with (evs := [EvNavigateRoute route 1 None; EvSleep (1 # 2)]);
        [cbn; rewrite <- app_assoc; reflexivity | cbn; auto].
    + tidy.
      destruct (feedback_script remote _) as [s|e];
        [|rewrite <- !app_assoc; apply Hstop; cbn; auto].
      destruct s; tidy;
        first
          [ apply Hon
              with (evs := [EvNavigateRoute route 1 None; EvSleep (1 # 2);
                            EvNavigationFeedback (Some c)]);
            [cbn; rewrite <- !app_assoc; reflexivity | cbn; now auto]
          | rewrite <- !app_assoc; apply Hstop; cbn; now auto ].
Qed.

(** C3 (as the code has it). In the to-waypoint loop and in the continuous
    anchored-pose loop the handle is threaded: the first issuance passes the
    handle the loop starts with, and each later issuance passes the id the
    remote answered to the issuance before it.  The route loop passes no
    handle on any issuance.  This holds however the loop ends. *)
Theorem handle_threading_by_loop : forall (remote : Remote) euler (fuel : nat),
  (forall dest h w,
     exists new,
       trace (final_world (_navigate_to_loop remote fuel dest h w)) =
         trace w ++ new /\
       threaded remote (calls KNavigate (trace w)) h (passed_handles new)) /\
  (forall goal h w,
     exists new,
       trace
         (final_world (_navigate_to_anchor_loop remote euler fuel goal h w)) =
         trace w ++ new /\
       threaded remote (calls KNavigate (trace w)) h (passed_handles new)) /\
  (forall route w,
     exists new,
       trace (final_world (_navigate_route_loop remote fuel route w)) =
         trace w ++ new /\
       Forall (eq None) (passed_handles new)).
Proof.
  intros remote euler fuel; split; [|split].
  - intros; apply _navigate_to_loop_threaded.
  - intros; apply _navigate_to_anchor_loop_threaded.
  - intros; apply _navigate_route_loop_handles.
Qed.

(** ** Properties of the single-step navigation *)



(** ** Worked scenarios *)

Import Scenario.




(** The same loop on InProgress, InProgress, ReachedGoal: three of each. *)
Example poll_loop_on_reached_goal_script :
  calls KNavigate
    (trace (final_world
              (waypoint_run
                 [STATUS_FOLLOWING_ROUTE; STATUS_FOLLOWING_ROUTE;
                  STATUS_REACHED_GOAL]))) = 3%nat /\
  calls KFeedback
    (trace (final_world
              (waypoint_run
                 [STATUS_FOLLOWING_ROUTE; STATUS_FOLLOWING_ROUTE;
                  STATUS_REACHED_GOAL]))) = 3%nat.
Proof. vm_compute; split; reflexivity. Qed.

(** The action server on InProgress, InProgress, ReachedGoal: three
    commands, three feedback messages, the goal marked succeeded. *)
Example task_on_reached_goal_script :
  returned
    (task_run
       [STATUS_FOLLOWING_ROUTE; STATUS_FOLLOWING_ROUTE; STATUS_REACHED_GOAL]) =
    Some (Some (mkResult true)) /\
  calls KNavigate
    (trace (final_world
              (task_run
                 [STATUS_FOLLOWING_ROUTE; STATUS_FOLLOWING_ROUTE;
                  STATUS_REACHED_GOAL]))) = 3%nat.
Proof. vm_compute; split; reflexivity. Qed.


(** A loop whose command id came back as -1 goes round again. *)
Lemma route_loop_without_command_goes_on :
  _navigate_route_loop robot_without_command_ids 1
    (mkRoute ["a"] []) (start (controller true) 0 0 0) =
  _navigate_route_loop robot_without_command_ids 0
    (mkRoute ["a"] [])
    (after (start (controller true) 0 0 0)
       [EvNavigateRoute (mkRoute ["a"] []) 1 None; EvSleep (1 # 2)] []).
Proof.
  apply (proj2 (proj2 (check_success_without_command
                         robot_without_command_ids
                         (start (controller true) 0 0 0)))).
  reflexivity.
Defined.

(** Against C2 as stated: with the handle -1 the status check answers
    False, which is "not finished", not a terminal failure; with the handle
    None it makes the feedback call. *)
Lemma absent_handle_is_not_terminal :
  _check_success (robot_on [] never) (Some (-1)%Z)
    (start (controller true) 0 0 0) =
    Returns false (start (controller true) 0 0 0) /\
  trace
    (final_world
       (_check_success (robot_on [] never) None
          (start (controller true) 0 0 0))) =
    [EvNavigationFeedback None].
Proof. vm_compute; split; reflexivity. Qed.

(** Against C3 as stated: the second route command passes no handle,
    although the first was answered with the id 100. *)
Lemma route_loop_passes_no_handle :
  navigate_script
    (robot_on [STATUS_FOLLOWING_ROUTE; STATUS_REACHED_GOAL] never) 0 =
    Answer 100%Z /\
  passed_handles (trace (final_world route_run)) = [None; None] /\
  ~ threaded (robot_on [STATUS_FOLLOWING_ROUTE; STATUS_REACHED_GOAL] never)
      0 None (passed_handles (trace (final_world route_run))).
Proof.
  vm_compute; split; [reflexivity|split; [reflexivity|]].
  intros [_ [H _]]; discriminate H.
Qed.

(** The single-step variant starts from no handle at every call. *)
Example single_step_restarts_handle :
  passed_handles (trace two_steps) = [None; None] /\
  navigate_script (robot_on [] never) 0 = Answer 100%Z.
Proof. vm_compute; split; reflexivity. Qed.

(** A robot that needs sixty polls to come on: ensureOn sends one
    power-on command, keeps polling past the stored maximum of 50 attempts,
    and returns True. *)
Example slow_robot_is_waited_for :
  returned
    (toggle_power robot_slow_to_power 100 true
       (start (controller false) 0 0 0)) = Some true /\
  calls KRobotState
    (trace
       (final_world
          (toggle_power robot_slow_to_power 100 true
             (start (controller false) 0 0 0)))) = 62%nat /\
  power_ons
    (trace
       (final_world
          (toggle_power robot_slow_to_power 100 true
             (start (controller false) 0 0 0)))) = 1%nat.
Proof. vm_compute; repeat split; reflexivity. Qed.

(** Against C5 as stated: the controller never sent a power-on command,
    the operator did the switching on, and the cleanup of the route
    navigation powers the robot off all the same. *)
Lemma operator_powered_robot_is_powered_off :
  power_ons (trace operator_run) = 0%nat /\
  power_offs (trace operator_run) = 1%nat /\
  trace operator_run =
    [EvGetRobotState; EvGetRobotState;
     EvNavigateRoute (mkRoute ["a"] []) 1 None; EvSleep (1 # 2);
     EvNavigationFeedback (Some 100%Z); EvGetRobotState;
     EvSafePowerOffMotors; EvGetRobotState] /\
  _started_powered_on (gni operator_run) = false.
Proof. vm_compute; repeat split; reflexivity. Qed.

(** A robot found on: a route navigation and the quit hook send no
    power-off. *)
Lemma robot_found_on_is_left_on :
  power_offs
    (trace
       (execution (robot_on [STATUS_REACHED_GOAL] never) literal_id flat
          [(5%nat, Op_navigate_route [["a"]]); (0%nat, Op_on_quit)]
          (final_world
             (GraphNavInterface__init__ (robot_on [STATUS_REACHED_GOAL] never)
                (start (controller false) 0 0 0))))) =
  power_offs (trace (start (controller false) 0 0 0)).
Proof.
  apply (proj2 (cleanup_spares_robot_started_on
                  (robot_on [STATUS_REACHED_GOAL] never) literal_id flat)).
  reflexivity.
Defined.



(** The route a, c, b over the corridor a - b - c: the pair named is
    (a, c), the first one, and nothing but the two messages happens. *)
Lemma corridor_route_names_first_pair :
  _navigate_route_ids (robot_on [] never) 5 ["a"; "c"; "b"]
    world_with_corridor =
  Returns tt
    (mkWorld controller_with_corridor (mkNavROS2SDK 0 0 0) []
       [MsgFailedToFindEdge "a" "c"; MsgListTheGraph]).
Proof.
  destruct (buildRoute_first_unmatched_pair (robot_on [] never) 5
              world_with_corridor ["a"; "c"; "b"]) as (_ & _ & H).
  apply (H "a" "c"). reflexivity.
Defined.

(** The whole operation on the same request: the tokens resolve, the pair
    (a, c) is named, and no call is made. *)
Example corridor_route_operation_stops :
  _navigate_route (robot_on [] never) literal_id 5 [["a"; "c"; "b"]]
    world_with_corridor =
  Returns tt
    (mkWorld controller_with_corridor (mkNavROS2SDK 0 0 0) []
       [MsgFailedToFindEdge "a" "c"; MsgListTheGraph]).
Proof. vm_compute; reflexivity. Qed.

(** The route a, b, c has both its edges, in their recorded direction, and
    is commanded. *)
Example corridor_route_is_built :
  _navigate_route_edges corridor_edges ["a"; "b"; "c"] [] =
    ([mkEdgeId "a" "b"; mkEdgeId "b" "c"], None) /\
  trace
    (final_world
       (_navigate_route (robot_on [STATUS_REACHED_GOAL] never) literal_id 5
          [["a"; "b"; "c"]] world_with_corridor)) =
    [EvGetRobotState;
     EvNavigateRoute
       (mkRoute ["a"; "b"; "c"] [mkEdgeId "a" "b"; mkEdgeId "b" "c"]) 1 None;
     EvSleep (1 # 2); EvNavigationFeedback (Some 100%Z)].
Proof. vm_compute; split; reflexivity. Qed.

(** The corridor edge b <- a answers for both orders of its ends. *)
Example corridor_edge_both_ways :
  _match_edge corridor_edges "a" "b" = Some (mkEdgeId "a" "b") /\
  _match_edge corridor_edges "b" "a" = Some (mkEdgeId "a" "b") /\
  _match_edge corridor_edges "a" "c" = None.
Proof. vm_compute; repeat split; reflexivity. Qed.


(** A goal cancelled in flight leaves the flag set, and the next goal,
    at (7, 8), is driven towards the old pose (1, 2). *)
Example stale_goal_after_cancel :
  _flag_nav (gni cancelled_then_new_goal) = true /\
  node cancelled_then_new_goal = mkNavROS2SDK 7 8 9 /\
  commanded_poses (trace cancelled_then_new_goal) =
    [mkSE3Pose 1 2 0 (Quat_from_yaw 3); mkSE3Pose 1 2 0 (Quat_from_yaw 3)].
Proof. vm_compute; repeat split; reflexivity. Qed.

(** ** Further properties of the power lifecycle *)

Import Scenario2.

Lemma toggle_power_as_observed :
  forall (remote : Remote) (fuel : nat) (should_power_on : bool) (w : World)
         (s : MotorPowerState),
    robot_state_script remote (calls KRobotState (trace w)) = Answer s ->
    is_STATE_ON s = should_power_on ->
    toggle_power remote fuel should_power_on w =
    Returns should_power_on
      (mkWorld (set__powered_on should_power_on (gni w)) (node w)
         (trace w ++ [EvGetRobotState]) (stdout w)).
Proof.
  intros remote fuel b w s Hs Hb.
  unfold toggle_power, check_is_powered_on, bind, call, update_gni, read_gni.
  cbn [kind_of]. rewrite Hs, Hb. cbn [gni _powered_on set__powered_on].
  destruct b; reflexivity.
Qed.

(** X1. When the robot is observed in the state that is asked for,
    [toggle_power] observes once, records the observation, sends no command
    and returns the state. *)
Theorem toggle_power_already_there :
  forall (remote : Remote) (fuel : nat) (should_power_on : bool) (w : World)
         (s : MotorPowerState),
    robot_state_script remote (calls KRobotState (trace w)) = Answer s ->
    is_STATE_ON s = should_power_on ->
    toggle_power remote fuel should_power_on w =
    Returns should_power_on
      (mkWorld (set__powered_on should_power_on (gni w)) (node w)
         (trace w ++ [EvGetRobotState]) (stdout w)).
Proof. exact toggle_power_as_observed. Qed.

Lemma toggle_power_already_there_witness :
  toggle_power (robot_on [] never) 0 true (start (controller true) 0 0 0) =
  Returns true
    (mkWorld (controller true) (mkNavROS2SDK 0 0 0) [EvGetRobotState] []).
Proof.
  apply (@toggle_power_already_there (robot_on [] never) 0%nat true
           (start (controller true) 0 0 0) STATE_ON);
    reflexivity.
Defined.

(** *** Calls a computation never makes *)

Lemma filter_snoc_quiet : forall (P : Event -> bool) t e,
  P e = false -> filter P (t ++ [e]) = filter P t.
Proof.
  intros P t e H; rewrite filter_app; simpl; rewrite H, app_nil_r; reflexivity.
Qed.


Lemma filter_filter_weaken : forall (P Q : Event -> bool) t,
  (forall e, P e = true -> Q e = true) ->
  filter P (filter Q t) = filter P t.
Proof.
  intros P Q t H; induction t as [|e t IH]; simpl; [reflexivity|].
  destruct (Q e) eqn:HQ; simpl; rewrite IH; [reflexivity|].
  destruct (P e) eqn:HP; [|reflexivity].
  rewrite (H e HP) in HQ; discriminate.
Qed.

Lemma never_emits_weaken : forall (P Q : Event -> bool) A (c : M A),
  (forall e, P e = true -> Q e = true) ->
  never_emits Q c -> never_emits P c.
Proof.
  intros P Q A c H Hc w.
  rewrite <- (filter_filter_weaken P Q (trace (final_world (c w))) H), Hc.
  apply filter_filter_weaken; exact H.
Qed.

Lemma quiet_ret : forall P A (a : A), never_emits P (ret a).
Proof. intros P A a w; reflexivity. Qed.

Lemma quiet_raise : forall P A e, never_emits P (@raise A e).
Proof. intros P A e w; reflexivity. Qed.

Lemma quiet_out_of_fuel : forall P A, never_emits P (@out_of_fuel A).
Proof. intros P A w; reflexivity. Qed.

Lemma quiet_bind : forall P A B (c : M A) (k : A -> M B),
  never_emits P c -> (forall a, never_emits P (k a)) ->
  never_emits P (bind c k).
Proof.
  intros P A B c k Hc Hk w; unfold bind.
  specialize (Hc w). destruct (c w) as [a w'|e w'|w']; simpl in *; auto.
  rewrite Hk; exact Hc.
Qed.

Lemma quiet_try_except : forall P A (c : M A) handles h,
  never_emits P c -> (forall e, never_emits P (h e)) ->
  never_emits P (try_except c handles h).
Proof.
  intros P A c handles h Hc Hh w; unfold try_except.
  specialize (Hc w). destruct (c w) as [a w'|e w'|w']; simpl in *; auto.
  destruct (handles e); simpl; auto. rewrite Hh; exact Hc.
Qed.

Lemma quiet_call : forall P A (script : nat -> Reply A) e,
  P e = false -> never_emits P (call script e).
Proof.
  intros P A script e He w; unfold call.
  destruct (script _); simpl; apply filter_snoc_quiet; exact He.
Qed.

Lemma quiet_observe : forall P script e,
  P e = false -> never_emits P (observe script e).
Proof. intros P script e He w; simpl; apply filter_snoc_quiet; exact He. Qed.

Lemma quiet_emit : forall P e, P e = false -> never_emits P (emit e).
Proof. intros P e He w; simpl; apply filter_snoc_quiet; exact He. Qed.

Lemma quiet_print : forall P m, never_emits P (print m).
Proof. intros P m w; reflexivity. Qed.

Lemma quiet_read_gni : forall P A (f : GraphNavInterface -> A),
  never_emits P (read_gni f).
Proof. intros P A f w; reflexivity. Qed.

Lemma quiet_read_node : forall P A (f : NavROS2SDK -> A),
  never_emits P (read_node f).
Proof. intros P A f w; reflexivity. Qed.

Lemma quiet_update_gni : forall P f, never_emits P (update_gni f).
Proof. intros P f w; reflexivity. Qed.

(** Decomposes a computation built from the pieces above; the calls it
    meets must be outside the predicate. *)
Ltac quiet :=
  repeat first
    [ assumption
    | match goal with H : _ |- never_emits _ _ => apply H end
    | apply quiet_ret | apply quiet_raise | apply quiet_out_of_fuel
    | apply quiet_print | apply quiet_read_gni | apply quiet_read_node
    | apply quiet_update_gni
    | apply quiet_call; reflexivity
    | apply quiet_observe; reflexivity
    | apply quiet_emit; reflexivity
    | apply quiet_bind; [|intros ?]
    | apply quiet_try_except; [|intros ?]
    | match goal with
      | |- never_emits _ (if ?b then _ else _) => destruct b
      | |- never_emits _ (match ?x with _ => _ end) => destruct x
      end ].

(** The controller's power handling makes no host call and sends no
    navigation command. *)
Lemma quiet_check_is_powered_on : forall remote,
  never_emits is_host (check_is_powered_on remote) /\
  never_emits is_navigation (check_is_powered_on remote) /\
  never_emits is_power_off (check_is_powered_on remote).
Proof. intros; unfold check_is_powered_on; repeat split; quiet. Qed.

Lemma quiet_toggle_power_wait : forall remote fuel,
  never_emits is_host (toggle_power_wait remote fuel) /\
  never_emits is_navigation (toggle_power_wait remote fuel) /\
  never_emits is_power_off (toggle_power_wait remote fuel).
Proof.
  intros remote fuel; induction fuel as [|fuel (IH1 & IH2 & IH3)]; simpl;
    unfold sleep; repeat split; quiet.
Qed.

Lemma quiet_toggle_power : forall remote fuel b,
  never_emits is_host (toggle_power remote fuel b) /\
  never_emits is_navigation (toggle_power remote fuel b).
Proof.
  intros remote fuel b; unfold toggle_power.
  destruct (quiet_check_is_powered_on remote) as (C1 & C2 & _).
  destruct (quiet_toggle_power_wait remote fuel) as (W1 & W2 & _).
  split; quiet.
Qed.

Lemma quiet_toggle_power_on : forall remote fuel,
  never_emits is_power_off (toggle_power remote fuel true).
Proof.
  intros remote fuel; unfold toggle_power.
  destruct (quiet_check_is_powered_on remote) as (_ & _ & C3).
  destruct (quiet_toggle_power_wait remote fuel) as (_ & _ & W3).
  apply quiet_bind; [exact C3|intros []]; simpl; quiet.
Qed.





(** ** Further properties of the poll loops *)



(** X5. The route operation does not catch what the route command raises:
    on a robot already on, with all edges found, an exception from the
    first route command leaves the operation at once, after the power
    observation and that one command; the conditional power-off at the end
    of the operation is not reached, whatever the controller started
    from. *)
Theorem route_command_failure_skips_cleanup :
  forall (remote : Remote) (fuel : nat) (w : World)
         (waypoint_ids : list string) (edge_ids : list EdgeId) (e : PyExn),
    _navigate_route_edges (_current_edges (gni w)) waypoint_ids [] =
      (edge_ids, None) ->
    robot_state_script remote (calls KRobotState (trace w)) = Answer STATE_ON ->
    navigate_script remote (calls KNavigate (trace w)) = Raises e ->
    _navigate_route_ids remote (S fuel) waypoint_ids w =
    Throws e
      (mkWorld (set__powered_on true (gni w)) (node w)
         (trace w ++
          [EvGetRobotState;
           EvNavigateRoute (mkRoute waypoint_ids edge_ids) 1 None])
         (stdout w)).
Proof.
  intros remote fuel w ids edges e Hedges Hon Hn.
  unfold _navigate_route_ids. unfold bind at 1, read_gni at 1.
  rewrite Hedges. unfold bind at 1.
  rewrite (@toggle_power_as_observed remote (S fuel) true w STATE_ON Hon
             eq_refl).
  cbn [negb]. unfold bind at 1. cbn [_navigate_route_loop].
  unfold bind at 1, call. cbn [kind_of trace]. count_calls. rewrite Hn.
  cbn [gni node trace stdout]. rewrite <- app_assoc. reflexivity.
Qed.

Lemma route_command_failure_skips_cleanup_witness :
  _navigate_route_ids robot_refusing 1 ["a"; "b"]
    (start
       (mkGraphNavInterface 0 0 0 false false true 50 None corridor_edges
          [] [] [] None) 0 0 0) =
  Throws ResponseError
    (mkWorld
       (mkGraphNavInterface 0 0 0 false false true 50 None corridor_edges
          [] [] [] None)
       (mkNavROS2SDK 0 0 0)
       [EvGetRobotState;
        EvNavigateRoute (mkRoute ["a"; "b"] [mkEdgeId "a" "b"]) 1 None]
       []).
Proof.
  apply (@route_command_failure_skips_cleanup robot_refusing 0%nat
           (start
              (mkGraphNavInterface 0 0 0 false false true 50 None
                 corridor_edges [] [] [] None) 0 0 0)
           ["a"; "b"] [mkEdgeId "a" "b"] ResponseError);
    reflexivity.
Defined.

(** ** Properties of the request checks *)

Lemma _navigate_route_resolve_pure : forall find tokens,
  pure_in_world (_navigate_route_resolve find tokens).
Proof.
  intros find tokens; induction tokens as [|t tokens IH]; intros w;
    [reflexivity|].
  cbn [_navigate_route_resolve]. unfold bind, read_gni.
  destruct (find t _ _) as [[id|]|e]; try reflexivity.
  destruct (id =? ""); [reflexivity|].
  specialize (IH w).
  destruct (_navigate_route_resolve find tokens w) as [r w'|e w'|w'];
    simpl in *; exact IH.
Qed.

Lemma _navigate_route_resolve_some : forall find tokens w ids,
  returned (_navigate_route_resolve find tokens w) = Some (Some ids) <->
  Forall2 (resolves_to find (gni w)) tokens ids.
Proof.
  intros find tokens w; induction tokens as [|t tokens IH]; intros ids.
  - simpl; split.
    + intros H; inversion H; constructor.
    + intros H; inversion H; reflexivity.
  - cbn [_navigate_route_resolve]. unfold bind, read_gni.
    pose proof (_navigate_route_resolve_pure find tokens w) as Hpure.
    split.
    + destruct (find t _ _) as [[id|]|e] eqn:Hf; try discriminate.
      destruct (String.eqb_spec id ""); [discriminate|].
      destruct (_navigate_route_resolve find tokens w) as [r w'|e w'|w'] eqn:Hr;
        try discriminate.
      simpl in Hpure; subst w'. destruct r as [rest|]; [|discriminate].
      simpl; intros H; inversion H; subst ids.
      constructor; [split; assumption|].
      apply IH; reflexivity.
    + intros H; inversion H as [|t' id tokens' rest [Hf Hid] Hrest]; subst.
      unfold resolves_to in Hf. rewrite Hf.
      destruct (String.eqb_spec id ""); [contradiction|].
      apply IH in Hrest.
      destruct (_navigate_route_resolve find tokens w) as [r w'|e w'|w'];
        try discriminate.
      simpl in Hrest; inversion Hrest; reflexivity.
Qed.

(** X6. The route operation resolves its tokens all or nothing and in
    order: the resolution yields a list of ids exactly when every token
    resolves to a non-empty id, the list then holds the id of each token at
    its place, and the controller and the trace are as before. *)
Theorem route_tokens_resolve_all_or_nothing :
  forall find (tokens : list string) (w : World) (ids : list string),
    (_navigate_route_resolve find tokens w = Returns (Some ids) w <->
     Forall2 (resolves_to find (gni w)) tokens ids) /\
    final_world (_navigate_route_resolve find tokens w) = w.
Proof.
  intros find tokens w ids; split; [|apply _navigate_route_resolve_pure].
  rewrite <- _navigate_route_resolve_some.
  pose proof (_navigate_route_resolve_pure find tokens w) as Hpure.
  destruct (_navigate_route_resolve find tokens w) as [r w'|e w'|w'];
    simpl in *; subst; split; intros H; inversion H; reflexivity.
Qed.

(** X7. A waypoint request that names something the helper does not
    resolve stops before any remote call: the to-waypoint operation, and the
    route operation with such a token anywhere in its list, leave the
    controller, the trace and the console as they were. *)
Theorem unresolved_waypoint_reaches_nothing :
  forall (remote : Remote) find (fuel : nat) (w : World),
    (forall token rest more r,
       find token (_current_graph (gni w))
         (_current_annotation_name_to_wp_id (gni w)) = Answer r ->
       truthy_id r = false ->
       _navigate_to remote find fuel ((token :: rest) :: more) w =
       Returns tt w) /\
    (forall tokens more token,
       In token tokens ->
       (forall id, ~ resolves_to find (gni w) token id) ->
       final_world (_navigate_route remote find fuel (tokens :: more) w) = w).
Proof.
  intros remote find fuel w; split.
  - intros token rest more r Hf Hr.
    unfold _navigate_to, bind, read_gni. rewrite Hf, Hr. reflexivity.
  - intros tokens more token Hin Hno.
    destruct tokens as [|t0 tokens0]; [contradiction|].
    unfold _navigate_route. unfold bind.
    pose proof (_navigate_route_resolve_pure find (t0 :: tokens0) w) as Hpure.
    pose proof (_navigate_route_resolve_some find (t0 :: tokens0) w) as Hsome.
    destruct (_navigate_route_resolve find (t0 :: tokens0) w)
      as [r w'|e w'|w']; simpl in Hpure; subst w'; try reflexivity.
    destruct r as [ids|]; [|reflexivity].
    exfalso. destruct (Hsome ids) as [H _]. specialize (H eq_refl).
    clear - H Hin Hno. revert ids H.
    induction (t0 :: tokens0) as [|t ts IH]; intros ids H; [contradiction|].
    inversion H as [|t' id ts' rest Hres Hrest]; subst.
    destruct Hin as [->|Hin]; [exact (Hno id Hres)|].
    exact (IH Hin rest Hrest).
Qed.

Lemma unresolved_waypoint_reaches_nothing_witness :
  final_world
    (_navigate_route (robot_on [] never) knows_corridor 5
       [["a"; "b"; "z"]] world_with_corridor) = world_with_corridor.
Proof.
  apply (proj2 (@unresolved_waypoint_reaches_nothing (robot_on [] never)
                  knows_corridor 5%nat world_with_corridor)
           ["a"; "b"; "z"] [] "z").
  - right; right; left; reflexivity.
  - intros id [H _]; discriminate H.
Defined.

(** X8. An anchored request with a wrong number of coordinates only prints
    a message.  One that gives no height while the robot is not localized
    reads the localization once and stops: no power command, no navigation
    command; the single-step variant returns nothing and leaves its flag
    clear, though it has already overwritten its stored goal with the
    unfinished pose. *)
Theorem anchored_request_rejected :
  forall (remote : Remote) euler (fuel : nat) (w : World) (a : list Q)
         (more : list (list Q)),
    (valid_anchor_args a = false ->
     _navigate_to_anchor remote euler fuel (a :: more) w =
       Returns tt (after w [] [MsgInvalidArguments]) /\
     (_flag_nav (gni w) = false ->
      _navigate_to_anchor_once remote euler fuel (a :: more) w =
        Returns None (after w [] [MsgInvalidArguments]))) /\
    (forall l,
       valid_anchor_args a = true ->
       has_z a = false ->
       localization_script remote (calls KLocalization (trace w)) = Answer l ->
       loc_waypoint_id l = "" ->
       _navigate_to_anchor remote euler fuel (a :: more) w =
         Returns tt (after w [EvGetLocalizationState] [MsgRobotNotLocalized]) /\
       (_flag_nav (gni w) = false ->
        _navigate_to_anchor_once remote euler fuel (a :: more) w =
          Returns None
            (mkWorld
               (set__seed_T_goal
                  (mkSE3Pose (nth 0 a 0) (nth 1 a 0) 0 Quat_identity) (gni w))
               (node w) (trace w ++ [EvGetLocalizationState])
               (stdout w ++ [MsgRobotNotLocalized])))).
Proof.
  intros remote euler fuel w a more; split.
  - intros Hbad; split.
    + unfold _navigate_to_anchor. rewrite Hbad. cbn [negb].
      rewrite print_after; reflexivity.
    + intros Hflag. unfold _navigate_to_anchor_once.
      unfold bind at 1, read_gni at 1. rewrite Hflag. cbn [negb].
      unfold bind at 1. unfold _navigate_to_anchor_once_prepare.
      rewrite Hbad. cbn [negb]. unfold bind at 1. rewrite print_after.
      reflexivity.
  - intros l Hok Hz Hl Hwp; split.
    + unfold _navigate_to_anchor. rewrite Hok, Hz. cbn [negb].
      unfold bind at 1. unfold bind at 1. answer Hl. rewrite Hwp.
      cbn [String.eqb]. unfold ret. rewrite print_after, after_after.
      reflexivity.
    + intros Hflag. unfold _navigate_to_anchor_once.
      unfold bind at 1, read_gni at 1. rewrite Hflag. cbn [negb].
      unfold bind at 1. unfold _navigate_to_anchor_once_prepare.
      rewrite Hok, Hz. cbn [negb].
      unfold bind, update_gni, call, print, ret.
      cbn [kind_of trace gni node stdout]. rewrite Hl, Hwp.
      cbn [String.eqb negb gni node trace stdout]. reflexivity.
Qed.

Lemma anchored_request_rejected_witness :
  _navigate_to_anchor_once robot_not_localized flat 5 [[1; 2; 3]]
    (start (controller true) 0 0 0) =
  Returns None
    (mkWorld
       (set__seed_T_goal (mkSE3Pose 1 2 0 Quat_identity) (controller true))
       (mkNavROS2SDK 0 0 0) [EvGetLocalizationState] [MsgRobotNotLocalized]).
Proof.
  apply (proj2 (@anchored_request_rejected robot_not_localized flat 5%nat
                  (start (controller true) 0 0 0) [1; 2; 3] [])
           (mkLoc "" 0 0 0 (0, 0, 0, 1)));
    reflexivity.
Defined.

(** ** Further properties of the single-step navigation *)

(** X9. The first single step of a goal (x, y, yaw) on a localized robot
    that is already on: the height of the goal is the height read from the
    localization at the start of the step, the orientation is the yaw about
    the vertical axis, the pose reported outward is the one read just before
    the command, the command carries no handle, and the step returns whether
    the feedback status is terminal, with the flag left set exactly when it
    is not. *)
Theorem first_single_step :
  forall (remote : Remote) euler (fuel : nat) (w : World) (x y yaw : Q)
         (l1 l2 : LocalizationState) (c : Z) (s : NavStatus),
    _flag_nav (gni w) = false ->
    localization_script remote (calls KLocalization (trace w)) = Answer l1 ->
    loc_waypoint_id l1 <> "" ->
    robot_state_script remote (calls KRobotState (trace w)) = Answer STATE_ON ->
    localization_script remote (calls KLocalization (trace w) + 1) =
      Answer l2 ->
    navigate_script remote (calls KNavigate (trace w)) = Answer c ->
    c <> (-1)%Z ->
    feedback_script remote (calls KFeedback (trace w)) = Answer s ->
    let goal := mkSE3Pose x y (seed_z l1) (Quat_from_yaw yaw) in
    exists w',
      run_next_position_once remote euler fuel x y yaw w =
        Returns (Some (terminal s)) w' /\
      trace w' =
        trace w ++
        [EvGetLocalizationState; EvGetRobotState; EvGetLocalizationState;
         EvNavigateToAnchor goal 1 None; EvSleep (1 # 2);
         EvNavigationFeedback (Some c)] /\
      _seed_T_goal (gni w') = Some goal /\
      _flag_nav (gni w') = negb (terminal s) /\
      _robot_state_x (gni w') = seed_x l2 /\
      _robot_state_y (gni w') = seed_y l2 /\
      _robot_state_yaw (gni w') = snd (euler (seed_rot l2)).
Proof.
  intros remote euler fuel w x y yaw l1 l2 c s Hflag Hl1 Hwp Hon Hl2 Hn Hc Hs
    goal.
  unfold run_next_position_once, _navigate_to_anchor_once.
  unfold bind at 1, read_gni at 1. rewrite Hflag. cbn [negb].
  unfold bind at 1.
  assert (Hprep :
    _navigate_to_anchor_once_prepare remote fuel [[x; y; yaw]] w =
    Returns true
      (mkWorld (set__powered_on true (set__seed_T_goal goal (gni w)))
         (node w) (trace w ++ [EvGetLocalizationState; EvGetRobotState])
         (stdout w))).
  { unfold _navigate_to_anchor_once_prepare.
    cbn [valid_anchor_args has_z List.length existsb Nat.eqb orb negb nth].
    unfold modify__seed_T_goal, toggle_power, check_is_powered_on.
    unfold bind, update_gni, read_gni, call, print, ret.
    cbn [kind_of trace gni node stdout]. rewrite Hl1.
    apply String.eqb_neq in Hwp. rewrite Hwp.
    cbn [negb kind_of trace gni node stdout set__seed_T_goal _seed_T_goal].
    count_calls. rewrite Hon.
    cbn [negb andb is_STATE_ON kind_of trace gni node stdout
           set__powered_on _powered_on].
    rewrite <- app_assoc. reflexivity. }
  rewrite Hprep. cbn [negb].
  unfold read_robot_state, update_gni, read_gni, _check_success.
  tidy. replace (calls KLocalization (trace w) + 1 + 0)%nat
    with (calls KLocalization (trace w) + 1)%nat by lia.
  rewrite Hl2. tidy.
  cbn [set__flag_nav set__robot_state set__powered_on set__seed_T_goal
         _seed_T_goal].
  tidy. rewrite Hn. tidy.
  apply Z.eqb_neq in Hc; rewrite Hc. tidy. rewrite Hs.
  destruct s; tidy; eexists;
    (split; [reflexivity|]);
    cbn [trace gni set__flag_nav set__robot_state set__powered_on
           set__seed_T_goal _seed_T_goal _flag_nav _robot_state_x
           _robot_state_y _robot_state_yaw terminal negb];
    rewrite <- !app_assoc; repeat split; reflexivity.
Qed.

Lemma first_single_step_witness :
  exists w',
    run_next_position_once (robot_on [STATUS_REACHED_GOAL] never) flat 5
      1 2 3 (start (controller true) 1 2 3) =
      Returns (Some true) w' /\
    trace w' =
      [EvGetLocalizationState; EvGetRobotState; EvGetLocalizationState;
       EvNavigateToAnchor (mkSE3Pose 1 2 0 (Quat_from_yaw 3)) 1 None;
       EvSleep (1 # 2); EvNavigationFeedback (Some 100%Z)] /\
    _seed_T_goal (gni w') = Some (mkSE3Pose 1 2 0 (Quat_from_yaw 3)) /\
    _flag_nav (gni w') = false /\
    _robot_state_x (gni w') = 0 /\
    _robot_state_y (gni w') = 0 /\
    _robot_state_yaw (gni w') = 0.
Proof.
  apply (@first_single_step (robot_on [STATUS_REACHED_GOAL] never) flat 5%nat
           (start (controller true) 1 2 3) 1 2 3 here here 100%Z
           STATUS_REACHED_GOAL);
    try reflexivity; discriminate.
Defined.

Lemma _navigate_to_anchor_once_flag : forall remote euler fuel args w,
  match _navigate_to_anchor_once remote euler fuel args w with
  | Returns (Some b) w' => _flag_nav (gni w') = negb b
  | _ => True
  end.
Proof.
  intros remote euler fuel args w.
  unfold _navigate_to_anchor_once.
  unfold bind at 1, read_gni at 1.
  set (pre := if negb (_flag_nav (gni w))
              then _navigate_to_anchor_once_prepare remote fuel args
              else ret true).
  unfold bind at 1.
  destruct (pre w) as [go w1|e w1|w1]; try exact I.
  destruct go; cbn [negb]; [|exact I].
  unfold read_robot_state, update_gni, read_gni, _check_success. tidy.
  destruct (localization_script remote _) as [l|e]; tidy; try exact I.
  cbn [set__flag_nav set__robot_state _seed_T_goal].
  destruct (_seed_T_goal (gni w1)) as [goal|]; tidy; try exact I.
  destruct (navigate_script remote _) as [c|e]; tidy; try exact I.
  destruct (c =? -1)%Z; tidy; [reflexivity|].
  destruct (feedback_script remote _) as [s|e]; tidy; try exact I.
  destruct s; tidy; reflexivity.
Qed.

(** X10. Whatever state it starts from, a single step that returns a
    value leaves the in-flight flag clear exactly when that value is True:
    True clears it and False leaves it set. *)
Theorem single_step_flag_mirrors_result :
  forall (remote : Remote) euler (fuel : nat) (args : list (list Q))
         (w : World) (b : bool),
    returned (_navigate_to_anchor_once remote euler fuel args w) =
      Some (Some b) ->
    _flag_nav
      (gni (final_world (_navigate_to_anchor_once remote euler fuel args w))) =
    negb b.
Proof.
  intros remote euler fuel args w b.
  pose proof (_navigate_to_anchor_once_flag remote euler fuel args w) as H.
  destruct (_navigate_to_anchor_once remote euler fuel args w)
    as [[b'|] w'|e w'|w']; try discriminate.
  simpl; intros Hb; inversion Hb; subst; exact H.
Qed.

Lemma single_step_flag_mirrors_result_witness :
  _flag_nav
    (gni
       (final_world
          (_navigate_to_anchor_once (robot_on [] never) flat 5 [[1; 2; 3]]
             (start (controller true) 0 0 0)))) = negb false.
Proof.
  apply (@single_step_flag_mirrors_result (robot_on [] never) flat 5%nat
           [[1; 2; 3]] (start (controller true) 0 0 0) false).
  reflexivity.
Defined.

(** ** Further properties of the operations and of the action server *)

Lemma quiet__check_success : forall remote c,
  never_emits is_host (_check_success remote c) /\
  never_emits is_power_off (_check_success remote c).
Proof. intros; unfold _check_success; split; quiet. Qed.

Lemma quiet_read_robot_state : forall remote euler,
  never_emits is_host (read_robot_state remote euler) /\
  never_emits is_power_off (read_robot_state remote euler).
Proof. intros; unfold read_robot_state; split; quiet. Qed.

Lemma quiet_modify__seed_T_goal : forall P f,
  never_emits P (modify__seed_T_goal f).
Proof. intros; unfold modify__seed_T_goal; quiet. Qed.

Lemma quiet__navigate_to_anchor_once : forall remote euler fuel args,
  never_emits is_host (_navigate_to_anchor_once remote euler fuel args) /\
  never_emits is_power_off (_navigate_to_anchor_once remote euler fuel args).
Proof.
  intros; unfold _navigate_to_anchor_once, _navigate_to_anchor_once_prepare,
    sleep.
  destruct (quiet_toggle_power remote fuel true) as [T1 _].
  pose proof (quiet_toggle_power_on remote fuel) as T2.
  destruct (quiet_read_robot_state remote euler) as [R1 R2].
  split; quiet; try apply quiet_modify__seed_T_goal;
    try apply quiet__check_success.
Qed.










Lemma host_quiet_step_call : forall (P : Event -> bool) remote euler fuel x y yaw,
  (forall e, P e = true -> is_host e = true) ->
  never_emits P (run_next_position_once remote euler fuel x y yaw).
Proof.
  intros P remote euler fuel x y yaw H; unfold run_next_position_once.
  apply (@never_emits_weaken P is_host _ _ H).
  apply quiet__navigate_to_anchor_once.
Qed.

Lemma is_goal_mark_host : forall e, is_goal_mark e = true -> is_host e = true.
Proof. intros []; simpl; auto. Qed.

Lemma is_lease_host : forall e, is_lease e = true -> is_host e = true.
Proof. intros []; simpl; auto. Qed.

Lemma is_publish_host : forall e, is_publish e = true -> is_host e = true.
Proof. intros []; simpl; auto. Qed.

Lemma goal_marks_filter : forall t, goal_marks t = filter is_goal_mark t.
Proof. reflexivity. Qed.

(** One pass of the action server: the goal is marked succeeded exactly
    when the pass returns the successful result. *)
Lemma execute_callback_step_marks : forall remote euler fuel w,
  (returned (execute_callback_step remote euler fuel w) =
     Some (Some (mkResult true)) /\
   goal_marks (trace (final_world (execute_callback_step remote euler fuel w))) =
     goal_marks (trace w) ++ [EvGoalSucceed]) \/
  (returned (execute_callback_step remote euler fuel w) <>
     Some (Some (mkResult true)) /\
   goal_marks (trace (final_world (execute_callback_step remote euler fuel w))) =
     goal_marks (trace w)).
Proof.
  intros remote euler fuel w.
  pose proof (@host_quiet_step_call is_goal_mark remote euler fuel
                (goal_x (node w)) (goal_y (node w)) (goal_yaw (node w))
                is_goal_mark_host w) as Hq.
  unfold execute_callback_step, try_except, bind, read_node.
  destruct (run_next_position_once remote euler fuel _ _ _ w)
    as [res w1|e w1|w1]; cbn [final_world] in Hq.
  - cbv beta iota delta [read_gni print emit ret].
    cbn [trace gni node stdout].
    destruct res as [[|]|]; cbn [truthy_result];
      cbn [trace gni node stdout final_world returned];
      rewrite !goal_marks_filter, ?filter_app, Hq; cbn [filter is_goal_mark];
      rewrite ?app_nil_r.
    + left; split; reflexivity.
    + right; split; [discriminate|reflexivity].
    + right; split; [discriminate|reflexivity].
  - cbv beta iota delta [print ret]. cbn [trace final_world returned].
    right; split; [discriminate|]. rewrite !goal_marks_filter; exact Hq.
  - cbn [final_world returned]. right; split; [discriminate|].
    rewrite !goal_marks_filter; exact Hq.
Qed.

Lemma marks_agree_intro : forall before r marks,
  goal_marks (trace (final_world r)) = goal_marks before ++ marks ->
  (marks = [] \/ marks = [EvGoalCanceled]) ->
  returned r <> Some (Some (mkResult true)) ->
  marks_agree before r.
Proof.
  intros before r marks H1 H2 H3; exists marks; split; [exact H1|split].
  - destruct H2; auto.
  - split; [intros ->; destruct H2; discriminate | intros H; contradiction].
Qed.

Lemma marks_agree_same : forall before before' r,
  goal_marks before' = goal_marks before ->
  marks_agree before' r -> marks_agree before r.
Proof.
  intros before before' r H (marks & H1 & H2); exists marks.
  rewrite <- H; auto.
Qed.

Lemma execute_callback_loop_marks : forall remote euler fuel budget w,
  marks_agree (trace w) (execute_callback_loop remote euler fuel budget w).
Proof.
  intros remote euler fuel budget; induction budget as [|budget IH]; intros w.
  - apply marks_agree_intro with (marks := []);
      [simpl; rewrite app_nil_r; reflexivity | auto | discriminate].
  - cbn [execute_callback_loop]. unfold bind at 1, observe at 1.
    destruct (ok_script remote _); cbn [negb].
    2: { apply marks_agree_intro with (marks := []);
           [ cbn [ret final_world trace]; rewrite goal_marks_app; cbn;
             rewrite !app_nil_r; reflexivity
           | auto | discriminate ]. }
    unfold bind at 1, observe at 1. cbn [trace gni node stdout].
    destruct (cancel_script remote _).
    { apply marks_agree_intro with (marks := [EvGoalCanceled]);
        [ cbv beta iota delta [bind emit print ret];
          cbn [final_world trace gni node stdout];
          rewrite !goal_marks_app; cbn; rewrite !app_nil_r; reflexivity
        | auto | discriminate ]. }
    unfold bind at 1.
    match goal with
    | |- context [execute_callback_step remote euler fuel ?w0] =>
        set (wa := w0)
    end.
    assert (Hwa : goal_marks (trace wa) = goal_marks (trace w)).
    { subst wa; cbn [trace]; rewrite !goal_marks_app; cbn;
        rewrite !app_nil_r; reflexivity. }
    apply (marks_agree_same _ Hwa).
    destruct (execute_callback_step_marks remote euler fuel wa)
      as [[Hret Hm]|[Hret Hm]];
      destruct (execute_callback_step remote euler fuel wa)
        as [res w1|e w1|w1]; cbn [returned final_world] in *;
      try discriminate.
    + inversion Hret; subst res. exists [EvGoalSucceed].
      cbn [ret final_world returned]. repeat split; auto.
    + destruct res as [result|].
      * apply marks_agree_intro with (marks := []);
          [ cbn [ret final_world]; rewrite app_nil_r; exact Hm | auto | ].
        cbn [ret returned]. intros H; apply Hret.
        inversion H; reflexivity.
      * apply (marks_agree_same _ Hm). apply IH.
    + apply marks_agree_intro with (marks := []);
        [ cbn [final_world]; rewrite app_nil_r; exact Hm | auto
        | discriminate ].
    + apply marks_agree_intro with (marks := []);
        [ cbn [final_world]; rewrite app_nil_r; exact Hm | auto
        | discriminate ].
Qed.

Lemma execute_callback_marks : forall remote euler fuel w,
  marks_agree (trace w) (execute_callback remote euler fuel w).
Proof.
  intros remote euler fuel w.
  unfold execute_callback. unfold bind at 1. rewrite print_after.
  unfold try_except, with_LeaseKeepAlive, call. cbn [kind_of].
  destruct (lease_script remote _) as [u|e].
  2: { destruct (is_ResourceAlreadyClaimedError e);
         apply marks_agree_intro with (marks := []);
         try (cbv beta iota delta [bind print ret];
              cbn [final_world trace]; unfold after; cbn [trace];
              rewrite ?goal_marks_app; cbn; rewrite ?app_nil_r; reflexivity);
         auto; discriminate. }
  match goal with
  | |- context [execute_callback_loop remote euler fuel fuel ?w0] =>
      set (wa := w0)
  end.
  assert (Hwa : goal_marks (trace wa) = goal_marks (trace w)).
  { subst wa; unfold after; cbn [trace]; rewrite !goal_marks_app; cbn;
      rewrite !app_nil_r; reflexivity. }
  apply (marks_agree_same _ Hwa).
  destruct (execute_callback_loop_marks remote euler fuel fuel wa)
    as (marks & H1 & H2 & H3).
  destruct (execute_callback_loop remote euler fuel fuel wa)
    as [res w1|e w1|w1]; cbn [final_world returned] in *.
  - exists marks. cbv beta iota delta [bind emit ret].
    cbn [final_world returned trace].
    rewrite goal_marks_app, H1; cbn; rewrite app_nil_r. auto.
  - assert (Hne : marks <> [EvGoalSucceed])
      by (intros Hm; apply H3 in Hm; discriminate).
    assert (H2' : marks = [] \/ marks = [EvGoalCanceled])
      by (destruct H2 as [?|[?|?]]; auto; contradiction).
    cbv beta iota delta [bind emit raise print ret].
    destruct (is_ResourceAlreadyClaimedError e);
      apply marks_agree_intro with (marks := marks); try exact H2';
      cbn [final_world returned trace]; try discriminate;
      rewrite ?goal_marks_app, H1; cbn; rewrite ?app_nil_r; reflexivity.
  - exists marks; auto.
Qed.

(** X12. The action server sets at most one terminal mark on the goal
    handle, and it returns the successful result exactly when that mark is
    "succeeded": a cancelled goal, a failed step, an unavailable lease and a
    stopped host all end without the succeeded mark and without
    success. *)
Theorem goal_mark_matches_result :
  forall (remote : Remote) euler (fuel : nat) (w : World),
    exists marks,
      goal_marks (trace (final_world (execute_callback remote euler fuel w))) =
        goal_marks (trace w) ++ marks /\
      (marks = [] \/ marks = [EvGoalCanceled] \/ marks = [EvGoalSucceed]) /\
      (marks = [EvGoalSucceed] <->
       returned (execute_callback remote euler fuel w) =
         Some (Some (mkResult true))).
Proof. intros; apply execute_callback_marks. Qed.

Lemma try_except_all_never_throws : forall A (c : M A) h,
  (forall e w, exists a w', h e w = Returns a w') ->
  forall w e w', try_except c (fun _ => true) h w <> Throws e w'.
Proof.
  intros A c h Hh w e w'; unfold try_except.
  destruct (c w) as [a w1|e1 w1|w1]; try discriminate.
  destruct (Hh e1 w1) as (a & w2 & ->); discriminate.
Qed.

Lemma execute_callback_step_never_throws : forall remote euler fuel w e w',
  execute_callback_step remote euler fuel w <> Throws e w'.
Proof.
  intros remote euler fuel; unfold execute_callback_step.
  apply try_except_all_never_throws.
  intros e w; eexists; eexists; reflexivity.
Qed.

Lemma execute_callback_loop_never_throws :
  forall remote euler fuel budget w e w',
    execute_callback_loop remote euler fuel budget w <> Throws e w'.
Proof.
  intros remote euler fuel budget; induction budget as [|budget IH];
    intros w e w'; [discriminate|].
  cbn [execute_callback_loop]. unfold bind at 1, observe at 1.
  destruct (ok_script remote _); cbn [negb]; [|discriminate].
  unfold bind at 1, observe at 1.
  destruct (cancel_script remote _); [discriminate|].
  unfold bind at 1.
  match goal with
  | |- context [execute_callback_step remote euler fuel ?w0] =>
      pose proof (@execute_callback_step_never_throws remote euler fuel w0)
        as Hs;
      destruct (execute_callback_step remote euler fuel w0)
        as [res w1|e1 w1|w1]
  end.
  - destruct res; [discriminate|apply IH].
  - exfalso; exact (Hs e1 w1 eq_refl).
  - discriminate.
Qed.

Lemma lease_quiet_execute_callback_loop : forall remote euler fuel budget,
  never_emits is_lease (execute_callback_loop remote euler fuel budget).
Proof.
  intros remote euler fuel budget; induction budget as [|budget IH];
    cbn [execute_callback_loop].
  - quiet.
  - assert (Hstep : never_emits is_lease
                      (execute_callback_step remote euler fuel)).
    { unfold execute_callback_step.
      pose proof (fun x y yaw =>
                    @host_quiet_step_call is_lease remote euler fuel x y yaw
                      is_lease_host).
      quiet. }
    quiet.
Qed.

Lemma execute_callback_with_lease : forall remote euler fuel w,
  lease_script remote (calls KLease (trace w)) = Answer tt ->
  match execute_callback remote euler fuel w with
  | Returns _ w' =>
      filter is_lease (trace w') =
        filter is_lease (trace w) ++ [EvLeaseAcquire; EvLeaseReturn] /\
      exists t, trace w' = t ++ [EvLeaseReturn]
  | Throws _ _ => False
  | OutOfFuel _ => True
  end.
Proof.
  intros remote euler fuel w Hl.
  unfold execute_callback. unfold bind at 1. rewrite print_after.
  unfold try_except, with_LeaseKeepAlive, call. cbn [kind_of].
  unfold after; cbn [trace gni node stdout]. rewrite app_nil_r, Hl.
  match goal with
  | |- context [execute_callback_loop remote euler fuel fuel ?w0] =>
      set (wa := w0)
  end.
  pose proof (@execute_callback_loop_never_throws remote euler fuel fuel wa)
    as Hnt.
  pose proof (lease_quiet_execute_callback_loop remote euler fuel fuel wa)
    as Hq.
  destruct (execute_callback_loop remote euler fuel fuel wa)
    as [res w1|e1 w1|w1]; cbn [final_world] in Hq.
  - cbv beta iota delta [bind emit ret]. cbn [trace].
    split; [|eexists; reflexivity].
    rewrite filter_app, Hq. subst wa; cbn [trace].
    rewrite !filter_app; cbn; rewrite <- !app_assoc; reflexivity.
  - exfalso; exact (Hnt e1 w1 eq_refl).
  - exact I.
Qed.

(** X13. With the lease granted, the action server never lets an
    exception out, and whenever it returns it has returned the lease: the
    lease is taken once, given back once, and giving it back is the last
    thing it does. *)
Theorem task_answers_and_returns_lease :
  forall (remote : Remote) euler (fuel : nat) (w : World),
    lease_script remote (calls KLease (trace w)) = Answer tt ->
    (forall e w', execute_callback remote euler fuel w <> Throws e w') /\
    (forall res w',
       execute_callback remote euler fuel w = Returns res w' ->
       filter is_lease (trace w') =
         filter is_lease (trace w) ++ [EvLeaseAcquire; EvLeaseReturn] /\
       exists t, trace w' = t ++ [EvLeaseReturn]).
Proof.
  intros remote euler fuel w Hl.
  pose proof (execute_callback_with_lease remote euler fuel w Hl) as H.
  destruct (execute_callback remote euler fuel w) as [res w1|e1 w1|w1].
  - split; [discriminate|]. intros res' w' Heq; inversion Heq; subst; exact H.
  - contradiction.
  - split; discriminate.
Qed.

Lemma task_answers_and_returns_lease_witness :
  exists res w',
    execute_callback (robot_on [STATUS_LOST] never) flat 5
      (start (controller true) 1 2 3) = Returns res w' /\
    filter is_lease (trace w') =
      filter is_lease (trace (start (controller true) 1 2 3)) ++
      [EvLeaseAcquire; EvLeaseReturn] /\
    exists t, trace w' = t ++ [EvLeaseReturn].
Proof.
  eexists; eexists; split; [vm_compute; reflexivity|].
  apply (proj2 (@task_answers_and_returns_lease (robot_on [STATUS_LOST] never)
                  flat 5%nat (start (controller true) 1 2 3) eq_refl)
           (Some (mkResult true))).
  vm_compute; reflexivity.
Defined.

(** X14. When the lease cannot be taken, the action server does nothing
    with the robot: the controller is untouched, the only call is the
    attempt to take the lease, and no lease is given back.  If the lease is
    claimed elsewhere the server returns the unsuccessful result; any other
    exception from the attempt leaves the server. *)
Theorem task_without_lease :
  forall (remote : Remote) euler (fuel : nat) (w : World) (e : PyExn),
    lease_script remote (calls KLease (trace w)) = Raises e ->
    execute_callback remote euler fuel w =
    if is_ResourceAlreadyClaimedError e then
      Returns (Some (mkResult false))
        (after w [EvLeaseAcquire] [MsgExecutingGoal; MsgLeaseInUse])
    else Throws e (after w [EvLeaseAcquire] [MsgExecutingGoal]).
Proof.
  intros remote euler fuel w e Hl.
  unfold execute_callback. unfold bind at 1. rewrite print_after.
  unfold try_except, with_LeaseKeepAlive, call. cbn [kind_of].
  unfold after; cbn [trace gni node stdout]. rewrite app_nil_r, Hl.
  destruct (is_ResourceAlreadyClaimedError e);
    cbv beta iota delta [bind print ret];
    cbn [trace gni node stdout]; rewrite ?app_nil_r, <- ?app_assoc;
    reflexivity.
Qed.

Lemma task_without_lease_witness :
  execute_callback robot_leased_elsewhere flat 5
    (start (controller true) 1 2 3) =
  Returns (Some (mkResult false))
    (after (start (controller true) 1 2 3) [EvLeaseAcquire]
       [MsgExecutingGoal; MsgLeaseInUse]).
Proof.
  apply (@task_without_lease robot_leased_elsewhere flat 5%nat
           (start (controller true) 1 2 3) ResourceAlreadyClaimedError).
  reflexivity.
Defined.

(** One pass of the action server while the robot is not localized: the
    localization is read, the pose stored earlier is published, and the
    pass asks for another. *)
Lemma execute_callback_step_not_localized : forall remote euler fuel w l,
  _flag_nav (gni w) = false ->
  localization_script remote (calls KLocalization (trace w)) = Answer l ->
  loc_waypoint_id l = "" ->
  execute_callback_step remote euler fuel w =
  Returns None
    (mkWorld
       (set__seed_T_goal
          (mkSE3Pose (goal_x (node w)) (goal_y (node w)) 0 Quat_identity)
          (gni w))
       (node w)
       (trace w ++
        [EvGetLocalizationState;
         EvPublishFeedback (_robot_state_x (gni w)) (_robot_state_y (gni w))
           (_robot_state_yaw (gni w))])
       (stdout w ++
        [MsgRobotNotLocalized; MsgIsItCompleted None;
         MsgPose (_robot_state_x (gni w)) (_robot_state_y (gni w))
           (_robot_state_yaw (gni w))])).
Proof.
  intros remote euler fuel w l Hflag Hl Hwp.
  unfold execute_callback_step, run_next_position_once,
    _navigate_to_anchor_once, _navigate_to_anchor_once_prepare.
  cbn [valid_anchor_args has_z List.length existsb Nat.eqb orb negb nth].
  unfold try_except, bind, read_node, read_gni, update_gni, call, print, emit,
    ret.
  cbn [kind_of trace gni node stdout]. rewrite Hflag.
  cbn [negb kind_of trace gni node stdout]. rewrite Hl, Hwp.
  cbn [String.eqb negb truthy_result kind_of trace gni node stdout
         set__seed_T_goal _robot_state_x _robot_state_y _robot_state_yaw].
  rewrite <- !app_assoc. reflexivity.
Qed.

Lemma execute_callback_loop_not_localized : forall remote euler fuel,
  (forall n, ok_script remote n = true) ->
  (forall n, cancel_script remote n = false) ->
  never_localized remote ->
  forall budget w,
    _flag_nav (gni w) = false ->
    exists w',
      execute_callback_loop remote euler fuel budget w = OutOfFuel w' /\
      calls KNavigate (trace w') = calls KNavigate (trace w) /\
      calls KPowerOn (trace w') = calls KPowerOn (trace w) /\
      filter is_sleep (trace w') = filter is_sleep (trace w) /\
      filter is_lease (trace w') = filter is_lease (trace w) /\
      calls KLocalization (trace w') =
        (calls KLocalization (trace w) + budget)%nat /\
      List.length (filter is_publish (trace w')) =
        (List.length (filter is_publish (trace w)) + budget)%nat.
Proof.
  intros remote euler fuel Hok Hcancel Hloc budget.
  induction budget as [|budget IH]; intros w Hflag.
  - exists w; cbn; repeat split; auto.
  - cbn [execute_callback_loop]. unfold bind at 1, observe at 1.
    rewrite Hok. cbn [negb]. unfold bind at 1, observe at 1.
    rewrite Hcancel. unfold bind at 1.
    destruct (Hloc (calls KLocalization (trace w))) as (l & Hl & Hwp).
    rewrite (@execute_callback_step_not_localized remote euler fuel _ l);
      [| exact Hflag
       | cbn [trace]; count_calls; exact Hl
       | exact Hwp ].
    match goal with
    | |- context [execute_callback_loop remote euler fuel budget ?w0] =>
        destruct (IH w0) as (w' & Hr & H1 & H2 & H3 & H4 & H5 & H6);
          [exact Hflag|]
    end.
    exists w'; split; [exact Hr|].
    rewrite H1, H2, H3, H4, H5, H6. cbn [trace gni node].
    rewrite !filter_app, !length_app. count_calls. cbn.
    rewrite !app_nil_r. repeat split; lia.
Qed.

(** X15. A goal accepted while the robot is not localized keeps the
    action server going round without end and without pause: however many
    passes are allowed, the server is still running after them, having read
    the localization and published the stale pose once per pass, with no
    navigation command, no power-on, no sleep, and the lease still held. *)
Theorem unlocalized_goal_spins :
  forall (remote : Remote) euler (w : World),
    _flag_nav (gni w) = false ->
    lease_script remote (calls KLease (trace w)) = Answer tt ->
    (forall n, ok_script remote n = true) ->
    (forall n, cancel_script remote n = false) ->
    never_localized remote ->
    forall fuel, exists w',
      execute_callback remote euler fuel w = OutOfFuel w' /\
      calls KNavigate (trace w') = calls KNavigate (trace w) /\
      calls KPowerOn (trace w') = calls KPowerOn (trace w) /\
      filter is_sleep (trace w') = filter is_sleep (trace w) /\
      filter is_lease (trace w') = filter is_lease (trace w) ++ [EvLeaseAcquire] /\
      calls KLocalization (trace w') =
        (calls KLocalization (trace w) + fuel)%nat /\
      List.length (filter is_publish (trace w')) =
        (List.length (filter is_publish (trace w)) + fuel)%nat.
Proof.
  intros remote euler w Hflag Hl Hok Hcancel Hloc fuel.
  unfold execute_callback. unfold bind at 1. rewrite print_after.
  unfold try_except, with_LeaseKeepAlive, call. cbn [kind_of].
  unfold after; cbn [trace gni node stdout]. rewrite app_nil_r, Hl.
  match goal with
  | |- context [execute_callback_loop remote euler fuel fuel ?w0] =>
      destruct (@execute_callback_loop_not_localized remote euler fuel Hok
                  Hcancel Hloc fuel w0)
        as (w' & Hr & H1 & H2 & H3 & H4 & H5 & H6); [exact Hflag|]
  end.
  rewrite Hr. exists w'; split; [reflexivity|].
  rewrite H1, H2, H3, H4, H5, H6. cbn [trace].
  rewrite !filter_app. count_calls. cbn. rewrite !app_nil_r.
  repeat split; lia.
Qed.

Lemma unlocalized_goal_spins_witness :
  exists w',
    execute_callback robot_not_localized flat 7
      (start (controller true) 1 2 3) = OutOfFuel w' /\
    calls KNavigate (trace w') =
      calls KNavigate (trace (start (controller true) 1 2 3)) /\
    calls KPowerOn (trace w') =
      calls KPowerOn (trace (start (controller true) 1 2 3)) /\
    filter is_sleep (trace w') =
      filter is_sleep (trace (start (controller true) 1 2 3)) /\
    filter is_lease (trace w') =
      filter is_lease (trace (start (controller true) 1 2 3)) ++
      [EvLeaseAcquire] /\
    calls KLocalization (trace w') =
      (calls KLocalization (trace (start (controller true) 1 2 3)) + 7)%nat /\
    List.length (filter is_publish (trace w')) =
      (List.length
         (filter is_publish (trace (start (controller true) 1 2 3))) + 7)%nat.
Proof.
  apply (@unlocalized_goal_spins robot_not_localized flat
           (start (controller true) 1 2 3));
    try reflexivity.
  intros n; exists (mkLoc "" 0 0 0 (0, 0, 0, 1)); split; reflexivity.
Defined.

(** ** Properties of the map operations *)

Import Scenario3.

Lemma last_char_append_slash : forall p,
  last_char (p ++ "/")%string = Some "/".
Proof.
  induction p as [|c p IH]; [reflexivity|].
  simpl. destruct (p ++ "/")%string eqn:E; [|exact IH].
  destruct p; discriminate.
Qed.

Lemma all_but_last_append_slash : forall p,
  all_but_last (p ++ "/")%string = p.
Proof.
  induction p as [|c p IH]; [reflexivity|].
  simpl. destruct (p ++ "/")%string eqn:E.
  - destruct p; discriminate.
  - rewrite IH; reflexivity.
Qed.

Lemma last_char_none : forall s, last_char s = None -> s = "".
Proof.
  induction s as [|c s IH]; [reflexivity|].
  simpl. destruct s; [discriminate|]. intros H; apply IH in H; discriminate.
Qed.

(** X16. The upload path is stored with one trailing slash removed and
    otherwise as given: a path written with the slash and the same path
    written without it are stored alike, so the file names built from it
    have a single separator.  Only one slash is removed, and the empty path
    makes the constructor raise. *)
Theorem upload_path_loses_one_slash : forall p : string,
  stored_upload_path (p ++ "/") = Some p /\
  (forall c, last_char p = Some c -> c <> "/" -> stored_upload_path p = Some p) /\
  (stored_upload_path p = None <-> p = "").
Proof.
  intros p; split; [|split].
  - unfold stored_upload_path.
    rewrite last_char_append_slash, all_but_last_append_slash. reflexivity.
  - intros c Hc Hne. unfold stored_upload_path. rewrite Hc.
    apply String.eqb_neq in Hne. rewrite Hne. reflexivity.
  - unfold stored_upload_path. split.
    + destruct (last_char p) as [c|] eqn:E; [destruct (c =? "/"); discriminate|].
      intros _; apply last_char_none; exact E.
    + intros ->; reflexivity.
Qed.

Lemma logged_nil : forall s, logged s [] [] = s.
Proof. intros [w p l ls]; unfold logged; simpl; rewrite !app_nil_r; auto. Qed.

Lemma logged_logged : forall s c1 l1 c2 l2,
  logged (logged s c1 l1) c2 l2 = logged s (c1 ++ c2) (l1 ++ l2).
Proof. intros; unfold logged; simpl; rewrite !app_assoc; reflexivity. Qed.

Lemma map_calls_app : forall k l1 l2,
  map_calls k (l1 ++ l2) = (map_calls k l1 + map_calls k l2)%nat.
Proof. intros; unfold map_calls; rewrite filter_app, length_app; auto. Qed.

(** The upload loop over ids that are all stored, followed by more ids. *)
Lemma upload_waypoint_snapshots_app : forall services pre rest s,
  (forall n, upload_waypoint_snapshot_script services n = Answer tt) ->
  (forall id, In id pre ->
     dict_get (_current_waypoint_snapshots (gni (world s))) id <> None) ->
  upload_waypoint_snapshots services (pre ++ rest) s =
  upload_waypoint_snapshots services rest
    (logged s
       (map (fun id =>
               UploadWaypointSnapshot
                 (stored_bytes (_current_waypoint_snapshots (gni (world s))) id))
          pre)
       (map (fun id =>
               LineUploaded
                 (waypoint_snapshot_id services
                    (stored_bytes
                       (_current_waypoint_snapshots (gni (world s))) id)))
          pre)).
Proof.
  intros services pre rest s Hacc; revert s.
  induction pre as [|id pre IH]; intros s Hin.
  - simpl; rewrite logged_nil; reflexivity.
  - cbn [app upload_waypoint_snapshots].
    unfold and_then at 1, read_self, lift, read_gni.
    unfold stored_bytes at 1 2.
    destruct (dict_get (_current_waypoint_snapshots (gni (world s))) id)
      as [b|] eqn:Hb; [|exfalso; apply (Hin id (or_introl eq_refl) Hb)].
    unfold and_then at 1, map_call. cbn [map_log]. rewrite Hacc.
    unfold and_then at 1, say. cbn [world _upload_filepath map_log lines].
    rewrite IH by (intros id' H'; apply Hin; right; exact H').
    f_equal. unfold logged, stored_bytes.
    cbn [world _upload_filepath map_log lines map].
    rewrite Hb, <- !app_assoc. reflexivity.
Qed.

(** X17. The waypoint snapshots are uploaded lazily and in the order the
    robot asks for them: when every id the robot reports unknown is stored,
    the loop sends exactly the stored bytes of those ids, one call per id,
    and nothing else; when some id is not stored, the loop raises a key
    error for the first such id, after sending the ones before it. *)
Theorem waypoint_snapshots_sent_as_requested :
  forall (services : Services) (s : Session),
    (forall n, upload_waypoint_snapshot_script services n = Answer tt) ->
    let d := _current_waypoint_snapshots (gni (world s)) in
    (forall ids,
       (forall id, In id ids -> dict_get d id <> None) ->
       upload_waypoint_snapshots services ids s =
       Done tt
         (logged s
            (map (fun id => UploadWaypointSnapshot (stored_bytes d id)) ids)
            (map (fun id =>
                    LineUploaded
                      (waypoint_snapshot_id services (stored_bytes d id)))
               ids))) /\
    (forall pre id post,
       (forall id', In id' pre -> dict_get d id' <> None) ->
       dict_get d id = None ->
       upload_waypoint_snapshots services (pre ++ id :: post) s =
       Failed (KeyError id)
         (logged s
            (map (fun id => UploadWaypointSnapshot (stored_bytes d id)) pre)
            (map (fun id =>
                    LineUploaded
                      (waypoint_snapshot_id services (stored_bytes d id)))
               pre))).
Proof.
  intros services s Hacc d; split.
  - intros ids Hin.
    rewrite <- (app_nil_r ids) at 1.
    rewrite (upload_waypoint_snapshots_app services ids [] s Hacc Hin).
    reflexivity.
  - intros pre id post Hin Hno.
    rewrite (upload_waypoint_snapshots_app services pre (id :: post) s Hacc Hin).
    cbn [upload_waypoint_snapshots].
    unfold and_then, read_self, lift, read_gni, logged.
    cbn [world]. fold d. rewrite Hno. reflexivity.
Qed.

Lemma waypoint_snapshots_sent_as_requested_witness :
  upload_waypoint_snapshots map_services ["sb"; "sa"] loaded_session =
  Done tt
    (logged loaded_session
       [UploadWaypointSnapshot "bytes-sb"; UploadWaypointSnapshot "bytes-sa"]
       [LineUploaded "sb"; LineUploaded "sa"]).
Proof.
  apply (proj1 (@waypoint_snapshots_sent_as_requested map_services
                  loaded_session (fun n => eq_refl)) ["sb"; "sa"]).
  intros id [<-|[<-|[]]]; discriminate.
Defined.

(** *** Dicts *)

Lemma dict_get_set_same : forall V (d : list (string * V)) k v,
  dict_get (dict_set d k v) k = Some v.
Proof.
  intros V d k v; induction d as [|[k' v'] d IH]; simpl.
  - rewrite String.eqb_refl; reflexivity.
  - destruct (String.eqb_spec k' k); simpl.
    + rewrite String.eqb_refl; reflexivity.
    + apply String.eqb_neq in n; rewrite n; exact IH.
Qed.

Lemma dict_get_set_other : forall V (d : list (string * V)) k v k',
  k' <> k -> dict_get (dict_set d k v) k' = dict_get d k'.
Proof.
  intros V d k v k' Hne; induction d as [|[k0 v0] d IH]; simpl.
  - destruct (String.eqb_spec k k'); [congruence|reflexivity].
  - destruct (String.eqb_spec k0 k); simpl.
    + subst k0. destruct (String.eqb_spec k k'); [congruence|reflexivity].
    + destruct (k0 =? k'); [reflexivity|exact IH].
Qed.

Lemma dict_set_keeps : forall V (d : list (string * V)) k v k',
  dict_get d k' <> None -> dict_get (dict_set d k v) k' <> None.
Proof.
  intros V d k v k' H. destruct (String.eqb_spec k' k) as [->|Hne].
  - rewrite dict_get_set_same; discriminate.
  - rewrite dict_get_set_other by exact Hne; exact H.
Qed.

(** Storing under a key and looking it up gives the value back, and
    no other key is affected: a store never loses an entry. *)
Lemma dict_set_then_get :
  forall (d : list (string * string)) (k v k' : string),
    dict_get (dict_set d k v) k = Some v /\
    (k' <> k -> dict_get (dict_set d k v) k' = dict_get d k') /\
    (dict_get d k' <> None -> dict_get (dict_set d k v) k' <> None).
Proof.
  intros d k v k'; split; [|split].
  - apply dict_get_set_same.
  - apply dict_get_set_other.
  - apply dict_set_keeps.
Qed.

(** *** Loading the snapshots *)

Lemma loaded_from_refl : forall s, loaded_from s s [].
Proof.
  intros [[g n t o] p l ls]; unfold loaded_from; cbn.
  rewrite app_nil_r. repeat split; auto. destruct g; reflexivity.
Qed.

Lemma loaded_from_trans : forall s s1 s2 r1 r2,
  loaded_from s s1 r1 -> loaded_from s1 s2 r2 -> loaded_from s s2 (r1 ++ r2).
Proof.
  intros s s1 s2 r1 r2 (A1 & A2 & A3 & A4 & A5 & A6) (B1 & B2 & B3 & B4 & B5 & B6).
  unfold loaded_from.
  split; [rewrite B1, A1, app_assoc; reflexivity|].
  split; [congruence|]. split; [congruence|]. split; [congruence|].
  split; [|auto].
  rewrite B5 at 1. rewrite A5. reflexivity.
Qed.

Lemma load_waypoint_snapshots_step : forall services w rest s data id,
  disk services (waypoint_snapshot_path (_upload_filepath s) w) = Some data ->
  parse_waypoint_snapshot services data = Some id ->
  load_waypoint_snapshots services (w :: rest) s =
  load_waypoint_snapshots services rest
    (mkSession
       (mkWorld
          (set__current_waypoint_snapshots
             (dict_set (_current_waypoint_snapshots (gni (world s))) id data)
             (gni (world s)))
          (node (world s)) (trace (world s)) (stdout (world s)))
       (_upload_filepath s)
       (map_log s ++ [ReadFile (waypoint_snapshot_path (_upload_filepath s) w)])
       (lines s)).
Proof.
  intros services w rest s data id Hd Hp.
  unfold waypoint_snapshot_path in *.
  cbn [load_waypoint_snapshots].
  unfold and_then at 1. unfold read_path at 1.
  unfold and_then at 1. unfold read_file at 1. rewrite Hd.
  rewrite Hp.
  unfold and_then at 1. unfold read_self at 1, lift at 1, read_gni at 1.
  cbn [world _upload_filepath map_log lines].
  unfold and_then at 1. unfold update_self at 1, lift at 1, update_gni at 1.
  cbn [world _upload_filepath map_log lines gni node trace stdout].
  reflexivity.
Qed.

Lemma load_waypoint_snapshots_all : forall services ws s,
  (forall w, In w ws -> waypoint_file_ok services (_upload_filepath s) w) ->
  exists s',
    load_waypoint_snapshots services ws s = Done tt s' /\
    loaded_from s s' (snapshot_reads (_upload_filepath s) ws) /\
    (forall w, In w ws -> snapshot_held services (_upload_filepath s) s' w) /\
    (filed_under_own_id services (_current_waypoint_snapshots (gni (world s))) ->
     filed_under_own_id services (_current_waypoint_snapshots (gni (world s')))).
Proof.
  intros services ws; induction ws as [|w rest IH]; intros s Hok.
  - exists s. split; [reflexivity|]. split; [apply loaded_from_refl|].
    split; [intros w []|auto].
  - destruct (Hok w (or_introl eq_refl)) as (data & id & Hd & Hp).
    rewrite (@load_waypoint_snapshots_step services w rest s data id Hd Hp).
    match goal with |- context [load_waypoint_snapshots _ _ ?s1] => set (s1' := s1) end.
    assert (Hstep : loaded_from s s1'
                      [ReadFile (waypoint_snapshot_path (_upload_filepath s) w)]).
    { unfold loaded_from, s1'; cbn. repeat split; auto.
      intros id'. apply dict_set_keeps. }
    destruct (IH s1') as (s' & Hrun & Hfrom & Hheld & Hfiled).
    { intros w' Hin. apply Hok. right; exact Hin. }
    exists s'. split; [exact Hrun|].
    split; [exact (loaded_from_trans Hstep Hfrom)|].
    split.
    + intros w' [<-|Hin].
      * exists data, id. split; [exact Hd|]. split; [exact Hp|].
        destruct Hfrom as (_ & _ & _ & _ & _ & Hkeep). apply Hkeep.
        unfold s1'; cbn. rewrite dict_get_set_same; discriminate.
      * exact (Hheld w' Hin).
    + intros Hf. apply Hfiled. unfold s1'; cbn.
      intros id' data' Hget.
      destruct (String.eqb_spec id' id) as [->|Hne].
      * rewrite dict_get_set_same in Hget. congruence.
      * rewrite dict_get_set_other in Hget by exact Hne. exact (Hf id' data' Hget).
Qed.

(** X18. The waypoint snapshots are loaded eagerly: when the snapshot file
    of every waypoint of the graph is on the disk and decodes, the loop
    reads one file per waypoint, in the order of the graph, and changes
    nothing but the snapshot store of the controller.  Afterwards the
    snapshot of every waypoint is in the store, nothing that was stored
    before is lost, and a store that files every snapshot under the id it
    carries still does. *)
Theorem waypoint_snapshots_loaded_one_read_each :
  forall (services : Services) (ws : list Waypoint) (s : Session),
    (forall w, In w ws -> waypoint_file_ok services (_upload_filepath s) w) ->
    exists s',
      load_waypoint_snapshots services ws s = Done tt s' /\
      loaded_from s s' (snapshot_reads (_upload_filepath s) ws) /\
      (forall w, In w ws -> snapshot_held services (_upload_filepath s) s' w) /\
      (filed_under_own_id services
         (_current_waypoint_snapshots (gni (world s))) ->
       filed_under_own_id services
         (_current_waypoint_snapshots (gni (world s')))).
Proof. exact load_waypoint_snapshots_all. Qed.

Lemma waypoint_snapshots_loaded_one_read_each_witness :
  exists s',
    load_waypoint_snapshots map_services (waypoints recorded_corridor)
      fresh_session = Done tt s' /\
    loaded_from fresh_session s'
      (snapshot_reads "/maps" (waypoints recorded_corridor)) /\
    (forall w, In w (waypoints recorded_corridor) ->
       snapshot_held map_services "/maps" s' w) /\
    (filed_under_own_id map_services
       (_current_waypoint_snapshots (gni (world fresh_session))) ->
     filed_under_own_id map_services
       (_current_waypoint_snapshots (gni (world s')))).
Proof.
  apply (@waypoint_snapshots_loaded_one_read_each map_services
           (waypoints recorded_corridor) fresh_session).
  intros w [<-|[<-|[<-|[]]]]; eexists; eexists; split; reflexivity.
Defined.

(** X19. A snapshot file that is missing stops the load with the error of
    [open], at the first waypoint whose file is missing: the files of the
    waypoints before it have been read and their snapshots stay in the
    store, the files of the waypoints after it are not read. *)
Theorem missing_snapshot_file_stops_load :
  forall (services : Services) (pre post : list Waypoint) (w : Waypoint)
         (s : Session),
    (forall w', In w' pre -> waypoint_file_ok services (_upload_filepath s) w') ->
    disk services (waypoint_snapshot_path (_upload_filepath s) w) = None ->
    exists s',
      load_waypoint_snapshots services (pre ++ w :: post) s =
      Failed (FileNotFoundError (waypoint_snapshot_path (_upload_filepath s) w)) s' /\
      loaded_from s s' (snapshot_reads (_upload_filepath s) (pre ++ [w])) /\
      (forall w', In w' pre -> snapshot_held services (_upload_filepath s) s' w').
Proof.
  intros services pre; induction pre as [|w0 pre IH]; intros post w s Hok Hmiss.
  - cbn [app load_waypoint_snapshots].
    unfold and_then at 1. unfold read_path at 1.
    unfold and_then at 1. unfold read_file at 1.
    unfold waypoint_snapshot_path in Hmiss |- *. rewrite Hmiss.
    eexists. split; [reflexivity|]. split; [|intros w' []].
    unfold loaded_from, snapshot_reads, waypoint_snapshot_path; cbn.
    repeat split; auto. destruct (gni (world s)); reflexivity.
  - destruct (Hok w0 (or_introl eq_refl)) as (data & id & Hd & Hp).
    cbn [app].
    rewrite (@load_waypoint_snapshots_step services w0 (pre ++ w :: post) s data id Hd Hp).
    match goal with |- context [load_waypoint_snapshots _ _ ?s1] => set (s1' := s1) end.
    assert (Hstep : loaded_from s s1'
                      [ReadFile (waypoint_snapshot_path (_upload_filepath s) w0)]).
    { unfold loaded_from, s1'; cbn. repeat split; auto.
      intros id'. apply dict_set_keeps. }
    destruct (IH post w s1') as (s' & Hrun & Hfrom & Hheld).
    { intros w' Hin. apply Hok. right; exact Hin. }
    { exact Hmiss. }
    exists s'. split; [exact Hrun|].
    split; [exact (loaded_from_trans Hstep Hfrom)|].
    intros w' [<-|Hin].
    + exists data, id. split; [exact Hd|]. split; [exact Hp|].
      destruct Hfrom as (_ & _ & _ & _ & _ & Hkeep). apply Hkeep.
      unfold s1'; cbn. rewrite dict_get_set_same; discriminate.
    + exact (Hheld w' Hin).
Qed.

Lemma missing_snapshot_file_stops_load_witness :
  exists s',
    load_waypoint_snapshots services_missing_b
      ([mkWaypoint "a" "start" "sa"] ++
       mkWaypoint "b" "middle" "sb" :: [mkWaypoint "c" "end" "sc"])
      fresh_session =
    Failed (FileNotFoundError "/maps/waypoint_snapshots/sb") s' /\
    loaded_from fresh_session s'
      (snapshot_reads "/maps"
         ([mkWaypoint "a" "start" "sa"] ++ [mkWaypoint "b" "middle" "sb"])) /\
    (forall w', In w' [mkWaypoint "a" "start" "sa"] ->
       snapshot_held services_missing_b "/maps" s' w').
Proof.
  apply (@missing_snapshot_file_stops_load services_missing_b
           [mkWaypoint "a" "start" "sa"] [mkWaypoint "c" "end" "sc"]
           (mkWaypoint "b" "middle" "sb") fresh_session).
  - intros w [<-|[]]; eexists; eexists; split; reflexivity.
  - reflexivity.
Defined.

(** *** The order of reads and uploads *)

Lemma phase_done : forall P A (a : A), snapshot_phase P (done a).
Proof. intros P A a s; exists []; cbn; rewrite app_nil_r; auto. Qed.

Lemma phase_fail : forall P A f, snapshot_phase P (@fail A f).
Proof. intros P A f s; exists []; cbn; rewrite app_nil_r; auto. Qed.

Lemma phase_say : forall P l, snapshot_phase P (say l).
Proof. intros P l s; exists []; cbn; rewrite app_nil_r; auto. Qed.

Lemma phase_read_path : forall P, snapshot_phase P read_path.
Proof. intros P s; exists []; cbn; rewrite app_nil_r; auto. Qed.

Lemma phase_read_file : forall P d p,
  P (ReadFile p) = true -> snapshot_phase P (read_file d p).
Proof.
  intros P d p HP s; exists [ReadFile p]; unfold read_file.
  destruct (d p); cbn; rewrite HP; auto.
Qed.

Lemma phase_map_call : forall P A (sc : nat -> Reply A) c,
  P c = true -> snapshot_phase P (map_call sc c).
Proof.
  intros P A sc c HP s; exists [c]; unfold map_call.
  destruct (sc _); cbn; rewrite HP; auto.
Qed.

Lemma phase_read_self : forall P A (f : GraphNavInterface -> A),
  snapshot_phase P (read_self f).
Proof. intros P A f s; exists []; cbn; rewrite app_nil_r; auto. Qed.

Lemma phase_update_self : forall P f,
  (forall g, _current_graph (f g) = _current_graph g) ->
  snapshot_phase P (update_self f).
Proof. intros P f Hf s; exists []; cbn; rewrite app_nil_r; auto. Qed.

Lemma phase_lift_call : forall P A (sc : nat -> Reply A) e,
  snapshot_phase P (lift (call sc e)).
Proof.
  intros P A sc e s; exists []; unfold lift, call.
  destruct (sc _); cbn; rewrite app_nil_r; auto.
Qed.

Lemma phase_bind : forall P A B (c : Act A) (k : A -> Act B),
  snapshot_phase P c -> (forall a, snapshot_phase P (k a)) ->
  snapshot_phase P (and_then c k).
Proof.
  intros P A B c k Hc Hk s.
  destruct (Hc s) as (l1 & E1 & F1 & G1). unfold and_then.
  destruct (c s) as [a s1|f s1|s1]; cbn [last_session] in *.
  - destruct (Hk a s1) as (l2 & E2 & F2 & G2).
    exists (l1 ++ l2). rewrite E2, E1, app_assoc, forallb_app, F1, F2, G2, G1.
    auto.
  - exists l1; auto.
  - exists l1; auto.
Qed.

Ltac phase :=
  repeat first
    [ apply phase_done | apply phase_fail | apply phase_say
    | apply phase_read_path | apply phase_read_self | apply phase_lift_call
    | apply phase_read_file; reflexivity
    | apply phase_map_call; reflexivity
    | apply phase_update_self; intros []; reflexivity
    | apply phase_bind; [|intros]
    | match goal with
      | H : _ |- snapshot_phase _ _ => apply H
      | |- snapshot_phase _ (match ?x with _ => _ end) => destruct x
      end ].

Lemma phase_load_waypoint_snapshots : forall services ws,
  snapshot_phase is_read (load_waypoint_snapshots services ws).
Proof.
  intros services ws; induction ws as [|w rest IH];
    cbn [load_waypoint_snapshots]; phase.
Qed.

Lemma phase_load_edge_snapshots : forall services es,
  snapshot_phase is_read (load_edge_snapshots services es).
Proof.
  intros services es; induction es as [|e rest IH];
    cbn [load_edge_snapshots]; phase.
Qed.

Lemma phase_upload_waypoint_snapshots : forall services ids,
  snapshot_phase is_snapshot_upload (upload_waypoint_snapshots services ids).
Proof.
  intros services ids; induction ids as [|i rest IH];
    cbn [upload_waypoint_snapshots]; phase.
Qed.

Lemma phase_upload_edge_snapshots : forall services ids,
  snapshot_phase is_snapshot_upload (upload_edge_snapshots services ids).
Proof.
  intros services ids; induction ids as [|i rest IH];
    cbn [upload_edge_snapshots]; phase.
Qed.

(** X20. However an upload of the map ends, its map calls are file reads
    first, then at most one upload of a graph, then uploads of snapshots
    only: nothing is sent to the robot before every file has been read, so
    a missing or unreadable file means that the robot receives nothing.
    The graph sent is the one decoded from the graph file and cached by the
    controller, and a new anchoring is requested exactly when that graph
    carries no anchors. *)
Theorem graph_uploaded_once_after_all_reads :
  forall (services : Services) (remote : Remote) (s : Session),
    reads_then_upload services s
      (last_session (_upload_graph_and_snapshots services remote s)).
Proof.
  intros services remote s. unfold _upload_graph_and_snapshots.
  unfold and_then at 1, say at 1. unfold and_then at 1, read_path at 1.
  cbn [_upload_filepath world map_log lines].
  unfold and_then at 1, read_file at 1.
  cbn [_upload_filepath world map_log lines].
  destruct (disk services (_upload_filepath s ++ "/graph")) as [data|] eqn:Hd.
  2:{ exists [ReadFile (_upload_filepath s ++ "/graph")].
      split; [reflexivity|left; reflexivity]. }
  unfold and_then at 1, update_self at 1, lift at 1, update_gni at 1.
  cbn [_upload_filepath world map_log lines gni node trace stdout].
  destruct (parse_graph services data) as [g|partial] eqn:Hp.
  2:{ exists [ReadFile (_upload_filepath s ++ "/graph")].
      split; [reflexivity|left; reflexivity]. }
  unfold and_then at 1, update_self at 1, lift at 1, update_gni at 1.
  cbn [_upload_filepath world map_log lines gni node trace stdout].
  unfold and_then at 1, say at 1.
  cbn [_upload_filepath world map_log lines gni node trace stdout].
  match goal with |- context [and_then _ _ ?s1] => set (s0 := s1) end.
  assert (Hg0 : _current_graph (gni (world s0)) = Some g)
    by (unfold s0; destruct (gni (world s)); reflexivity).
  assert (Hl0 : map_log s0 = map_log s ++ [ReadFile (_upload_filepath s ++ "/graph")])
    by reflexivity.
  clearbody s0.
  destruct (@phase_load_waypoint_snapshots services (waypoints g) s0)
    as (l1 & E1 & F1 & G1).
  unfold and_then at 1.
  destruct (load_waypoint_snapshots services (waypoints g) s0)
    as [[] s1|f s1|s1]; cbn [last_session] in *.
  2,3: exists ([ReadFile (_upload_filepath s ++ "/graph")] ++ l1);
       (split; [cbn; exact F1|left; rewrite E1, Hl0, <- app_assoc; reflexivity]).
  destruct (@phase_load_edge_snapshots services (edges g) s1)
    as (l2 & E2 & F2 & G2).
  unfold and_then at 1.
  destruct (load_edge_snapshots services (edges g) s1)
    as [[] s2|f s2|s2]; cbn [last_session] in *.
  2,3: exists ([ReadFile (_upload_filepath s ++ "/graph")] ++ l1 ++ l2);
       (split; [cbn; rewrite forallb_app, F1, F2; reflexivity
               |left; rewrite E2, E1, Hl0, <- !app_assoc; reflexivity]).
  unfold and_then at 1, say at 1.
  unfold and_then at 1, map_call at 1.
  cbn [_upload_filepath world map_log lines gni node trace stdout].
  destruct (upload_graph_script services _) as [response|e].
  - match goal with
    | |- context [last_session (?c ?s3)] =>
        assert (H : snapshot_phase is_snapshot_upload c)
          by (repeat first [ apply phase_upload_waypoint_snapshots
                           | apply phase_upload_edge_snapshots
                           | progress phase ]);
        destruct (H s3) as (l3 & E3 & F3 & G3); clear H
    end.
    exists ([ReadFile (_upload_filepath s ++ "/graph")] ++ l1 ++ l2).
    split; [cbn; rewrite forallb_app, F1, F2; reflexivity|].
    right. exists data, g, l3.
    split; [exact Hd|]. split; [exact Hp|].
    split; [rewrite G3; cbn; congruence|].
    split; [|exact F3].
    rewrite E3; cbn [map_log]. rewrite E2, E1, Hl0, <- !app_assoc. reflexivity.
  - exists ([ReadFile (_upload_filepath s ++ "/graph")] ++ l1 ++ l2).
    split; [cbn; rewrite forallb_app, F1, F2; reflexivity|].
    right. exists data, g, [].
    split; [exact Hd|]. split; [exact Hp|].
    cbn [last_session world map_log].
    split; [congruence|]. split; [|reflexivity].
    rewrite E2, E1, Hl0, <- !app_assoc. reflexivity.
Qed.

(** *** What the map operations add to the logs *)

Lemma grows_by_refl : forall X (P : X -> bool) l, grows_by P l l.
Proof. intros X P l; exists []; rewrite app_nil_r; auto. Qed.

Lemma grows_by_one : forall X (P : X -> bool) l x,
  P x = true -> grows_by P l (l ++ [x]).
Proof. intros X P l x H; exists [x]; cbn; rewrite H; auto. Qed.

Lemma grows_by_trans : forall X (P : X -> bool) l1 l2 l3,
  grows_by P l1 l2 -> grows_by P l2 l3 -> grows_by P l1 l3.
Proof.
  intros X P l1 l2 l3 (a & -> & Ha) (b & -> & Hb).
  exists (a ++ b); rewrite app_assoc, forallb_app, Ha, Hb; auto.
Qed.

Lemma grows_by_count : forall X (P Q : X -> bool) l1 l2,
  grows_by P l1 l2 -> (forall x, P x = true -> Q x = false) ->
  filter Q l2 = filter Q l1.
Proof.
  intros X P Q l1 l2 (a & -> & Ha) HPQ.
  rewrite filter_app.
  assert (E : filter Q a = []).
  { induction a as [|x a IH]; [reflexivity|].
    cbn in Ha. apply andb_true_iff in Ha as [Hx Ha].
    cbn. rewrite (HPQ x Hx). exact (IH Ha). }
  rewrite E, app_nil_r; reflexivity.
Qed.

Section Confined.

Variables (P : MapCall -> bool) (Q : Line -> bool) (R : Event -> bool).

Lemma confined_done : forall A (a : A), confined P Q R (done a).
Proof.
  intros A a s; cbn; repeat split; try apply grows_by_refl; discriminate.
Qed.

Lemma confined_fail : forall A f, confined P Q R (@fail A f).
Proof.
  intros A f s; cbn; repeat split; try apply grows_by_refl; discriminate.
Qed.

Lemma confined_say : forall l, Q l = true -> confined P Q R (say l).
Proof.
  intros l Hl s; cbn; repeat split; try apply grows_by_refl;
    [apply grows_by_one; exact Hl|discriminate].
Qed.

Lemma confined_read_path : confined P Q R read_path.
Proof.
  intros s; cbn; repeat split; try apply grows_by_refl; discriminate.
Qed.

Lemma confined_read_file : forall d p,
  P (ReadFile p) = true -> confined P Q R (read_file d p).
Proof.
  intros d p Hp s; unfold read_file; destruct (d p); cbn;
    (repeat split; try apply grows_by_refl;
     [apply grows_by_one; exact Hp|discriminate]).
Qed.

Lemma confined_map_call : forall A (sc : nat -> Reply A) c,
  P c = true -> confined P Q R (map_call sc c).
Proof.
  intros A sc c Hp s; unfold map_call; destruct (sc _); cbn;
    (repeat split; try apply grows_by_refl;
     [apply grows_by_one; exact Hp|discriminate]).
Qed.

Lemma confined_read_self : forall A (f : GraphNavInterface -> A),
  confined P Q R (read_self f).
Proof.
  intros A f s; cbn; repeat split; try apply grows_by_refl; discriminate.
Qed.

Lemma confined_update_self : forall f, confined P Q R (update_self f).
Proof.
  intros f s; cbn; repeat split; try apply grows_by_refl; discriminate.
Qed.

Lemma confined_lift_call : forall A (sc : nat -> Reply A) e,
  R e = true -> confined P Q R (lift (call sc e)).
Proof.
  intros A sc e He s; unfold lift, call; destruct (sc _); cbn;
    (repeat split; try apply grows_by_refl;
     [apply grows_by_one; exact He|discriminate]).
Qed.

Lemma confined_bind : forall A B (c : Act A) (k : A -> Act B),
  confined P Q R c -> (forall a, confined P Q R (k a)) ->
  confined P Q R (and_then c k).
Proof.
  intros A B c k Hc Hk s.
  destruct (Hc s) as (C1 & C2 & C3 & C4). unfold and_then.
  destruct (c s) as [a s1|f s1|s1]; cbn [last_session] in *.
  - destruct (Hk a s1) as (K1 & K2 & K3 & K4).
    repeat split; eauto using grows_by_trans.
  - repeat split; auto; discriminate.
  - exfalso; exact (C4 s1 eq_refl).
Qed.

Lemma confined_try_catch : forall A (c : Act A) handles h,
  confined P Q R c -> (forall f, confined P Q R (h f)) ->
  confined P Q R (try_catch c handles h).
Proof.
  intros A c handles h Hc Hh s.
  destruct (Hc s) as (C1 & C2 & C3 & C4). unfold try_catch.
  destruct (c s) as [a s1|f s1|s1]; cbn [last_session] in *.
  - repeat split; auto; discriminate.
  - destruct (handles f).
    + destruct (Hh f s1) as (K1 & K2 & K3 & K4).
      repeat split; eauto using grows_by_trans.
    + repeat split; auto; discriminate.
  - exfalso; exact (C4 s1 eq_refl).
Qed.

End Confined.

Ltac confine :=
  repeat first
    [ apply confined_done | apply confined_fail | apply confined_read_path
    | apply confined_read_self | apply confined_update_self
    | apply confined_say; reflexivity
    | apply confined_lift_call; reflexivity
    | apply confined_read_file; reflexivity
    | apply confined_map_call; reflexivity
    | apply confined_bind; [|intros]
    | apply confined_try_catch; [|intros]
    | match goal with
      | H : _ |- confined _ _ _ _ => apply H
      | |- confined _ _ _ (match ?x with _ => _ end) => destruct x
      end ].

Lemma confined_load_waypoint_snapshots : forall services ws,
  confined not_set_localization not_ready not_lease
    (load_waypoint_snapshots services ws).
Proof.
  intros services ws; induction ws as [|w rest IH];
    cbn [load_waypoint_snapshots]; confine.
Qed.

Lemma confined_load_edge_snapshots : forall services es,
  confined not_set_localization not_ready not_lease
    (load_edge_snapshots services es).
Proof.
  intros services es; induction es as [|e rest IH];
    cbn [load_edge_snapshots]; confine.
Qed.

Lemma confined_upload_waypoint_snapshots : forall services ids,
  confined not_set_localization not_ready not_lease
    (upload_waypoint_snapshots services ids).
Proof.
  intros services ids; induction ids as [|i rest IH];
    cbn [upload_waypoint_snapshots]; confine.
Qed.

Lemma confined_upload_edge_snapshots : forall services ids,
  confined not_set_localization not_ready not_lease
    (upload_edge_snapshots services ids).
Proof.
  intros services ids; induction ids as [|i rest IH];
    cbn [upload_edge_snapshots]; confine.
Qed.

Lemma confined__upload_graph_and_snapshots : forall services remote,
  confined not_set_localization not_ready not_lease
    (_upload_graph_and_snapshots services remote).
Proof.
  intros services remote. unfold _upload_graph_and_snapshots.
  repeat first [ apply confined_load_waypoint_snapshots
               | apply confined_load_edge_snapshots
               | apply confined_upload_waypoint_snapshots
               | apply confined_upload_edge_snapshots
               | progress confine ].
Qed.

Lemma confined__list_graph_waypoint_and_edge_ids : forall services remote,
  confined not_set_localization not_ready not_lease
    (_list_graph_waypoint_and_edge_ids services remote).
Proof.
  intros services remote. unfold _list_graph_waypoint_and_edge_ids. confine.
Qed.

Lemma grows_by_weaken : forall X (P P' : X -> bool) l1 l2,
  (forall x, P x = true -> P' x = true) ->
  grows_by P l1 l2 -> grows_by P' l1 l2.
Proof.
  intros X P P' l1 l2 HPP (a & -> & Ha). exists a; split; [reflexivity|].
  rewrite forallb_forall in *. auto.
Qed.

Lemma confined_any_call : forall P Q R A (c : Act A),
  confined P Q R c -> confined any Q R c.
Proof.
  intros P Q R A c Hc s. destruct (Hc s) as (C1 & C2 & C3 & C4).
  repeat split; auto. revert C1; apply grows_by_weaken; reflexivity.
Qed.

Lemma confined_current_odom_tform_body : forall P Q services remote,
  confined P Q not_lease (current_odom_tform_body services remote).
Proof.
  intros P Q services remote s. unfold current_odom_tform_body.
  apply confined_bind; [apply confined_lift_call; reflexivity|].
  intros; apply confined_done.
Qed.

Lemma confined__set_initial_localization_waypoint :
  forall services remote find args,
    confined any not_ready not_lease
      (_set_initial_localization_waypoint services remote find args).
Proof.
  intros services remote find args. unfold _set_initial_localization_waypoint.
  repeat first [ apply confined_current_odom_tform_body | progress confine ].
Qed.

Lemma confined__set_initial_localization_unresolved :
  forall services remote find token rest more,
    unresolved find token ->
    confined not_set_localization not_ready not_lease
      (_set_initial_localization_waypoint services remote find
         ((token :: rest) :: more)).
Proof.
  intros services remote find token rest more Hun.
  unfold _set_initial_localization_waypoint.
  apply confined_bind; [confine|intros g].
  apply confined_bind; [confine|intros names].
  specialize (Hun g names).
  destruct (find token g names) as [id|e]; [|confine].
  rewrite Hun. cbn [negb]. confine.
Qed.

Lemma or_give_up_confined : forall P Q R c rest,
  (forall f, Q (LineException f) = true) ->
  confined P Q R c -> confined P Q R rest ->
  confined P Q R (or_give_up c rest).
Proof.
  intros P Q R c rest HQ Hc Hrest. unfold or_give_up.
  apply confined_bind.
  - apply confined_try_catch.
    + apply confined_bind; [exact Hc|intros; apply confined_done].
    + intros f. apply confined_bind; [apply confined_say; apply HQ|].
      intros; apply confined_done.
  - intros []; [exact Hrest|apply confined_done].
Qed.

Lemma or_give_up_done : forall P Q R c rest,
  confined P Q R c -> always_done rest -> always_done (or_give_up c rest).
Proof.
  intros P Q R c rest Hc Hrest s.
  destruct (Hc s) as (_ & _ & _ & C4).
  unfold or_give_up, and_then, try_catch.
  destruct (c s) as [[] s1|f s1|s1].
  - cbn. apply Hrest.
  - cbn. eauto.
  - exfalso; exact (C4 s1 eq_refl).
Qed.

Lemma always_done_done : forall A (a : A), always_done (done a).
Proof. intros A a s; unfold done; eauto. Qed.

(** X21. Start-up of the node.  With the lease granted, the start-up
    always answers: it takes the lease first and gives it back last,
    without touching it in between, whether the three steps (upload,
    listing, localization) went through or one of them raised.  It answers
    True exactly when it has printed "Ready!" as its last line.  When the
    lease is held by someone else, it answers False after the refused
    request, having printed that the lease is in use, without any map call
    and without giving a lease back. *)
Theorem startup_holds_lease_and_answers :
  forall (services : Services) (remote : Remote) find (s : Session),
    (lease_script remote (calls KLease (trace (world s))) = Answer tt ->
     exists b s' mid said,
       NavROS2SDK_run_until_ready services remote find s = Done b s' /\
       trace (world s') =
         trace (world s) ++ EvLeaseAcquire :: mid ++ [EvLeaseReturn] /\
       forallb not_lease mid = true /\
       lines s' = lines s ++ said ++ (if b then [LineReady] else []) /\
       forallb not_ready said = true) /\
    (lease_script remote (calls KLease (trace (world s))) =
       Raises ResourceAlreadyClaimedError ->
     NavROS2SDK_run_until_ready services remote find s =
     Done false
       (mkSession
          (mkWorld (gni (world s)) (node (world s))
             (trace (world s) ++ [EvLeaseAcquire]) (stdout (world s)))
          (_upload_filepath s) (map_log s) (lines s ++ [LineLeaseInUse]))).
Proof.
  intros services remote find s; split; intros Hl.
  - unfold NavROS2SDK_run_until_ready.
    unfold and_then at 1, try_catch at 1, with_lease at 1, lift at 1, call at 1.
    cbn [kind_of]. rewrite Hl.
    match goal with
    | |- context [or_give_up ?c ?r ?s1] =>
        assert (Hc : confined any not_ready not_lease (or_give_up c r));
        [|assert (Hd : always_done (or_give_up c r));
          [|destruct (Hd s1) as (b & s2 & E);
            destruct (Hc s1) as (_ & (said & C2 & F2) & (mid & C3 & F3) & _);
            rewrite E in *; clear Hc Hd]]
    end.
    { repeat (apply or_give_up_confined; [reflexivity| |]);
        try apply confined_done.
      - apply (@confined_any_call not_set_localization).
        apply confined__upload_graph_and_snapshots.
      - apply (@confined_any_call not_set_localization).
        apply confined__list_graph_waypoint_and_edge_ids.
      - apply confined__set_initial_localization_waypoint. }
    { eapply or_give_up_done.
      - apply confined__upload_graph_and_snapshots.
      - eapply or_give_up_done.
        + apply confined__list_graph_waypoint_and_edge_ids.
        + eapply or_give_up_done.
          * apply confined__set_initial_localization_waypoint.
          * apply always_done_done. }
    cbn [last_session world map_log lines trace] in C2, C3.
    exists b. destruct b.
    + eexists; exists mid, said. cbn. split; [reflexivity|].
      cbn. rewrite C2, C3, <- !app_assoc. cbn. auto.
    + eexists; exists mid, said. cbn. split; [reflexivity|].
      cbn. rewrite C2, C3, <- !app_assoc, !app_nil_r. cbn. auto.
  - unfold NavROS2SDK_run_until_ready.
    unfold and_then at 1, try_catch at 1, with_lease at 1, lift at 1, call at 1.
    cbn [kind_of]. rewrite Hl. reflexivity.
Qed.

Lemma confined_weaken : forall P Q R P' Q' R' A (c : Act A),
  (forall x, P x = true -> P' x = true) ->
  (forall x, Q x = true -> Q' x = true) ->
  (forall x, R x = true -> R' x = true) ->
  confined P Q R c -> confined P' Q' R' c.
Proof.
  intros P Q R P' Q' R' A c HP HQ HR Hc s.
  destruct (Hc s) as (C1 & C2 & C3 & C4).
  repeat split; auto; eapply grows_by_weaken; eauto.
Qed.

Lemma confined_with_lease : forall P Q R remote A (body : Act A),
  R EvLeaseAcquire = true -> R EvLeaseReturn = true ->
  confined P Q R body -> confined P Q R (with_lease remote body).
Proof.
  intros P Q R remote A body Ha Hr Hb s.
  unfold with_lease, lift, call. cbn [kind_of].
  destruct (lease_script remote _).
  - match goal with |- context [body ?s1] => destruct (Hb s1) as (C1 & C2 & C3 & C4) end.
    destruct (body _) as [r s2|f s2|s2]; cbn in *.
    + split; [exact C1|]. split; [exact C2|]. split; [|discriminate].
      eapply grows_by_trans; [apply grows_by_one; exact Ha|].
      eapply grows_by_trans; [exact C3|apply grows_by_one; exact Hr].
    + split; [exact C1|]. split; [exact C2|]. split; [|discriminate].
      eapply grows_by_trans; [apply grows_by_one; exact Ha|].
      eapply grows_by_trans; [exact C3|apply grows_by_one; exact Hr].
    + exfalso; exact (C4 s2 eq_refl).
  - cbn. split; [apply grows_by_refl|]. split; [apply grows_by_refl|].
    split; [apply grows_by_one; exact Ha|discriminate].
Qed.

(** X22. A start-up whose localization waypoint the helper does not
    resolve sends no localization request to the robot, however it ends;
    it is not stopped by that either, as the step returns quietly. *)
Theorem startup_unknown_waypoint_sets_no_localization :
  forall (services : Services) (remote : Remote) find (s : Session),
    unresolved find "rp" ->
    filter (is_map_kind KSetLocalization)
      (map_log (last_session
                  (NavROS2SDK_run_until_ready services remote find s))) =
    filter (is_map_kind KSetLocalization) (map_log s).
Proof.
  intros services remote find s Hun.
  assert (Hc : confined not_set_localization any any
                 (NavROS2SDK_run_until_ready services remote find)).
  { unfold NavROS2SDK_run_until_ready.
    apply confined_bind; [|intros []; confine].
    apply confined_try_catch; [|intros; confine].
    apply confined_with_lease; [reflexivity|reflexivity|].
    repeat (apply or_give_up_confined; [reflexivity| |]);
      try apply confined_done.
    - eapply confined_weaken;
        [| | |apply confined__upload_graph_and_snapshots]; auto.
    - eapply confined_weaken;
        [| | |apply confined__list_graph_waypoint_and_edge_ids]; auto.
    - eapply confined_weaken;
        [| | |apply confined__set_initial_localization_unresolved; exact Hun];
        auto. }
  destruct (Hc s) as (C1 & _).
  apply (@grows_by_count _ not_set_localization _ _ _ C1).
  intros x Hx. unfold not_set_localization in Hx.
  destruct (is_map_kind KSetLocalization x); [discriminate|reflexivity].
Qed.

Lemma startup_unknown_waypoint_sets_no_localization_witness :
  filter (is_map_kind KSetLocalization)
    (map_log (last_session
                (NavROS2SDK_run_until_ready map_services
                   (Scenario.robot_on [] Scenario.never)
                   Scenario2.knows_nothing fresh_session))) =
  filter (is_map_kind KSetLocalization) (map_log fresh_session).
Proof.
  apply (@startup_unknown_waypoint_sets_no_localization map_services
           (Scenario.robot_on [] Scenario.never) Scenario2.knows_nothing
           fresh_session).
  intros g names; reflexivity.
Defined.

(** The start-up of the scenario above ends with "Ready!" all the same. *)
Example startup_ready_without_localization :
  answer_of
    (NavROS2SDK_run_until_ready map_services
       (Scenario.robot_on [] Scenario.never) Scenario2.knows_nothing
       fresh_session) = Some true.
Proof. vm_compute; reflexivity. Qed.

(** *** Localization and listing *)

(** X23. Initial localization to a waypoint.  Only the first token of the
    first argument is looked at.  When the helper resolves it to an id, the
    robot state is read once and one localization request is sent for that
    id, with the body pose of that very reading; the controller is not
    changed, and a refusal of the request is raised to the caller.  When
    the helper finds nothing, the operation returns without any call: the
    robot state is not read and nothing is sent or printed. *)
Theorem localization_requested_for_resolved_waypoint :
  forall (services : Services) (remote : Remote) find
         (token : string) (rest : list string) (more : list (list string))
         (s : Session),
    (forall id st,
       resolves_to find (gni (world s)) token id ->
       robot_state_script remote (calls KRobotState (trace (world s))) =
         Answer st ->
       let s' :=
         logged (with_event s EvGetRobotState)
           [waypoint_localization_request id
              (odom_tform_body_script services
                 (calls KRobotState (trace (world s))))] [] in
       _set_initial_localization_waypoint services remote find
         ((token :: rest) :: more) s =
       match set_localization_script services
               (map_calls KSetLocalization (map_log s)) with
       | Answer _ => Done tt s'
       | Raises e => Failed (Navigation_error e) s'
       end) /\
    (forall found,
       find token (_current_graph (gni (world s)))
         (_current_annotation_name_to_wp_id (gni (world s))) = Answer found ->
       truthy_id found = false ->
       _set_initial_localization_waypoint services remote find
         ((token :: rest) :: more) s = Done tt s).
Proof.
  intros services remote find token rest more s; split.
  - intros id st [Hfind Hne] Hst s'.
    unfold _set_initial_localization_waypoint.
    unfold and_then at 1, read_self at 1, lift at 1, read_gni at 1.
    unfold and_then at 1, read_self at 1, lift at 1, read_gni at 1.
    cbn [world _upload_filepath map_log lines]. rewrite Hfind.
    apply String.eqb_neq in Hne.
    unfold truthy_id. rewrite Hne. cbn [negb].
    unfold and_then at 1, current_odom_tform_body at 1.
    unfold and_then at 1, lift at 1, call at 1.
    cbn [world _upload_filepath map_log lines kind_of]. rewrite Hst.
    unfold done at 1, map_call at 1.
    cbn [world _upload_filepath map_log lines map_kind_of gni node trace stdout].
    destruct s as [[g n t o] p l ls]; unfold s', logged, with_event,
      waypoint_localization_request; cbn.
    rewrite !app_nil_r.
    destruct (set_localization_script services _) as [[]|e]; reflexivity.
  - intros found Hfind Hfalse.
    unfold _set_initial_localization_waypoint.
    unfold and_then at 1, read_self at 1, lift at 1, read_gni at 1.
    unfold and_then at 1, read_self at 1, lift at 1, read_gni at 1.
    cbn [world _upload_filepath map_log lines]. rewrite Hfind, Hfalse.
    destruct s as [[g n t o] p l ls]; reflexivity.
Qed.

Lemma localization_requested_for_resolved_waypoint_witness :
  _set_initial_localization_waypoint map_services
    (Scenario.robot_on [] Scenario.never) Scenario2.knows_corridor
    (["b"; "ignored"] :: [["c"]]) loaded_session =
  Done tt
    (logged (with_event loaded_session EvGetRobotState)
       [waypoint_localization_request "b" (mkSE3Pose 0 0 0 Quat_identity)] []).
Proof.
  apply (proj1 (@localization_requested_for_resolved_waypoint map_services
                  (Scenario.robot_on [] Scenario.never) Scenario2.knows_corridor
                  "b" ["ignored"] [["c"]] loaded_session) "b" STATE_ON).
  - split; [reflexivity|discriminate].
  - reflexivity.
Defined.

(** X24. Listing the map of the robot replaces the cache in two steps.
    When the robot holds no graph, the cache is left as it was.  When it
    holds one, the cached graph is replaced first and the name and edge
    tables are rebuilt from it only after the localization has been read:
    if that reading raises, the controller is left with the new graph and
    the tables of the old one.  The snapshot stores are not touched. *)
Theorem listing_replaces_cache_in_two_steps :
  forall (services : Services) (remote : Remote) (s : Session),
    (download_graph_script services (map_calls KDownloadGraph (map_log s)) =
       Answer None ->
     _list_graph_waypoint_and_edge_ids services remote s =
     Done tt (logged s [DownloadGraph] [LineEmptyGraph])) /\
    (forall g l,
       download_graph_script services (map_calls KDownloadGraph (map_log s)) =
         Answer (Some g) ->
       localization_script remote (calls KLocalization (trace (world s))) =
         Answer l ->
       _list_graph_waypoint_and_edge_ids services remote s =
       Done tt
         (with_self
            (logged (with_event s EvGetLocalizationState) [DownloadGraph] [])
            (fun self =>
               set__tables
                 (fst (update_waypoints_and_edges services g (loc_waypoint_id l)))
                 (snd (update_waypoints_and_edges services g (loc_waypoint_id l)))
                 (set__current_graph (Some g) self)))) /\
    (forall g e,
       download_graph_script services (map_calls KDownloadGraph (map_log s)) =
         Answer (Some g) ->
       localization_script remote (calls KLocalization (trace (world s))) =
         Raises e ->
       _list_graph_waypoint_and_edge_ids services remote s =
       Failed (Navigation_error e)
         (with_self
            (logged (with_event s EvGetLocalizationState) [DownloadGraph] [])
            (set__current_graph (Some g)))).
Proof.
  intros services remote s; split; [|split].
  - intros Hd. unfold _list_graph_waypoint_and_edge_ids.
    unfold and_then at 1, map_call at 1. cbn [map_kind_of]. rewrite Hd.
    destruct s as [[g n t o] p l ls]; unfold logged; reflexivity.
  - intros g l Hd Hl. unfold _list_graph_waypoint_and_edge_ids.
    unfold and_then at 1, map_call at 1. cbn [map_kind_of]. rewrite Hd.
    unfold and_then at 1, update_self at 1, lift at 1, update_gni at 1.
    cbn [world _upload_filepath map_log lines gni node trace stdout].
    unfold and_then at 1, lift at 1, call at 1.
    cbn [world _upload_filepath map_log lines gni node trace stdout kind_of].
    rewrite Hl.
    destruct s as [[g0 n t o] p l0 ls]; unfold logged, with_self, with_event;
      cbn. rewrite !app_nil_r. reflexivity.
  - intros g e Hd Hl. unfold _list_graph_waypoint_and_edge_ids.
    unfold and_then at 1, map_call at 1. cbn [map_kind_of]. rewrite Hd.
    unfold and_then at 1, update_self at 1, lift at 1, update_gni at 1.
    cbn [world _upload_filepath map_log lines gni node trace stdout].
    unfold and_then at 1, lift at 1, call at 1.
    cbn [world _upload_filepath map_log lines gni node trace stdout kind_of].
    rewrite Hl.
    destruct s as [[g0 n t o] p l0 ls]; unfold logged, with_self, with_event;
      cbn. rewrite !app_nil_r. reflexivity.
Qed.

Lemma listing_replaces_cache_in_two_steps_witness :
  _list_graph_waypoint_and_edge_ids map_services
    (Scenario.robot_on [] Scenario.never) fresh_session =
  Done tt
    (with_self
       (logged (with_event fresh_session EvGetLocalizationState)
          [DownloadGraph] [])
       (fun self =>
          set__tables
            (fst (tables_of recorded_corridor
                    (loc_waypoint_id Scenario.here)))
            (snd (tables_of recorded_corridor
                    (loc_waypoint_id Scenario.here)))
            (set__current_graph (Some recorded_corridor) self))).
Proof.
  apply (proj1 (proj2 (@listing_replaces_cache_in_two_steps map_services
                         (Scenario.robot_on [] Scenario.never) fresh_session))
           recorded_corridor Scenario.here); reflexivity.
Defined.

(** *** Edges without a snapshot *)

Lemma edges_loaded_from_refl : forall s, edges_loaded_from s s [].
Proof.
  intros [[g n t o] p l ls]; unfold edges_loaded_from; cbn.
  rewrite app_nil_r. repeat split; auto. destruct g; reflexivity.
Qed.

Lemma edges_loaded_from_trans : forall s s1 s2 r1 r2,
  edges_loaded_from s s1 r1 -> edges_loaded_from s1 s2 r2 ->
  edges_loaded_from s s2 (r1 ++ r2).
Proof.
  intros s s1 s2 r1 r2 (A1 & A2 & A3 & A4 & A5) (B1 & B2 & B3 & B4 & B5).
  unfold edges_loaded_from.
  split; [rewrite B1, A1, app_assoc; reflexivity|].
  split; [congruence|]. split; [congruence|]. split; [congruence|].
  rewrite B5 at 1. rewrite A5. reflexivity.
Qed.

(** X25. The edge snapshots are loaded for the edges that have one: an
    edge whose snapshot id is empty is passed over without a file read.
    When the files of the other edges are on the disk and decode, the loop
    reads exactly those, in the order of the graph, and changes nothing but
    the edge snapshot store. *)
Theorem edges_without_snapshot_are_not_read :
  forall (services : Services) (es : list Edge) (s : Session),
    (forall e, In e (edges_with_snapshot es) ->
       edge_file_ok services (_upload_filepath s) e) ->
    exists s',
      load_edge_snapshots services es s = Done tt s' /\
      edges_loaded_from s s'
        (map (fun e => ReadFile (edge_snapshot_path (_upload_filepath s) e))
           (edges_with_snapshot es)).
Proof.
  intros services es; induction es as [|e rest IH]; intros s Hok.
  - exists s; split; [reflexivity|apply edges_loaded_from_refl].
  - cbn [load_edge_snapshots edges_with_snapshot filter] in *.
    destruct (edge_snapshot_id_is_empty e) eqn:He; cbn [negb] in *.
    + apply IH. exact Hok.
    + destruct (Hok e (or_introl eq_refl)) as (data & id & Hd & Hp).
      unfold edge_snapshot_path in Hd.
      unfold and_then at 1. unfold read_path at 1.
      unfold and_then at 1. unfold read_file at 1. rewrite Hd, Hp.
      unfold and_then at 1. unfold read_self at 1, lift at 1, read_gni at 1.
      cbn [world _upload_filepath map_log lines].
      unfold and_then at 1. unfold update_self at 1, lift at 1, update_gni at 1.
      cbn [world _upload_filepath map_log lines gni node trace stdout].
      match goal with
      | |- context [load_edge_snapshots _ _ ?s1] => set (s1' := s1)
      end.
      assert (Hstep : edges_loaded_from s s1'
                        [ReadFile (edge_snapshot_path (_upload_filepath s) e)]).
      { unfold edges_loaded_from, s1', edge_snapshot_path; cbn.
        repeat split; auto. }
      destruct (IH s1') as (s' & Hrun & Hfrom).
      { intros e' Hin. apply Hok. right; exact Hin. }
      exists s'. split; [exact Hrun|].
      exact (edges_loaded_from_trans Hstep Hfrom).
Qed.

Lemma edges_without_snapshot_are_not_read_witness :
  exists s',
    load_edge_snapshots map_services (edges recorded_corridor) fresh_session =
    Done tt s' /\
    edges_loaded_from fresh_session s'
      (map (fun e => ReadFile (edge_snapshot_path "/maps" e))
         (edges_with_snapshot (edges recorded_corridor))).
Proof.
  apply (@edges_without_snapshot_are_not_read map_services
           (edges recorded_corridor) fresh_session).
  intros e [<-|[]]; eexists; eexists; split; reflexivity.
Defined.

(** *** Position commands *)

(** X26. A position command is sent whatever became of the upload that
    precedes it.  The upload is attempted first; if it raises, for a
    missing file, a malformed graph, an unknown snapshot id or a refusal of
    the robot, the exception is printed and the anchored navigation to the
    three coordinates starts all the same, from the state the upload
    left. *)
Theorem position_command_follows_any_upload :
  forall (services : Services) (remote : Remote) euler (fuel : nat)
         (x y yaw : Q) (s : Session),
    run_next_position services remote euler fuel x y yaw s =
    lift (_navigate_to_anchor remote euler fuel [[x; y; yaw]])
      (after_upload_attempt (_upload_graph_and_snapshots services remote s)) /\
    forall s1, _upload_graph_and_snapshots services remote s <> Unfinished s1.
Proof.
  intros services remote euler fuel x y yaw s.
  destruct (@confined__upload_graph_and_snapshots services remote s)
    as (_ & _ & _ & C4).
  split; [|exact C4].
  unfold run_next_position, and_then, try_catch.
  destruct (_upload_graph_and_snapshots services remote s) as [[] s1|f s1|s1];
    cbn [after_upload_attempt]; try reflexivity.
  exfalso; exact (C4 s1 eq_refl).
Qed.

Lemma startup_holds_lease_and_answers_witness :
  exists b s' mid said,
    NavROS2SDK_run_until_ready map_services
      (Scenario.robot_on [] Scenario.never) Scenario2.knows_corridor
      fresh_session = Done b s' /\
    trace (world s') =
      trace (world fresh_session) ++ EvLeaseAcquire :: mid ++ [EvLeaseReturn] /\
    forallb not_lease mid = true /\
    lines s' = lines fresh_session ++ said ++ (if b then [LineReady] else []) /\
    forallb not_ready said = true.
Proof.
  apply (proj1 (@startup_holds_lease_and_answers map_services
                  (Scenario.robot_on [] Scenario.never)
                  Scenario2.knows_corridor fresh_session)).
  reflexivity.
Defined.

Lemma upload_path_loses_one_slash_witness :
  stored_upload_path "/maps" = Some "/maps".
Proof.
  apply (proj1 (proj2 (upload_path_loses_one_slash "/maps")) "s");
    [reflexivity|discriminate].
Defined.
